(** * Delete-relaxation operator-counting constraints (Rankooh & Rintanen)

    A shallow embedding of
    [src/search/operator_counting/delete_relaxation_constraints_rr.cc]:
    the vertex elimination graph [VEGraph], the construction of the LP
    variables and of the constraint families (2)-(8), and the per-state
    update of the bounds of the rows of family (2).

    Conventions of the embedding.
    - [int] indices (variable ids, values, operator ids, LP column and row
      numbers, queue keys) are [nat]: the code only produces them from
      container sizes and loop counters.
    - [vector<T>] is [list T]; [v[i]] out of range is undefined in the
      source: the model reads a default element and writes nothing there.
      A task whose operators or goal mention a fact that is not a fact of
      its variables has no defined behaviour in the source; what is proved
      here of such a task is a statement about the model alone.
    - [utils::HashSet] is [gset], [utils::HashMap]/[unordered_map] is
      [gmap]; iterating a hash set is [elements], whose order is not
      specified, as in the source.
    - [map::at] on a missing key throws [std::out_of_range]: such code lives
      in the monad [Res], and the exception carries the missing key.
    - [double] values are only ever 0, 1, -1 and plus or minus the solver's
      infinity: bounds are [bound], coefficients are [Z]. *)

From stdpp Require Import base option list gmap sets fin_sets.
From Stdlib Require Import ZArith Lia.

Set Default Proof Using "Type".

(** ** The planning task, as seen through [task_proxy.h]

    The task model is consumed read-only: it "exposes variables (each with
    a domain size), operators (each with an ordered set of precondition
    facts and effect facts, an identifier usable as an operator-counting
    index), and a goal condition (set of facts)". *)

(** Modelled from the spec: [FactPair], a variable id and one of its
    values. *)
Record FactPair : Type := Fact { var : nat; value : nat }.

#[global] Instance FactPair_eq_dec : EqDecision FactPair.
Proof. solve_decision. Defined.

#[global] Instance FactPair_countable : Countable FactPair :=
  inj_countable' (λ f, (var f, value f)) (λ p, Fact p.1 p.2)
                 (λ f, match f with Fact _ _ => eq_refl end).

(** Modelled from the spec: [OperatorProxy], an operator with its
    preconditions and the facts of its effects. The
    conditions of an effect are never read by the code (the task is assumed
    to be free of conditional effects). [get_id] is the position of the
    operator in the task. *)
Record OperatorProxy : Type := Operator {
  get_preconditions : list FactPair;
  get_effects : list FactPair;
}.

(** Modelled from the spec: [TaskProxy], the domain size of each
    variable, the operators, the goal. *)
Record TaskProxy : Type := Task {
  get_variables : list nat;
  get_operators : list OperatorProxy;
  get_goals : list FactPair;
}.

(** [(var, value)] for every variable and every value of its domain, in the
    order of the two nested loops over variables and values. *)
Definition facts_of (domain_sizes : list nat) : list FactPair :=
  '(var_id, domain_size) ← imap pair domain_sizes;
  val ← seq 0 domain_size;
  [Fact var_id val].

Definition all_facts (task : TaskProxy) : list FactPair :=
  facts_of (get_variables task).

(** The operators paired with their ids. *)
Definition indexed_operators (task : TaskProxy) : list (nat * OperatorProxy) :=
  imap pair (get_operators task).

(** ** The elimination queue

    [priority_queues::AdaptiveQueue<FactPair>] is declared in
    [algorithms/priority_queues.h]. The code uses [push], [pop] and
    [empty]; [pop] removes an entry of least key, and which one among equal
    keys depends on the queue's internal representation. *)

(** Modelled from the spec: the priority queue of [priority_queues.h], a
    multiset of [(key, fact)] entries from which [pop] extracts an entry of
    least key ("lower key = earlier elimination"), ties being broken in an
    unspecified way. [pq_pop] is [None] exactly on the empty queue. *)
Class PriorityQueue (Q : Type) : Type := {
  pq_new : Q;
  pq_entries : Q → list (nat * FactPair);
  pq_push : nat → FactPair → Q → Q;
  pq_pop : Q → option (nat * FactPair * Q);
  pq_new_entries : pq_entries pq_new = [];
  pq_push_entries k f q : pq_entries (pq_push k f q) ≡ₚ (k, f) :: pq_entries q;
  pq_pop_None q : pq_pop q = None ↔ pq_entries q = [];
  pq_pop_Some q k f q' :
    pq_pop q = Some (k, f, q') →
    pq_entries q ≡ₚ (k, f) :: pq_entries q' ∧
    ∀ k' f', (k', f') ∈ pq_entries q → k ≤ k';
}.

(** ** The vertex elimination graph *)

Record Node : Type := mkNode {
  predecessors : list FactPair;
  successors : list FactPair;
  is_eliminated : bool;
  in_degree : nat;
}.

(** A default-constructed node. [in_degree] has no initialiser in the
    source; it is written by [push_fact] before [pop_fact] ever reads it. *)
Definition new_node : Node := mkNode [] [] false 0.

Definition push_successor (f : FactPair) (n : Node) : Node :=
  mkNode (predecessors n) (successors n ++ [f]) (is_eliminated n) (in_degree n).
Definition push_predecessor (f : FactPair) (n : Node) : Node :=
  mkNode (predecessors n ++ [f]) (successors n) (is_eliminated n) (in_degree n).
Definition set_is_eliminated (b : bool) (n : Node) : Node :=
  mkNode (predecessors n) (successors n) b (in_degree n).
Definition set_in_degree (d : nat) (n : Node) : Node :=
  mkNode (predecessors n) (successors n) (is_eliminated n) d.

Module VEGraph.
Section with_queue.
Context {Q : Type} `{!PriorityQueue Q}.

Record t : Type := mk {
  nodes : list (list Node);
  delta : list (FactPair * FactPair * FactPair);
  edges : gset (FactPair * FactPair);
  elimination_queue : Q;
}.

Definition set_nodes (ns : list (list Node)) (g : t) : t :=
  mk ns (delta g) (edges g) (elimination_queue g).
Definition set_delta (d : list (FactPair * FactPair * FactPair)) (g : t) : t :=
  mk (nodes g) d (edges g) (elimination_queue g).
Definition set_edges (e : gset (FactPair * FactPair)) (g : t) : t :=
  mk (nodes g) (delta g) e (elimination_queue g).
Definition set_queue (q : Q) (g : t) : t :=
  mk (nodes g) (delta g) (edges g) q.

(** [nodes[fact.var][fact.value]], read. *)
Definition get_node (g : t) (fact : FactPair) : Node :=
  default new_node (nodes g !! var fact ≫= (.!! value fact)).

(** [nodes[fact.var][fact.value]], written through the reference. *)
Definition update_node (fact : FactPair) (h : Node → Node) (g : t) : t :=
  set_nodes (alter (alter h (value fact)) (var fact) (nodes g)) g.

Definition add_edge (from_fact to_fact : FactPair) (g : t) : t :=
  let edge := (from_fact, to_fact) in
  if decide (edge ∈ edges g) then g
  else
    let g1 := update_node from_fact (push_successor to_fact) g in
    let g2 := update_node to_fact (push_predecessor from_fact) g1 in
    set_edges ({[edge]} ∪ edges g2) g2.

(** The key of a fact: its predecessors that are not eliminated. *)
Definition count_in_degree (g : t) (node : Node) : nat :=
  length (filter (λ p, is_eliminated (get_node g p) = false) (predecessors node)).

Definition push_fact (fact : FactPair) (g : t) : t :=
  let node := get_node g fact in
  if is_eliminated node then g
  else
    let in_degree := count_in_degree g node in
    let g1 := update_node fact (set_in_degree in_degree) g in
    set_queue (pq_push in_degree fact (elimination_queue g1)) g1.

(** The loop of [pop_fact]; every iteration pops one entry, so the number
    of entries bounds the number of iterations. *)
Fixpoint pop_fact_loop (n : nat) (g : t) : option FactPair * t :=
  match n with
  | 0 => (None, g)
  | S n =>
      match pq_pop (elimination_queue g) with
      | None => (None, g)
      | Some (key, fact, q) =>
          let g1 := set_queue q g in
          if decide (in_degree (get_node g1 fact) = key) then (Some fact, g1)
          else pop_fact_loop n g1
      end
  end.

Definition pop_fact (g : t) : option FactPair * t :=
  pop_fact_loop (length (pq_entries (elimination_queue g))) g.

(** The first pair of loops of [eliminate]. *)
Definition new_shortcuts (g : t) (fact : FactPair)
  : list (FactPair * FactPair * FactPair) :=
  let node := get_node g fact in
  predecessor ← predecessors node;
  if is_eliminated (get_node g predecessor) then []
  else
    successor ← successors node;
    if is_eliminated (get_node g successor) then []
    else if decide ((predecessor, successor) ∈ edges g) then []
    else [(predecessor, fact, successor)].

Definition add_shortcut (g : t) (shortcut : FactPair * FactPair * FactPair) : t :=
  let '(from, _, to) := shortcut in
  let g1 := add_edge from to g in
  set_delta (delta g1 ++ [shortcut]) g1.

Definition repush_successor (g : t) (successor : FactPair) : t :=
  if is_eliminated (get_node g successor) then g else push_fact successor g.

Definition eliminate (fact : FactPair) (g : t) : t :=
  let shortcuts := new_shortcuts g fact in
  let g1 := update_node fact (set_is_eliminated true) g in
  let g2 := foldl add_shortcut g1 shortcuts in
  foldl repush_successor g2 (successors (get_node g2 fact)).

Definition construct_task_graph (task : TaskProxy) (g : t) : t :=
  let g0 :=
    set_nodes ((λ d, replicate d new_node) <$> get_variables task) g in
  foldl (λ g '(pre, eff), if decide (pre ≠ eff) then add_edge pre eff g else g)
        g0
        (op ← get_operators task;
         pre ← get_preconditions op;
         eff ← get_effects op;
         [(pre, eff)]).

Definition initialize_queue (task : TaskProxy) (g : t) : t :=
  foldl (λ g f, push_fact f g) g (all_facts task).

(** The [while] loop of the constructor, which eliminates every fact
    that [pop_fact] returns, with
    a bound on the number of iterations; [None] when the bound is hit. *)
Fixpoint eliminate_loop (fuel : nat) (g : t) : option t :=
  match fuel with
  | 0 => None
  | S fuel =>
      match pop_fact g with
      | (None, g1) => Some g1
      | (Some fact, g1) => eliminate_loop fuel (eliminate fact g1)
      end
  end.

(** The members before the body of the constructor runs. *)
Definition new : t := mk [] [] ∅ pq_new.

(** The state on which the elimination loop starts. *)
Definition prepare (task : TaskProxy) : t :=
  initialize_queue task (construct_task_graph task new).

(** The constructor. *)
Definition make (fuel : nat) (task : TaskProxy) : option t :=
  eliminate_loop fuel (prepare task).

(** The calls of [eliminate] made by the loop, in order: the fact, and the
    graph on which [eliminate] was called. Not part of the program; used to
    state what happened during the loop. *)
Fixpoint elimination_trace (fuel : nat) (g : t) : list (FactPair * t) :=
  match fuel with
  | 0 => []
  | S fuel =>
      match pop_fact g with
      | (None, _) => []
      | (Some fact, g1) =>
          (fact, g1) :: elimination_trace fuel (eliminate fact g1)
      end
  end.

Definition get_delta (g : t) := delta g.
Definition get_edges (g : t) := edges g.
End with_queue.
Arguments t : clear implicits.
End VEGraph.

(** ** The linear program, as seen through [lp/lp_solver.h] *)

(** A bound of a variable or of a constraint: a number, or plus or minus
    the solver's infinity ([lp.get_infinity()] and its negation). *)
Inductive bound : Type :=
  | Finite (z : Z)
  | infinity
  | minus_infinity.

#[global] Instance bound_eq_dec : EqDecision bound.
Proof. solve_decision. Defined.

(** Modelled from the spec: [lp::LPVariable] of [lp/lp_solver.h], a
    variable with "lower bound, upper bound, objective coefficient,
    integer/continuous flag". *)
Record LPVariable : Type := mkLPVariable {
  lower_bound : bound;
  upper_bound : bound;
  objective_coefficient : Z;
  is_integer : bool;
}.

Definition set_lower_bound (b : bound) (v : LPVariable) : LPVariable :=
  mkLPVariable b (upper_bound v) (objective_coefficient v) (is_integer v).

(** Modelled from the spec: [lp::LPConstraint] of [lp/lp_solver.h], a
    constraint with "a lower bound, upper bound, and sparse coefficient
    row"; [insert] appends one term to the row. *)
Record LPConstraint : Type := mkLPConstraint {
  con_lower_bound : bound;
  con_upper_bound : bound;
  con_variables : list nat;
  con_coefficients : list Z;
}.

#[global] Instance LPConstraint_eq_dec : EqDecision LPConstraint.
Proof. solve_decision. Defined.

(** Modelled from the spec: the constructor of [lp::LPConstraint], which
    takes the two bounds and leaves the row empty. *)
Definition new_constraint (lower upper : bound) : LPConstraint :=
  mkLPConstraint lower upper [] [].

(** Modelled from the spec: [LPConstraint::insert], which appends one
    term to the sparse row. *)
Definition con_insert (index : nat) (coefficient : Z) (c : LPConstraint)
  : LPConstraint :=
  mkLPConstraint (con_lower_bound c) (con_upper_bound c)
                 (con_variables c ++ [index])
                 (con_coefficients c ++ [coefficient]).

Definition con_set_lower_bound (b : bound) (c : LPConstraint) : LPConstraint :=
  mkLPConstraint b (con_upper_bound c) (con_variables c) (con_coefficients c).
Definition con_set_upper_bound (b : bound) (c : LPConstraint) : LPConstraint :=
  mkLPConstraint (con_lower_bound c) b (con_variables c) (con_coefficients c).

(** [lp::LinearProgram]: the variables and the constraints that the
    constraint generators fill in. *)
Record LinearProgram : Type := mkLP {
  variables : list LPVariable;
  constraints : list LPConstraint;
}.

(** Modelled from the spec: [lp::LPSolver] of [lp/lp_solver.h], which holds
    the loaded program and "supports mutating an existing constraint's
    bounds in place". *)
Record LPSolver : Type := mkSolver { loaded : LinearProgram }.

(** Modelled from the spec: [LPSolver::set_constraint_lower_bound] and
    [LPSolver::set_constraint_upper_bound] change one bound of one row of
    the loaded program and nothing else. *)
Definition set_constraint_lower_bound (index : nat) (b : bound) (s : LPSolver)
  : LPSolver :=
  mkSolver (mkLP (variables (loaded s))
                 (alter (con_set_lower_bound b) index (constraints (loaded s)))).

Definition set_constraint_upper_bound (index : nat) (b : bound) (s : LPSolver)
  : LPSolver :=
  mkSolver (mkLP (variables (loaded s))
                 (alter (con_set_upper_bound b) index (constraints (loaded s)))).

(** ** Exceptions *)

(** [std::out_of_range], thrown by [at] on the two lookup tables. *)
Inductive Exn : Type :=
  | no_f_maps_to (key : nat * nat * nat)
  | no_edge (key : FactPair * FactPair).

Inductive Res (A : Type) : Type :=
  | Ok (a : A)
  | Throw (e : Exn).
Arguments Ok {A} a.
Arguments Throw {A} e.

#[global] Instance Res_ret : MRet Res := λ A a, Ok a.
#[global] Instance Res_bind : MBind Res := λ A B f m,
  match m with Ok a => f a | Throw e => Throw e end.
#[global] Instance Res_fmap : FMap Res := λ A B f m,
  match m with Ok a => Ok (f a) | Throw e => Throw e end.

(** Mapping over the result of a computation that may run out of
    iterations and may throw. *)
Notation "f <$$> m" := (fmap (M := option) (fmap (M := Res) f) m)
  (at level 61, left associativity, only parsing).

(** A loop whose body may throw and which threads a state. *)
Fixpoint foldlM {A B} (f : A → B → Res A) (a : A) (l : list B) : Res A :=
  match l with
  | [] => Ok a
  | b :: l => a' ← f a b; foldlM f a' l
  end.

(** A loop whose body may throw and which appends rows. *)
Fixpoint collectM {A B} (f : A → Res (list B)) (l : list A) : Res (list B) :=
  match l with
  | [] => Ok []
  | a :: l => bs ← f a; bs' ← collectM f l; Ok (bs ++ bs')
  end.

(** [unordered_map::emplace]: no effect when the key is present. *)
Definition emplace `{Countable K} {V} (k : K) (v : V) (m : gmap K V) : gmap K V :=
  match m !! k with
  | Some _ => m
  | None => <[k := v]> m
  end.

(** [v[i][j]] on a [vector<vector<int>>], read. *)
Definition lookup2 (table : list (list nat)) (f : FactPair) : nat :=
  default 0 (table !! var f ≫= (.!! value f)).

(** ** The constraint generator *)

(** Modelled from the spec: [plugins::Options], restricted to the two
    recognized options, [use_time_vars] and [use_integer_vars]. *)
Record Options : Type := mkOptions {
  opt_use_time_vars : bool;
  opt_use_integer_vars : bool;
}.

Record DeleteRelaxationConstraintsRR : Type := mkRR {
  use_time_vars : bool;
  use_integer_vars : bool;
  lp_var_id_f_defined : list (list nat);
  lp_con_id_f_defined : list (list nat);
  lp_var_id_f_maps_to : gmap (nat * nat * nat) nat;
  lp_var_id_edge : gmap (FactPair * FactPair) nat;
  last_state : list FactPair;
}.

(** The constructor: the two flags are read from the options, every table
    is default-constructed. *)
Definition new_DeleteRelaxationConstraintsRR (opts : Options)
  : DeleteRelaxationConstraintsRR :=
  mkRR (opt_use_time_vars opts) (opt_use_integer_vars opts) [] [] ∅ ∅ [].

Definition get_var_f_defined (gen : DeleteRelaxationConstraintsRR) (f : FactPair)
  : nat :=
  lookup2 (lp_var_id_f_defined gen) f.

Definition get_var_f_maps_to (gen : DeleteRelaxationConstraintsRR) (f : FactPair)
    (op_id : nat) : Res nat :=
  match lp_var_id_f_maps_to gen !! (var f, value f, op_id) with
  | Some id => Ok id
  | None => Throw (no_f_maps_to (var f, value f, op_id))
  end.

(** [lp_var_id_edge.at(edge)]. *)
Definition edge_at (gen : DeleteRelaxationConstraintsRR)
    (edge : FactPair * FactPair) : Res nat :=
  match lp_var_id_edge gen !! edge with
  | Some id => Ok id
  | None => Throw (no_edge edge)
  end.

Definition get_constraint_id (gen : DeleteRelaxationConstraintsRR) (f : FactPair)
  : nat :=
  lookup2 (lp_con_id_f_defined gen) f.

Definition add_lp_variables (count : nat) (variables : list LPVariable)
    (indices : list nat) (lower upper : bound) (objective : Z)
    (is_integer : bool) : list LPVariable * list nat :=
  foldl (λ '(variables, indices) _,
           (variables ++ [mkLPVariable lower upper objective is_integer],
            indices ++ [length variables]))
        (variables, indices) (seq 0 count).

(** Every (operator id, effect fact), in the order of the loops over the
    operators and their effects. *)
Definition op_effects (task : TaskProxy) : list (nat * FactPair) :=
  '(id, op) ← indexed_operators task;
  eff ← get_effects op;
  [(id, eff)].

Definition with_var_ids (gen : DeleteRelaxationConstraintsRR)
    (f_defined : list (list nat)) (f_maps_to : gmap (nat * nat * nat) nat)
    (edge : gmap (FactPair * FactPair) nat) : DeleteRelaxationConstraintsRR :=
  mkRR (use_time_vars gen) (use_integer_vars gen) f_defined
       (lp_con_id_f_defined gen) f_maps_to edge (last_state gen).

Definition with_con_ids (gen : DeleteRelaxationConstraintsRR)
    (ids : list (list nat)) : DeleteRelaxationConstraintsRR :=
  mkRR (use_time_vars gen) (use_integer_vars gen) (lp_var_id_f_defined gen)
       ids (lp_var_id_f_maps_to gen) (lp_var_id_edge gen) (last_state gen).

Definition with_last_state (gen : DeleteRelaxationConstraintsRR)
    (s : list FactPair) : DeleteRelaxationConstraintsRR :=
  mkRR (use_time_vars gen) (use_integer_vars gen) (lp_var_id_f_defined gen)
       (lp_con_id_f_defined gen) (lp_var_id_f_maps_to gen)
       (lp_var_id_edge gen) s.

Section generator.
Context {Q : Type} `{!PriorityQueue Q}.

(** The auxiliary variable of the generator: bounds 0 and 1, objective 0. *)
Definition aux_variable (gen : DeleteRelaxationConstraintsRR) : LPVariable :=
  mkLPVariable (Finite 0) (Finite 1) 0 (use_integer_vars gen).

(** The body of the loop that adds the f_p variables. *)
Definition add_f_defined (gen : DeleteRelaxationConstraintsRR)
    (acc : list (list nat) * list LPVariable) (x : nat * nat)
  : list (list nat) * list LPVariable :=
  let '(table, variables) := acc in
  let '(var_id, domain_size) := x in
  let '(variables, indices) :=
    add_lp_variables domain_size variables (default [] (table !! var_id))
                     (Finite 0) (Finite 1) 0 (use_integer_vars gen) in
  (<[var_id := indices]> table, variables).

(** The loop that adds the f_p variables. *)
Definition create_f_defined (gen : DeleteRelaxationConstraintsRR)
    (task : TaskProxy) (variables : list LPVariable)
  : list (list nat) * list LPVariable :=
  foldl (add_f_defined gen)
        (resize (length (get_variables task)) [] (lp_var_id_f_defined gen),
         variables)
        (imap pair (get_variables task)).

(** The body shared by the loops that add the f_{p,a} and the e_{i,j}
    variables: [emplace] the next column number under the key, then
    [emplace_back] the variable. *)
Definition add_aux_variable `{Countable K}
    (gen : DeleteRelaxationConstraintsRR)
    (acc : gmap K nat * list LPVariable) (key : K)
  : gmap K nat * list LPVariable :=
  (emplace key (length acc.2) acc.1, acc.2 ++ [aux_variable gen]).

(** The loop that adds the f_{p,a} variables. *)
Definition create_f_maps_to (gen : DeleteRelaxationConstraintsRR)
    (task : TaskProxy) (variables : list LPVariable)
  : gmap (nat * nat * nat) nat * list LPVariable :=
  foldl (add_aux_variable gen)
        (lp_var_id_f_maps_to gen, variables)
        ((λ '(op_id, eff), (var eff, value eff, op_id)) <$> op_effects task).

(** The loop that adds the e_{i,j} variables. *)
Definition create_edge_order (gen : DeleteRelaxationConstraintsRR)
    (ve_graph : VEGraph.t Q) (variables : list LPVariable)
  : gmap (FactPair * FactPair) nat * list LPVariable :=
  foldl (add_aux_variable gen)
        (lp_var_id_edge gen, variables)
        (elements (VEGraph.get_edges ve_graph)).

Definition create_auxiliary_variables (gen : DeleteRelaxationConstraintsRR)
    (task : TaskProxy) (variables : list LPVariable) (ve_graph : VEGraph.t Q)
  : DeleteRelaxationConstraintsRR * list LPVariable :=
  let '(f_defined, variables) := create_f_defined gen task variables in
  let '(f_maps_to, variables) := create_f_maps_to gen task variables in
  let '(edge, variables) := create_edge_order gen ve_graph variables in
  (with_var_ids gen f_defined f_maps_to edge, variables).

(** The body of the inner loop of constraint (2), first part: the row of
    one fact is appended and registered. *)
Definition constraint2_row (gen : DeleteRelaxationConstraintsRR)
    (var_id_p : nat) (acc : list (list nat) * list LPConstraint)
    (value_p : nat) : list (list nat) * list LPConstraint :=
  let '(table, constraints) := acc in
  let fact_p := Fact var_id_p value_p in
  let constraint :=
    con_insert (get_var_f_defined gen fact_p) 1
               (new_constraint (Finite 0) (Finite 0)) in
  (alter (<[value_p := length constraints]>) var_id_p table,
   constraints ++ [constraint]).

(** The body of the outer loop: the table row of the variable is resized,
    then the inner loop runs over its values. *)
Definition constraint2_var (gen : DeleteRelaxationConstraintsRR)
    (acc : list (list nat) * list LPConstraint) (x : nat * nat)
  : list (list nat) * list LPConstraint :=
  let '(table, constraints) := acc in
  let '(var_id_p, domain_size) := x in
  foldl (constraint2_row gen var_id_p)
        (alter (resize domain_size 0) var_id_p table, constraints)
        (seq 0 domain_size).

(** Constraint (2), first loop: one row [f_p = 0] per fact. *)
Definition constraint2_rows (gen : DeleteRelaxationConstraintsRR)
    (task : TaskProxy) (constraints : list LPConstraint)
  : list (list nat) * list LPConstraint :=
  foldl (constraint2_var gen)
        (resize (length (get_variables task)) [] (lp_con_id_f_defined gen),
         constraints)
        (imap pair (get_variables task)).

(** The body of the second loop of constraint (2). *)
Definition constraint2_term (gen : DeleteRelaxationConstraintsRR)
    (table : list (list nat)) (constraints : list LPConstraint)
    (x : nat * FactPair) : Res (list LPConstraint) :=
  let '(op_id, eff) := x in
  let constraint_id := lookup2 table eff in
  id ← get_var_f_maps_to gen eff op_id;
  Ok (alter (con_insert id (-1)) constraint_id constraints).

(** Constraint (2), second loop: the terms [- f_{p,a}]. *)
Definition constraint2_terms (gen : DeleteRelaxationConstraintsRR)
    (task : TaskProxy) (table : list (list nat))
    (constraints : list LPConstraint) : Res (list LPConstraint) :=
  foldlM (constraint2_term gen table) constraints (op_effects task).

(** Every (operator id, effect, precondition), in the order of the loops
    of constraint (3). *)
Definition op_eff_pre (task : TaskProxy) : list (nat * FactPair * FactPair) :=
  '(id, op) ← indexed_operators task;
  eff ← get_effects op;
  pre ← get_preconditions op;
  [(id, eff, pre)].

(** The body of the loops of constraint (3). *)
Definition constraint3_step (gen : DeleteRelaxationConstraintsRR)
    (acc : gmap (FactPair * FactPair) nat * list LPConstraint)
    (x : nat * FactPair * FactPair)
  : Res (gmap (FactPair * FactPair) nat * list LPConstraint) :=
  let '(constraint3_ids, constraints) := acc in
  let '(op_id, eff, pre) := x in
  if decide (pre = eff) then Ok (constraint3_ids, constraints)
  else
    let key := (pre, eff) in
    let '(constraint3_ids, constraints) :=
      match constraint3_ids !! key with
      | Some _ => (constraint3_ids, constraints)
      | None =>
          (<[key := length constraints]> constraint3_ids,
           constraints ++
             [con_insert (get_var_f_defined gen pre) 1
                         (new_constraint (Finite 0) (Finite 1))])
      end in
    let constraint_id := default 0 (constraint3_ids !! key) in
    id ← get_var_f_maps_to gen eff op_id;
    Ok (constraint3_ids,
        alter (con_insert id (-1)) constraint_id constraints).

(** Constraint (3). *)
Definition constraint3 (gen : DeleteRelaxationConstraintsRR)
    (task : TaskProxy) (constraints : list LPConstraint)
  : Res (list LPConstraint) :=
  snd <$> foldlM (constraint3_step gen) (∅, constraints) (op_eff_pre task).

(** Constraint (4): the lower bound of the goal facts' variables. *)
Definition constraint4 (gen : DeleteRelaxationConstraintsRR)
    (task : TaskProxy) (variables : list LPVariable) : list LPVariable :=
  foldl (λ variables goal,
           alter (set_lower_bound (Finite 1)) (get_var_f_defined gen goal)
                 variables)
        variables (get_goals task).

(** The body of the loops of constraint (5). *)
Definition constraint5_row (gen : DeleteRelaxationConstraintsRR)
    (x : nat * FactPair) : Res (list LPConstraint) :=
  let '(op_id, eff) := x in
  id ← get_var_f_maps_to gen eff op_id;
  Ok [con_insert op_id 1
        (con_insert id (-1) (new_constraint (Finite 0) infinity))].

(** Constraint (5). *)
Definition constraint5 (gen : DeleteRelaxationConstraintsRR)
    (task : TaskProxy) : Res (list LPConstraint) :=
  collectM (constraint5_row gen) (op_effects task).

(** Every (operator id, precondition, effect), in the order of the loops
    of constraint (6). *)
Definition op_pre_eff (task : TaskProxy) : list (nat * FactPair * FactPair) :=
  '(id, op) ← indexed_operators task;
  pre ← get_preconditions op;
  eff ← get_effects op;
  [(id, pre, eff)].

(** The body of the loops of constraint (6). *)
Definition constraint6_row (gen : DeleteRelaxationConstraintsRR)
    (x : nat * FactPair * FactPair) : Res (list LPConstraint) :=
  let '(op_id, pre, eff) := x in
  edge_id ← edge_at gen (pre, eff);
  id ← get_var_f_maps_to gen eff op_id;
  Ok [con_insert id (-1)
        (con_insert edge_id 1 (new_constraint (Finite 0) infinity))].

(** Constraint (6). *)
Definition constraint6 (gen : DeleteRelaxationConstraintsRR)
    (task : TaskProxy) : Res (list LPConstraint) :=
  collectM (constraint6_row gen) (op_pre_eff task).

(** The body of the loop of constraint (7), on one edge. *)
Definition constraint7_row (gen : DeleteRelaxationConstraintsRR)
    (edge : FactPair * FactPair) : Res (list LPConstraint) :=
  match lp_var_id_edge gen !! (edge.2, edge.1) with
  | None => Ok []
  | Some reverse_edge_id =>
      edge_id ← edge_at gen edge;
      Ok [con_insert reverse_edge_id 1
            (con_insert edge_id 1 (new_constraint minus_infinity (Finite 1)))]
  end.

(** Constraint (7). *)
Definition constraint7 (gen : DeleteRelaxationConstraintsRR)
    (ve_graph : VEGraph.t Q) : Res (list LPConstraint) :=
  collectM (constraint7_row gen) (elements (VEGraph.get_edges ve_graph)).

(** The body of the loop of constraint (8), on one delta triple. *)
Definition constraint8_row (gen : DeleteRelaxationConstraintsRR)
    (x : FactPair * FactPair * FactPair) : Res (list LPConstraint) :=
  let '(pi, pj, pk) := x in
  ij ← edge_at gen (pi, pj);
  jk ← edge_at gen (pj, pk);
  ik ← edge_at gen (pi, pk);
  Ok [con_insert ik (-1)
        (con_insert jk 1
           (con_insert ij 1 (new_constraint minus_infinity (Finite 1))))].

(** Constraint (8). *)
Definition constraint8 (gen : DeleteRelaxationConstraintsRR)
    (ve_graph : VEGraph.t Q) : Res (list LPConstraint) :=
  collectM (constraint8_row gen) (VEGraph.get_delta ve_graph).

Definition create_constraints (gen : DeleteRelaxationConstraintsRR)
    (task : TaskProxy) (lp : LinearProgram) (ve_graph : VEGraph.t Q)
  : Res (DeleteRelaxationConstraintsRR * LinearProgram) :=
  let '(table, constraints) := constraint2_rows gen task (constraints lp) in
  let gen := with_con_ids gen table in
  constraints ← constraint2_terms gen task table constraints;
  constraints ← constraint3 gen task constraints;
  let variables := constraint4 gen task (variables lp) in
  rows5 ← constraint5 gen task;
  rows6 ← constraint6 gen task;
  rows7 ← constraint7 gen ve_graph;
  rows8 ← constraint8 gen ve_graph;
  Ok (gen, mkLP variables (constraints ++ rows5 ++ rows6 ++ rows7 ++ rows8)).

(** [initialize_constraints]; [None] when the bound on the iterations of
    the elimination loop is hit. *)
Definition initialize_constraints (fuel : nat)
    (gen : DeleteRelaxationConstraintsRR) (task : TaskProxy)
    (lp : LinearProgram)
  : option (Res (DeleteRelaxationConstraintsRR * LinearProgram)) :=
  ve_graph ← VEGraph.make (Q := Q) fuel task;
  let '(gen, variables) :=
    create_auxiliary_variables gen task (variables lp) ve_graph in
  Some (create_constraints gen task (mkLP variables (constraints lp)) ve_graph).
End generator.

(** Modelled from the spec: [State], "the set of facts true in it", one
    value per variable. Iterating over it yields the fact of each variable
    in turn. *)
Definition State : Type := list nat.

Definition state_facts (state : State) : list FactPair := imap Fact state.

Definition unset_bounds (gen : DeleteRelaxationConstraintsRR)
    (lp_solver : LPSolver) (f : FactPair) : LPSolver :=
  let con_id := get_constraint_id gen f in
  set_constraint_upper_bound con_id (Finite 0)
    (set_constraint_lower_bound con_id (Finite 0) lp_solver).

Definition set_bounds (gen : DeleteRelaxationConstraintsRR)
    (acc : LPSolver * list FactPair) (f : FactPair) : LPSolver * list FactPair :=
  let con_id := get_constraint_id gen f in
  (set_constraint_upper_bound con_id (Finite 1)
     (set_constraint_lower_bound con_id (Finite 1) acc.1),
   acc.2 ++ [f]).

Definition update_constraints (gen : DeleteRelaxationConstraintsRR)
    (state : State) (lp_solver : LPSolver)
  : bool * DeleteRelaxationConstraintsRR * LPSolver :=
  let lp_solver := foldl (unset_bounds gen) lp_solver (last_state gen) in
  let '(lp_solver, last_state) :=
    foldl (set_bounds gen) (lp_solver, []) (state_facts state) in
  (false, with_last_state gen last_state, lp_solver).

(** ** A reference queue

    A list of entries, most recent first; [pop] extracts the most recently
    pushed entry among those of least key, which is what a bucket queue
    whose buckets are stacks does. *)
Module ListQueue.
Definition t : Type := list (nat * FactPair).

Fixpoint least_key (q : t) : option nat :=
  match q with
  | [] => None
  | (k, _) :: q => Some (from_option (Nat.min k) k (least_key q))
  end.

Fixpoint extract (k : nat) (q : t) : option (FactPair * t) :=
  match q with
  | [] => None
  | (k', f) :: q =>
      if decide (k' = k) then Some (f, q)
      else '(f', q') ← extract k q; Some (f', (k', f) :: q')
  end.

Definition pop (q : t) : option (nat * FactPair * t) :=
  k ← least_key q; '(f, q') ← extract k q; Some (k, f, q').
End ListQueue.

(** ** Small tasks used as test inputs *)

(** Two facts that achieve each other: one operator with precondition
    [A=0] and effect [B=0], one with precondition [B=0] and effect [A=0]. *)
Definition two_cycle_task : TaskProxy :=
  Task [1; 1]
       [Operator [Fact 0 0] [Fact 1 0]; Operator [Fact 1 0] [Fact 0 0]]
       [].

(** One operator whose effect is also one of its preconditions. *)
Definition self_achiever_task : TaskProxy :=
  Task [2] [Operator [Fact 0 1] [Fact 0 1]] [].

(** The end-to-end scenario: two boolean variables, one operator with
    precondition [A=0] and effect [B=1], goal [B=1]. *)
Definition one_edge_task : TaskProxy :=
  Task [2; 2] [Operator [Fact 0 0] [Fact 1 1]] [Fact 1 1].

Definition default_options : Options := mkOptions false false.

(** A program that holds one operator-counting variable. *)
Definition one_operator_lp : LinearProgram :=
  mkLP [mkLPVariable (Finite 0) infinity 1 false] [].

(** A generator and a solver as they are once a state was applied: the
    facts [A=0] and [B=1] of the previous state are registered with the
    rows 0 and 3, which are forced. *)
Definition applied_generator : DeleteRelaxationConstraintsRR :=
  mkRR false false [[1; 2]; [3; 4]] [[0; 1]; [2; 3]] ∅ ∅ [Fact 0 0; Fact 1 1].

Definition forced_row (b : Z) (column : nat) : LPConstraint :=
  mkLPConstraint (Finite b) (Finite b) [column] [1%Z].

Definition applied_solver : LPSolver :=
  mkSolver (mkLP [] [forced_row 1 1; forced_row 0 2;
                     forced_row 0 3; forced_row 1 4]).

(** * Properties

    The vocabulary of the statements proved below. *)

Section properties.
Context {Q : Type} `{!PriorityQueue Q}.
Implicit Types g : VEGraph.t Q.
Implicit Types gen : DeleteRelaxationConstraintsRR.

Local Abbreviation get_node := VEGraph.get_node.
Local Abbreviation update_node := VEGraph.update_node.
Local Abbreviation edges := VEGraph.edges.
Local Abbreviation delta := VEGraph.delta.
Local Abbreviation nodes := VEGraph.nodes.
Local Abbreviation queue := VEGraph.elimination_queue.

(** ** The graph *)

(** The adjacency lists hold no fact twice and only list pairs of the
    edge set. *)
Definition adjacency_ok g : Prop :=
  ∀ x,
    NoDup (successors (get_node g x)) ∧
    NoDup (predecessors (get_node g x)) ∧
    (∀ y, y ∈ successors (get_node g x) → (x, y) ∈ edges g) ∧
    (∀ y, y ∈ predecessors (get_node g x) → (y, x) ∈ edges g).

(** Two graphs with the same edges, the same delta and, node by node, the
    same lists and flags: they differ in keys and queue at most. *)
Definition same_structure g g' : Prop :=
  edges g' = edges g ∧ delta g' = delta g ∧
  ∀ x, predecessors (get_node g' x) = predecessors (get_node g x) ∧
       successors (get_node g' x) = successors (get_node g x) ∧
       is_eliminated (get_node g' x) = is_eliminated (get_node g x).

(** An edge that the task itself gives rise to: some operator has [p] as a
    precondition and [q], a different fact, as an effect. *)
Definition task_edge (task : TaskProxy) (p q : FactPair) : Prop :=
  ∃ op, op ∈ get_operators task ∧
        p ∈ get_preconditions op ∧ q ∈ get_effects op ∧ p ≠ q.

(** What holds of delta and of the edge set, given the calls of
    [eliminate] made so far: every triple [(i, j, k)] was recorded by a call
    on [j], on a graph that had the edges [(i, j)] and [(j, k)] but not
    [(i, k)]; its three edges are in the edge set and [j] is eliminated;
    and every edge comes from the task or has a triple. *)
Definition history_ok (task : TaskProxy) (tr : list (FactPair * VEGraph.t Q)) g
  : Prop :=
  (∀ i j k, (i, j, k) ∈ delta g →
     (i, j) ∈ edges g ∧ (j, k) ∈ edges g ∧ (i, k) ∈ edges g ∧
     is_eliminated (get_node g j) = true ∧
     ∃ g0, (j, g0) ∈ tr ∧
           (i, j) ∈ edges g0 ∧ (j, k) ∈ edges g0 ∧ (i, k) ∉ edges g0) ∧
  (∀ p q, (p, q) ∈ edges g → task_edge task p q ∨ ∃ v, (p, v, q) ∈ delta g).

(** The part of [eliminate] that changes the structure of the graph. *)
Definition eliminate_core (f : FactPair) g : VEGraph.t Q :=
  foldl VEGraph.add_shortcut (update_node f (set_is_eliminated true) g)
        (VEGraph.new_shortcuts g f).

(** The sizes of the rows of [nodes]. *)
Definition shape g : list nat := length <$> nodes g.

(** An entry whose key is not the key stored in the node of its fact. *)
Definition stale g (e : nat * FactPair) : Prop :=
  in_degree (get_node g e.2) ≠ e.1.

(** The facts of the graph that are not eliminated. *)
Definition active_facts g : nat :=
  length (filter (λ f, is_eliminated (get_node g f) = false)
                 (facts_of (shape g))).

(** The entries of the queue whose fact is eliminated. *)
Definition dead_entries g : nat :=
  length (filter (λ e : nat * FactPair,
                    is_eliminated (get_node g e.2) = true)
                 (pq_entries (queue g))).

(** A fact that is not eliminated has an entry with the key stored in its
    node. *)
Definition queue_ok g (x : FactPair) : Prop :=
  is_eliminated (get_node g x) = false →
  (in_degree (get_node g x), x) ∈ pq_entries (queue g).

(** The reading of C10 under which every fact is passed to [eliminate]
    exactly once. *)
Definition eliminated_exactly_once (fuel : nat) (task : TaskProxy) : Prop :=
  ∀ f, f ∈ all_facts task →
       length (filter (λ x, x = f)
                      (VEGraph.elimination_trace (Q := Q) fuel
                                                 (VEGraph.prepare task)).*1)
       = 1.

(** ** The model *)

(** The generator with its [use_time_vars] flag replaced. *)
Definition with_time_vars (b : bool) gen : DeleteRelaxationConstraintsRR :=
  mkRR b (use_integer_vars gen) (lp_var_id_f_defined gen)
       (lp_con_id_f_defined gen) (lp_var_id_f_maps_to gen)
       (lp_var_id_edge gen) (last_state gen).

(** The column of an edge, and the row that constraint (7) builds for an
    edge whose reverse edge has a column. *)
Definition edge_id gen (e : FactPair * FactPair) : nat :=
  default 0 (lp_var_id_edge gen !! e).

Definition row7 gen (e : FactPair * FactPair) : LPConstraint :=
  con_insert (edge_id gen (e.2, e.1)) 1
    (con_insert (edge_id gen e) 1 (new_constraint minus_infinity (Finite 1))).

(** A row over the two columns of the unordered pair [{i, j}], whichever
    comes first. *)
Definition on_pair gen (i j : FactPair) (c : LPConstraint) : Prop :=
  (list_to_set (con_variables c) : gset nat)
  = {[edge_id gen (i, j); edge_id gen (j, i)]}.

#[global] Instance on_pair_dec gen i j c : Decision (on_pair gen i j c).
Proof. unfold on_pair. apply _. Defined.

(** The reading of C4 under which an unordered pair gets one row. *)
Definition one_row_per_unordered_pair gen g (rows : list LPConstraint) : Prop :=
  ∀ i j, (i, j) ∈ VEGraph.edges g → (j, i) ∈ VEGraph.edges g →
         length (filter (on_pair gen i j) rows) = 1.


(** The row of constraint (2) of a fact, before its terms [- f_{p,a}] are
    added. *)
Definition row2 gen (f : FactPair) : LPConstraint :=
  con_insert (get_var_f_defined gen f) 1 (new_constraint (Finite 0) (Finite 0)).

(** A row with the same bounds and possibly more terms at the end. *)
Definition extends (c c' : LPConstraint) : Prop :=
  con_lower_bound c' = con_lower_bound c ∧
  con_upper_bound c' = con_upper_bound c ∧
  con_variables c `prefix_of` con_variables c' ∧
  con_coefficients c `prefix_of` con_coefficients c'.

(** Every row is still there, possibly with more terms. *)
Definition rows_extend (l l' : list LPConstraint) : Prop :=
  ∀ r c, l !! r = Some c → ∃ c', l' !! r = Some c' ∧ extends c c'.

(** ** The update *)

(** Both bounds of a row set to the same value. *)
Definition set_both (b : bound) (c : LPConstraint) : LPConstraint :=
  con_set_upper_bound b (con_set_lower_bound b c).

(** The rows registered for a list of facts. *)
Definition rows_of (gen : DeleteRelaxationConstraintsRR) (fs : list FactPair)
  : list nat :=
  get_constraint_id gen <$> fs.

(** The rows of the facts of the previous state are forced: both bounds
    are 1. This holds after [initialize_constraints], when [last_state] is
    empty, and [update_constraints] re-establishes it. *)
Definition synced (gen : DeleteRelaxationConstraintsRR) (lp_solver : LPSolver)
  : Prop :=
  ∀ f c, f ∈ last_state gen →
         constraints (loaded lp_solver) !! get_constraint_id gen f = Some c →
         con_lower_bound c = Finite 1 ∧ con_upper_bound c = Finite 1.

(** ** More about the graph *)

(** Every fact that an operator mentions is a fact of the task. *)
Definition operators_in_range (task : TaskProxy) : Prop :=
  Forall (λ op, Forall (λ f, f ∈ all_facts task)
                       (get_preconditions op ++ get_effects op))
         (get_operators task).

#[global] Instance operators_in_range_dec task :
  Decision (operators_in_range task).
Proof. unfold operators_in_range. apply _. Defined.

(** Every edge joins two nodes of the graph, and both adjacency lists
    show it. *)
Definition edges_listed g : Prop :=
  ∀ x y, (x, y) ∈ edges g →
    x ∈ facts_of (shape g) ∧ y ∈ facts_of (shape g) ∧
    y ∈ successors (get_node g x) ∧ x ∈ predecessors (get_node g y).

(** The edge that a shortcut [(from, _, to)] stands for. *)
Definition shortcut_edge (s : FactPair * FactPair * FactPair)
  : FactPair * FactPair :=
  (s.1.1, s.2).

(** The edge set is the set [E0] plus one edge per triple of delta, and no
    edge is counted twice. *)
Definition delta_exact (E0 : gset (FactPair * FactPair)) g : Prop :=
  edges g = E0 ∪ list_to_set (shortcut_edge <$> delta g) ∧
  NoDup (shortcut_edge <$> delta g) ∧
  ∀ e, e ∈ shortcut_edge <$> delta g → e ∉ E0.

(** Around an eliminated fact every shortcut is in place: each of its
    predecessors that is not eliminated has an edge to each of its
    successors that is not eliminated. *)
Definition shortcuts_closed g : Prop :=
  ∀ f p s,
    is_eliminated (get_node g f) = true →
    p ∈ predecessors (get_node g f) → s ∈ successors (get_node g f) →
    is_eliminated (get_node g p) = false →
    is_eliminated (get_node g s) = false →
    (p, s) ∈ edges g.

(** The key stored in a node that is not eliminated is the number of its
    predecessors that are not eliminated. *)
Definition key_ok g : Prop :=
  ∀ x, is_eliminated (get_node g x) = false →
       in_degree (get_node g x) = VEGraph.count_in_degree g (get_node g x).

(** The invariant of the structure of the graph. *)
Definition graph_inv (E0 : gset (FactPair * FactPair)) g : Prop :=
  adjacency_ok g ∧ edges_listed g ∧ delta_exact E0 g ∧ shortcuts_closed g.

(** What every iteration of the elimination loop keeps, for a task whose
    graph has the edges [E0]. *)
Definition loop_inv (task : TaskProxy) (E0 : gset (FactPair * FactPair)) g
  : Prop :=
  graph_inv E0 g ∧ key_ok g ∧ shape g = get_variables task ∧
  ∀ x, x ∈ all_facts task → queue_ok g x.

(** ** More about the model *)

(** Every column that the row mentions is below [N]. *)
Definition columns_in_range (N : nat) (c : LPConstraint) : Prop :=
  Forall (λ v, v < N) (con_variables c).

(** Every goal fact is a fact of the task. *)
Definition goals_in_range (task : TaskProxy) : Prop :=
  Forall (λ f, f ∈ all_facts task) (get_goals task).

#[global] Instance goals_in_range_dec task : Decision (goals_in_range task).
Proof. unfold goals_in_range. apply _. Defined.

(** The pairs (precondition, effect) for which constraint (3) looks for a
    row, in the order of the loops. *)
Definition constraint3_keys (task : TaskProxy) : list (FactPair * FactPair) :=
  (λ x : nat * FactPair * FactPair, (x.2, x.1.2))
    <$> filter (λ x : nat * FactPair * FactPair, x.2 ≠ x.1.2) (op_eff_pre task).

(** Every fact of the state is a fact of the task. *)
Definition state_in_range (task : TaskProxy) (state : State) : Prop :=
  Forall (λ f, f ∈ all_facts task) (state_facts state).

#[global] Instance state_in_range_dec task state :
  Decision (state_in_range task state).
Proof. unfold state_in_range. apply _. Defined.

(** A caller that calls [update_constraints] for one state after the
    other, on the generator and the solver that the previous call left. *)
Definition update_all (acc : DeleteRelaxationConstraintsRR * LPSolver)
    (states : list State) : DeleteRelaxationConstraintsRR * LPSolver :=
  foldl (λ acc state,
           let r := update_constraints acc.1 state acc.2 in (r.1.2, r.2))
        acc states.

(** The rows of constraint (2) say which facts hold in the state that was
    applied last: the row of a fact of the task has both bounds at 1 when
    the fact is in [last_state], and at 0 otherwise. *)
Definition tracked (task : TaskProxy) (acc : DeleteRelaxationConstraintsRR * LPSolver)
  : Prop :=
  Forall (λ f, f ∈ all_facts task) (last_state acc.1) ∧
  ∀ f, f ∈ all_facts task →
       ∃ c, constraints (loaded acc.2) !! get_constraint_id acc.1 f = Some c ∧
            con_lower_bound c
            = Finite (if decide (f ∈ last_state acc.1) then 1 else 0) ∧
            con_upper_bound c = con_lower_bound c.

(** The columns f_{p,a} of the operators that have the fact [p] as an
    effect, in the order of the loops over the operators and their
    effects. *)
Definition achiever_columns (gen : DeleteRelaxationConstraintsRR)
    (task : TaskProxy) (p : FactPair) : list nat :=
  omap (λ x : nat * FactPair,
          if decide (x.2 = p)
          then lp_var_id_f_maps_to gen !! (var x.2, value x.2, x.1)
          else None)
       (op_effects task).

(** The terms [- f_{p,a}] added to a row, one column after the other. *)
Definition with_achievers (ids : list nat) (c : LPConstraint) : LPConstraint :=
  foldl (λ c id, con_insert id (-1) c) c ids.

(** The row that constraint (3) opens for a pair (precondition, effect). *)
Definition row3 (gen : DeleteRelaxationConstraintsRR)
    (k : FactPair * FactPair) : LPConstraint :=
  con_insert (get_var_f_defined gen k.1) 1 (new_constraint (Finite 0) (Finite 1)).

(** The columns f_{p,a} of the operators in the list that have [k.1] as a
    precondition and a different fact [k.2] as an effect, in the order of
    the list. *)
Definition achiever_columns_under (gen : DeleteRelaxationConstraintsRR)
    (l : list (nat * FactPair * FactPair)) (k : FactPair * FactPair)
  : list nat :=
  omap (λ x : nat * FactPair * FactPair,
          if decide (x.2 ≠ x.1.2 ∧ (x.2, x.1.2) = k)
          then lp_var_id_f_maps_to gen !! (var x.1.2, value x.1.2, x.1.1)
          else None)
       l.

(** The column f_{p,a} of an effect and an operator, 0 when there is
    none. *)
Definition f_maps_to_id (gen : DeleteRelaxationConstraintsRR)
    (eff : FactPair) (op_id : nat) : nat :=
  default 0 (lp_var_id_f_maps_to gen !! (var eff, value eff, op_id)).

(** The rows that constraints (5), (6) and (8) build when their lookups
    succeed. *)
Definition row5 (gen : DeleteRelaxationConstraintsRR) (x : nat * FactPair)
  : LPConstraint :=
  con_insert x.1 1
    (con_insert (f_maps_to_id gen x.2 x.1) (-1)
       (new_constraint (Finite 0) infinity)).

Definition row6 (gen : DeleteRelaxationConstraintsRR)
    (x : nat * FactPair * FactPair) : LPConstraint :=
  con_insert (f_maps_to_id gen x.2 x.1.1) (-1)
    (con_insert (edge_id gen (x.1.2, x.2)) 1
       (new_constraint (Finite 0) infinity)).

Definition row8 (gen : DeleteRelaxationConstraintsRR)
    (x : FactPair * FactPair * FactPair) : LPConstraint :=
  con_insert (edge_id gen (x.1.1, x.2)) (-1)
    (con_insert (edge_id gen (x.1.2, x.2)) 1
       (con_insert (edge_id gen (x.1.1, x.1.2)) 1
          (new_constraint minus_infinity (Finite 1)))).

(** The keys under which the f_{p,a} columns are registered, in the order
    of the loops. *)
Definition f_maps_to_keys (task : TaskProxy) : list (nat * nat * nat) :=
  (λ '(op_id, eff), (var eff, value eff, op_id)) <$> op_effects task.

End properties.

(** * Verification *)

(** ** The reference queue is a priority queue *)

Lemma ListQueue_least_key_None (q : ListQueue.t) :
  ListQueue.least_key q = None ↔ q = [].
Proof. destruct q as [|[??]?]; naive_solver. Qed.

Lemma ListQueue_least_key_le q k :
  ListQueue.least_key q = Some k → ∀ k' f', (k', f') ∈ q → k ≤ k'.
Proof.
  revert k. induction q as [|[k0 f0] q IH]; intros k Hk k' f' Hin.
  - by apply elem_of_nil in Hin.
  - simpl in Hk. injection Hk as <-. apply elem_of_cons in Hin as [Heq|Hin].
    + injection Heq as -> ->. destruct (ListQueue.least_key q); simpl; lia.
    + destruct (ListQueue.least_key q) as [k1|] eqn:Hq; simpl.
      * specialize (IH k1 eq_refl k' f' Hin). lia.
      * apply ListQueue_least_key_None in Hq. subst q.
        by apply elem_of_nil in Hin.
Qed.

Lemma ListQueue_least_key_elem q k :
  ListQueue.least_key q = Some k → ∃ f, (k, f) ∈ q.
Proof.
  revert k. induction q as [|[k0 f0] q IH]; intros k Hk; [done|].
  simpl in Hk. injection Hk as <-.
  destruct (ListQueue.least_key q) as [k1|] eqn:Hq; simpl.
  - destruct (Nat.min_spec k0 k1) as [[_ ->]|[_ ->]].
    + exists f0. left.
    + destruct (IH k1 eq_refl) as [f Hf]. exists f. by right.
  - exists f0. left.
Qed.

Lemma ListQueue_extract_Some q k f q' :
  ListQueue.extract k q = Some (f, q') → q ≡ₚ (k, f) :: q'.
Proof.
  revert f q'. induction q as [|[k0 f0] q IH]; intros f q' Hx; [done|].
  simpl in Hx. destruct (decide (k0 = k)) as [->|Hne].
  - by injection Hx as -> ->.
  - destruct (ListQueue.extract k q) as [[f1 q1]|] eqn:Hq; [|done].
    simpl in Hx. injection Hx as -> <-.
    rewrite (IH _ _ eq_refl). apply Permutation_swap.
Qed.

Lemma ListQueue_extract_elem q k f :
  (k, f) ∈ q → is_Some (ListQueue.extract k q).
Proof.
  induction q as [|[k0 f0] q IH]; intros Hin.
  - by apply elem_of_nil in Hin.
  - simpl. destruct (decide (k0 = k)) as [->|Hne]; [by eexists|].
    apply elem_of_cons in Hin as [?|Hin]; [congruence|].
    destruct (IH Hin) as [[f1 q1] ->]. by eexists.
Qed.

#[global, refine] Instance ListQueue_queue : PriorityQueue ListQueue.t :=
  {| pq_new := [];
     pq_entries q := q;
     pq_push k f q := (k, f) :: q;
     pq_pop := ListQueue.pop |}.
Proof.
  - done.
  - done.
  - intros q. unfold ListQueue.pop. split.
    + destruct (ListQueue.least_key q) as [k|] eqn:Hk;
        [|by intros _; apply ListQueue_least_key_None].
      destruct (ListQueue_least_key_elem _ _ Hk) as [f Hf].
      destruct (ListQueue_extract_elem _ _ _ Hf) as [[f1 q1] Hx].
      simpl. rewrite Hx. done.
    + by intros ->.
  - intros q k f q'. unfold ListQueue.pop.
    destruct (ListQueue.least_key q) as [k0|] eqn:Hk; [simpl|done].
    destruct (ListQueue.extract k0 q) as [[f1 q1]|] eqn:Hx; [simpl|done].
    intros [= -> -> ->]. split.
    + by apply ListQueue_extract_Some.
    + by apply ListQueue_least_key_le.
Defined.

(** ** Reading and writing nodes *)

Section graph_facts.
Context {Q : Type} `{!PriorityQueue Q}.
Implicit Types g : VEGraph.t Q.
Implicit Types f u w x y : FactPair.

Local Abbreviation get_node := VEGraph.get_node.
Local Abbreviation update_node := VEGraph.update_node.
Local Abbreviation add_edge := VEGraph.add_edge.
Local Abbreviation edges := VEGraph.edges.
Local Abbreviation delta := VEGraph.delta.
Local Abbreviation nodes := VEGraph.nodes.
Local Abbreviation queue := VEGraph.elimination_queue.

Lemma get_node_update_node f h g x :
  get_node (update_node f h g) x =
  if decide (x = f)
  then from_option h new_node (nodes g !! var f ≫= (.!! value f))
  else get_node g x.
Proof.
  unfold VEGraph.get_node, VEGraph.update_node. simpl.
  destruct f as [fv fx], x as [xv xx]. simpl.
  destruct (decide (xv = fv)) as [->|Hv].
  - rewrite list_lookup_alter_eq.
    destruct (nodes g !! fv) as [row|] eqn:Hrow; simpl.
    + destruct (decide (xx = fx)) as [->|Hx].
      * rewrite decide_True by done. rewrite list_lookup_alter_eq.
        by destruct (row !! fx).
      * rewrite decide_False by congruence.
        by rewrite list_lookup_alter_ne.
    + case_decide as Heq; [|done]. by injection Heq as ->.
  - rewrite decide_False by congruence.
    by rewrite list_lookup_alter_ne.
Qed.

(** A write through [update_node] that keeps a field keeps it in every
    node of the graph. *)
Lemma get_node_update_node_field {A} (proj : Node → A) f h g x :
  (∀ n, proj (h n) = proj n) →
  proj (get_node (update_node f h g) x) = proj (get_node g x).
Proof.
  intros Hh. rewrite get_node_update_node.
  case_decide as Heq; [subst x|done].
  unfold VEGraph.get_node.
  destruct (nodes g !! var f ≫= (.!! value f)); simpl; [apply Hh|done].
Qed.

Lemma get_node_new_or_valid g f :
  get_node g f = new_node ∨
  nodes g !! var f ≫= (.!! value f) = Some (get_node g f).
Proof.
  unfold VEGraph.get_node. destruct (nodes g !! var f ≫= (.!! value f)); eauto.
Qed.

(** ** [add_edge] *)

Lemma add_edge_edges u w g : edges (add_edge u w g) = {[(u, w)]} ∪ edges g.
Proof.
  unfold VEGraph.add_edge. case_decide as Hin; [|done].
  apply set_eq. intros e. rewrite elem_of_union, elem_of_singleton.
  split; [by right|]. by intros [->|?].
Qed.

Lemma add_edge_delta u w g : delta (add_edge u w g) = delta g.
Proof. unfold VEGraph.add_edge. by case_decide. Qed.

Lemma add_edge_queue u w g : queue (add_edge u w g) = queue g.
Proof. unfold VEGraph.add_edge. by case_decide. Qed.

Lemma add_edge_is_eliminated u w g x :
  is_eliminated (get_node (add_edge u w g) x) = is_eliminated (get_node g x).
Proof.
  unfold VEGraph.add_edge. case_decide; [done|].
  change (get_node (VEGraph.set_edges ?e ?g') x) with (get_node g' x).
  by rewrite !(get_node_update_node_field is_eliminated).
Qed.

Lemma add_edge_in_degree u w g x :
  in_degree (get_node (add_edge u w g) x) = in_degree (get_node g x).
Proof.
  unfold VEGraph.add_edge. case_decide; [done|].
  change (get_node (VEGraph.set_edges ?e ?g') x) with (get_node g' x).
  by rewrite !(get_node_update_node_field in_degree).
Qed.

(** The successors of a node after [add_edge]: unchanged, or, when the
    edge is new and leaves the node, extended by the target. *)
Lemma add_edge_successors u w g x :
  successors (get_node (add_edge u w g) x) = successors (get_node g x) ∨
(((u, w) ∉ edges g) ∧ x = u ∧
   successors (get_node (add_edge u w g) x) = successors (get_node g x) ++ [w]).
Proof.
  unfold VEGraph.add_edge. case_decide as Hin; [by left|].
  change (get_node (VEGraph.set_edges ?e ?g') x) with (get_node g' x).
  rewrite (get_node_update_node_field successors) by done.
  rewrite get_node_update_node. case_decide as Hx; [subst x|by left].
  unfold VEGraph.get_node.
  destruct (nodes g !! var u ≫= (.!! value u)) as [n|]; simpl; [by right|by left].
Qed.

Lemma add_edge_predecessors u w g x :
  predecessors (get_node (add_edge u w g) x) = predecessors (get_node g x) ∨
  (((u, w) ∉ edges g) ∧ x = w ∧
   predecessors (get_node (add_edge u w g) x)
   = predecessors (get_node g x) ++ [u]).
Proof.
  unfold VEGraph.add_edge. case_decide as Hin; [by left|].
  change (get_node (VEGraph.set_edges ?e ?g') x) with (get_node g' x).
  rewrite get_node_update_node. case_decide as Hx; [subst x|].
  - destruct (nodes (update_node u (push_successor w) g) !! var w
                ≫= (.!! value w)) as [n|] eqn:Hn; simpl.
    + right. repeat split; try done.
      assert (get_node (update_node u (push_successor w) g) w = n) as <-
        by (unfold VEGraph.get_node; by rewrite Hn).
      by rewrite (get_node_update_node_field predecessors).
    + left.
      assert (get_node (update_node u (push_successor w) g) w = new_node) as Hw
        by (unfold VEGraph.get_node; by rewrite Hn).
      rewrite <-(get_node_update_node_field predecessors u (push_successor w) g w)
        by done.
      by rewrite Hw.
  - left. by rewrite (get_node_update_node_field predecessors).
Qed.

(** ** The adjacency lists and the edge set *)

Lemma add_edge_adjacency_ok u w g :
  adjacency_ok g → adjacency_ok (add_edge u w g).
Proof.
  intros Hg x. destruct (Hg x) as (Hs & Hp & Hse & Hpe).
  rewrite add_edge_edges. split; [|split; [|split]].
  - destruct (add_edge_successors u w g x) as [->|(Hnew & Hx & ->)]; [done|].
    apply NoDup_app. repeat split; [done| |apply NoDup_singleton].
    intros y Hy ->%list_elem_of_singleton. subst x. by apply Hnew, Hse.
  - destruct (add_edge_predecessors u w g x) as [->|(Hnew & Hx & ->)]; [done|].
    apply NoDup_app. repeat split; [done| |apply NoDup_singleton].
    intros y Hy ->%list_elem_of_singleton. subst x. by apply Hnew, Hpe.
  - intros y.
    destruct (add_edge_successors u w g x) as [->|(Hnew & Hx & ->)].
    + intros Hy. apply elem_of_union_r. by apply Hse.
    + intros [Hy| ->%list_elem_of_singleton]%elem_of_app.
      * apply elem_of_union_r. by apply Hse.
      * subst x. apply elem_of_union_l. by apply elem_of_singleton.
  - intros y.
    destruct (add_edge_predecessors u w g x) as [->|(Hnew & Hx & ->)].
    + intros Hy. apply elem_of_union_r. by apply Hpe.
    + intros [Hy| ->%list_elem_of_singleton]%elem_of_app.
      * apply elem_of_union_r. by apply Hpe.
      * subst x. apply elem_of_union_l. by apply elem_of_singleton.
Qed.

(** [add_edge] on a pair of the edge set changes nothing. *)
Lemma add_edge_existing u w g : (u, w) ∈ edges g → add_edge u w g = g.
Proof. intros Hin. unfold VEGraph.add_edge. by rewrite decide_True. Qed.

Lemma same_structure_refl g : same_structure g g.
Proof. by repeat split. Qed.

Lemma same_structure_trans g1 g2 g3 :
  same_structure g1 g2 → same_structure g2 g3 → same_structure g1 g3.
Proof.
  intros (He & Hd & Hn) (He' & Hd' & Hn').
  split; [congruence|]. split; [congruence|]. intros x.
  destruct (Hn x) as (E1 & E2 & E3), (Hn' x) as (E1' & E2' & E3').
  repeat split; congruence.
Qed.

Lemma same_structure_adjacency_ok g g' :
  same_structure g g' → adjacency_ok g → adjacency_ok g'.
Proof.
  intros (He & Hd & Hn) Hg x. destruct (Hn x) as (-> & -> & _).
  rewrite He. apply Hg.
Qed.

Lemma push_fact_same_structure f g : same_structure g (VEGraph.push_fact f g).
Proof.
  unfold VEGraph.push_fact.
  destruct (is_eliminated (get_node g f)); [apply same_structure_refl|].
  repeat split;
    change (get_node (VEGraph.set_queue ?q ?g') x) with (get_node g' x);
    by rewrite get_node_update_node_field.
Qed.

Lemma repush_successor_same_structure g f :
  same_structure g (VEGraph.repush_successor g f).
Proof.
  unfold VEGraph.repush_successor.
  destruct (is_eliminated (get_node g f));
    [apply same_structure_refl|apply push_fact_same_structure].
Qed.

Lemma foldl_same_structure {A} (step : VEGraph.t Q → A → VEGraph.t Q) l :
  (∀ g a, same_structure g (step g a)) →
  ∀ g, same_structure g (foldl step g l).
Proof.
  intros Hstep. induction l as [|a l IH]; intros g; simpl.
  - apply same_structure_refl.
  - eapply same_structure_trans; [apply Hstep|apply IH].
Qed.

(** [pop_fact] only pops entries: nodes, edges and delta are untouched. *)
Lemma pop_fact_loop_nodes n g :
  nodes (VEGraph.pop_fact_loop n g).2 = nodes g ∧
  edges (VEGraph.pop_fact_loop n g).2 = edges g ∧
  delta (VEGraph.pop_fact_loop n g).2 = delta g.
Proof.
  revert g. induction n as [|n IH]; intros g; simpl; [done|].
  destruct (pq_pop (queue g)) as [[[k f] q]|]; [|done].
  case_decide; [done|].
  destruct (IH (VEGraph.set_queue q g)) as (-> & -> & ->). done.
Qed.

Lemma pop_fact_get_node g x : get_node (VEGraph.pop_fact g).2 x = get_node g x.
Proof.
  unfold VEGraph.get_node, VEGraph.pop_fact.
  by destruct (pop_fact_loop_nodes (length (pq_entries (queue g))) g) as (-> & _).
Qed.

Lemma pop_fact_same_structure g : same_structure g (VEGraph.pop_fact g).2.
Proof.
  destruct (pop_fact_loop_nodes (length (pq_entries (queue g))) g)
    as (Hn & He & Hd).
  repeat split; try done; by rewrite pop_fact_get_node.
Qed.

(** ** What [eliminate] records *)

Lemma foldl_invariant {A B} (P : A → Prop) (R : B → Prop) (step : A → B → A) l a :
  P a → Forall R l → (∀ a b, P a → R b → P (step a b)) → P (foldl step a l).
Proof.
  intros Ha Hl Hstep. revert a Ha.
  induction Hl as [|b l Hb Hl IH]; intros a Ha; simpl; [done|].
  apply IH. by apply Hstep.
Qed.

Lemma same_structure_history_ok task tr g g' :
  same_structure g g' → history_ok task tr g → history_ok task tr g'.
Proof.
  intros (He & Hd & Hn) [H1 H2]. split.
  - intros i j k. rewrite Hd, He. destruct (Hn j) as (_ & _ & ->). apply H1.
  - intros p q. rewrite Hd, He. apply H2.
Qed.

Lemma new_shortcuts_elem g f i j k :
  (i, j, k) ∈ VEGraph.new_shortcuts g f →
  j = f ∧ i ∈ predecessors (get_node g f) ∧ k ∈ successors (get_node g f) ∧
  is_eliminated (get_node g i) = false ∧ is_eliminated (get_node g k) = false ∧
  (i, k) ∉ edges g.
Proof.
  unfold VEGraph.new_shortcuts.
  intros (p & Hin & Hp)%list_elem_of_bind.
  destruct (is_eliminated (get_node g p)) eqn:Ep;
    [by apply elem_of_nil in Hin|].
  apply list_elem_of_bind in Hin as (q & Hin & Hq).
  destruct (is_eliminated (get_node g q)) eqn:Eq;
    [by apply elem_of_nil in Hin|].
  case_decide as Hedge; [by apply elem_of_nil in Hin|].
  apply list_elem_of_singleton in Hin. injection Hin as -> -> ->. done.
Qed.

Lemma mark_eliminated_same f g x :
  edges (update_node f (set_is_eliminated true) g) = edges g ∧
  delta (update_node f (set_is_eliminated true) g) = delta g ∧
  queue (update_node f (set_is_eliminated true) g) = queue g ∧
  predecessors (get_node (update_node f (set_is_eliminated true) g) x)
  = predecessors (get_node g x) ∧
  successors (get_node (update_node f (set_is_eliminated true) g) x)
  = successors (get_node g x) ∧
  in_degree (get_node (update_node f (set_is_eliminated true) g) x)
  = in_degree (get_node g x).
Proof. by rewrite !get_node_update_node_field. Qed.

Lemma mark_eliminated_flag f g x :
  is_eliminated (get_node (update_node f (set_is_eliminated true) g) x) =
  if decide (x = f ∧ is_Some (nodes g !! var f ≫= (.!! value f)))
  then true else is_eliminated (get_node g x).
Proof.
  rewrite get_node_update_node. unfold VEGraph.get_node.
  destruct (decide (x = f)) as [->|Hne].
  - destruct (nodes g !! var f ≫= (.!! value f)) as [n|]; simpl.
    + by rewrite decide_True by eauto.
    + rewrite decide_False; [done|]. by intros [_ [??]].
  - rewrite decide_False; [done|]. by intros [? _].
Qed.

Lemma mark_eliminated_mono f g x :
  is_eliminated (get_node g x) = true →
  is_eliminated (get_node (update_node f (set_is_eliminated true) g) x) = true.
Proof. rewrite mark_eliminated_flag. by case_decide. Qed.

Lemma mark_eliminated_adjacency_ok f g :
  adjacency_ok g → adjacency_ok (update_node f (set_is_eliminated true) g).
Proof.
  intros Hg x.
  destruct (mark_eliminated_same f g x) as (-> & _ & _ & -> & -> & _).
  apply Hg.
Qed.

Lemma has_predecessor_valid g f i :
  i ∈ predecessors (get_node g f) →
  is_Some (nodes g !! var f ≫= (.!! value f)).
Proof.
  unfold VEGraph.get_node.
  destruct (nodes g !! var f ≫= (.!! value f)); [by eauto|].
  simpl. by intros ?%elem_of_nil.
Qed.

Lemma add_shortcut_edges g i j k :
  edges (VEGraph.add_shortcut g (i, j, k)) = {[(i, k)]} ∪ edges g ∧
  delta (VEGraph.add_shortcut g (i, j, k)) = delta g ++ [(i, j, k)] ∧
  queue (VEGraph.add_shortcut g (i, j, k)) = queue g ∧
  ∀ x, is_eliminated (get_node (VEGraph.add_shortcut g (i, j, k)) x)
       = is_eliminated (get_node g x) ∧
       in_degree (get_node (VEGraph.add_shortcut g (i, j, k)) x)
       = in_degree (get_node g x).
Proof.
  unfold VEGraph.add_shortcut. simpl.
  rewrite add_edge_edges, add_edge_delta, add_edge_queue.
  repeat split.
  - apply add_edge_is_eliminated.
  - apply add_edge_in_degree.
Qed.

Lemma add_shortcut_adjacency_ok g s :
  adjacency_ok g → adjacency_ok (VEGraph.add_shortcut g s).
Proof.
  destruct s as [[i j] k]. intros Hg. by apply add_edge_adjacency_ok.
Qed.

Lemma eliminate_same_structure f g :
  same_structure (eliminate_core f g) (VEGraph.eliminate f g).
Proof.
  unfold VEGraph.eliminate. apply foldl_same_structure.
  apply repush_successor_same_structure.
Qed.

Lemma eliminate_core_ok task tr f g :
  adjacency_ok g → history_ok task tr g →
  adjacency_ok (eliminate_core f g) ∧
  history_ok task (tr ++ [(f, g)]) (eliminate_core f g) ∧
  edges g ⊆ edges (eliminate_core f g).
Proof.
  intros Hadj [Hdelta Hedges]. unfold eliminate_core.
  set (g1 := update_node f (set_is_eliminated true) g).
  set (g2 := foldl VEGraph.add_shortcut g1 (VEGraph.new_shortcuts g f)).
  enough (adjacency_ok g2 ∧ history_ok task (tr ++ [(f, g)]) g2 ∧
          edges g ⊆ edges g2 ∧
          ∀ x, is_eliminated (get_node g2 x) = is_eliminated (get_node g1 x))
    as (? & ? & ? & _) by done.
  apply (foldl_invariant
           (λ g', adjacency_ok g' ∧ history_ok task (tr ++ [(f, g)]) g' ∧
                  edges g ⊆ edges g' ∧
                  ∀ x, is_eliminated (get_node g' x)
                       = is_eliminated (get_node g1 x))
           (λ s, ∃ i k, s = (i, f, k) ∧ i ∈ predecessors (get_node g f) ∧
                        k ∈ successors (get_node g f) ∧ (i, k) ∉ edges g))
    with (l := VEGraph.new_shortcuts g f) (a := g1); [| |].
  - destruct (mark_eliminated_same f g f) as (He & Hd & _). unfold g1.
    split; [by apply mark_eliminated_adjacency_ok|].
    split; [|by rewrite He]. split.
    + intros i j k. rewrite Hd, He. intros Hin.
      destruct (Hdelta i j k Hin) as (H1 & H2 & H3 & H4 & g0 & H5 & H6).
      repeat split; try done; [by apply mark_eliminated_mono|].
      exists g0. split; [|done]. apply elem_of_app. by left.
    + intros p q. rewrite Hd, He. apply Hedges.
  - apply Forall_forall. intros [[i j] k] Hin.
    apply new_shortcuts_elem in Hin as (-> & Hi & Hk & _ & _ & Hnew).
    by exists i, k.
  - intros g' s (Hadj' & [Hdelta' Hedges'] & Hsub & Hflags)
           (i & k & -> & Hi & Hk & Hnew).
    destruct (add_shortcut_edges g' i f k) as (He & Hd & _ & Hfl).
    split; [by apply add_shortcut_adjacency_ok|].
    split; [|split].
    + split.
      * intros a b c. rewrite Hd, He.
        destruct (Hfl b) as [-> _].
        intros [Hin|Hin%list_elem_of_singleton]%elem_of_app.
        -- destruct (Hdelta' a b c Hin) as (H1 & H2 & H3 & H4 & H5).
           repeat split; try done; by apply elem_of_union_r.
        -- injection Hin as -> -> ->.
           destruct (Hadj f) as (_ & _ & Hse & Hpe).
           split; [apply elem_of_union_r, Hsub; by apply Hpe|].
           split; [apply elem_of_union_r, Hsub; by apply Hse|].
           split; [apply elem_of_union_l; by apply elem_of_singleton|].
           split.
           ++ rewrite Hflags. unfold g1. rewrite mark_eliminated_flag.
              rewrite decide_True; [done|].
              split; [done|]. by eapply has_predecessor_valid.
           ++ exists g. split; [apply elem_of_app; right; by left|].
              split; [by apply Hpe|]. split; [by apply Hse|done].
      * intros p q. rewrite Hd, He.
        intros [Hin%elem_of_singleton|Hin]%elem_of_union.
        -- injection Hin as -> ->. right. exists f.
           apply elem_of_app. right. by left.
        -- destruct (Hedges' p q Hin) as [?|[v Hv]]; [by left|].
           right. exists v. apply elem_of_app. by left.
    + rewrite He. by apply union_subseteq_r'.
    + intros x. destruct (Hfl x) as [-> _]. apply Hflags.
Qed.

(** ** The graph before and after the elimination loop *)

Lemma get_node_fresh (task : TaskProxy) (g : VEGraph.t Q) x :
  get_node
    (VEGraph.set_nodes ((λ d, replicate d new_node) <$> get_variables task) g) x
  = new_node.
Proof.
  unfold VEGraph.get_node. simpl. rewrite list_lookup_fmap.
  destruct (get_variables task !! var x) as [d|]; simpl; [|done].
  destruct (replicate d new_node !! value x) as [n|] eqn:Hn; simpl; [|done].
  by apply lookup_replicate in Hn as [-> _].
Qed.

Lemma fresh_adjacency_ok (task : TaskProxy) (g : VEGraph.t Q) :
  edges g = ∅ →
  adjacency_ok
    (VEGraph.set_nodes ((λ d, replicate d new_node) <$> get_variables task) g).
Proof.
  intros Hg x. rewrite get_node_fresh. simpl.
  repeat split; try apply NoDup_nil_2; by intros y ?%elem_of_nil.
Qed.

Lemma construct_task_graph_ok task :
  adjacency_ok (VEGraph.construct_task_graph task VEGraph.new) ∧
  history_ok task [] (VEGraph.construct_task_graph task VEGraph.new).
Proof.
  unfold VEGraph.construct_task_graph.
  apply (foldl_invariant
           (λ g, adjacency_ok g ∧ history_ok task [] g)
           (λ '(pre, eff), task_edge task pre eff ∨ pre = eff)).
  - split.
    + by apply fresh_adjacency_ok.
    + split; simpl.
      * by intros i j k ?%elem_of_nil.
      * by intros p q ?%elem_of_empty.
  - apply Forall_forall. intros [pre eff].
    intros (op & Hin & Hop)%list_elem_of_bind.
    apply list_elem_of_bind in Hin as (p & Hin & Hp).
    apply list_elem_of_bind in Hin as (e & Hin & He).
    apply list_elem_of_singleton in Hin. injection Hin as -> ->.
    destruct (decide (p = e)) as [->|Hne]; [by right|].
    left. by exists op.
  - intros g [pre eff] [Hadj [Hdelta Hedges]] Hpair.
    case_decide as Hne; [|done].
    destruct Hpair as [Hpair|?]; [|done].
    split; [by apply add_edge_adjacency_ok|]. split.
    + intros i j k. rewrite add_edge_delta, add_edge_edges.
      rewrite add_edge_is_eliminated. intros Hin.
      destruct (Hdelta i j k Hin) as (H1 & H2 & H3 & H4 & H5).
      repeat split; try done; by apply elem_of_union_r.
    + intros p q. rewrite add_edge_delta, add_edge_edges.
      intros [Hin%elem_of_singleton|Hin]%elem_of_union.
      * injection Hin as -> ->. by left.
      * by apply Hedges.
Qed.

Lemma initialize_queue_same_structure task g :
  same_structure g (VEGraph.initialize_queue task g).
Proof.
  unfold VEGraph.initialize_queue.
  apply (foldl_same_structure (λ g f, VEGraph.push_fact f g)).
  intros g' f. apply push_fact_same_structure.
Qed.

Lemma prepare_ok task :
  adjacency_ok (VEGraph.prepare (Q := Q) task) ∧
  history_ok task [] (VEGraph.prepare (Q := Q) task).
Proof.
  destruct (construct_task_graph_ok task) as [Hadj Hhist].
  pose proof (initialize_queue_same_structure task
                (VEGraph.construct_task_graph task VEGraph.new)) as Hsame.
  split.
  - by apply (same_structure_adjacency_ok _ _ Hsame).
  - by apply (same_structure_history_ok _ _ _ _ Hsame).
Qed.

(** One iteration of the loop: [eliminate], on the graph that [pop_fact]
    left. *)
Lemma eliminate_ok task tr f g :
  adjacency_ok g → history_ok task tr g →
  adjacency_ok (VEGraph.eliminate f g) ∧
  history_ok task (tr ++ [(f, g)]) (VEGraph.eliminate f g) ∧
  edges g ⊆ edges (VEGraph.eliminate f g).
Proof.
  intros Hadj Hhist.
  destruct (eliminate_core_ok task tr f g Hadj Hhist) as (H1 & H2 & H3).
  pose proof (eliminate_same_structure f g) as Hsame.
  split; [by apply (same_structure_adjacency_ok _ _ Hsame)|].
  split; [by apply (same_structure_history_ok _ _ _ _ Hsame)|].
  destruct Hsame as (-> & _). done.
Qed.

Lemma eliminate_loop_ok task fuel :
  ∀ g tr g',
    adjacency_ok g → history_ok task tr g →
    VEGraph.eliminate_loop fuel g = Some g' →
    adjacency_ok g' ∧
    history_ok task (tr ++ VEGraph.elimination_trace fuel g) g' ∧
    edges g ⊆ edges g' ∧
    Forall (λ s, adjacency_ok s.2 ∧ edges s.2 ⊆ edges g')
           (VEGraph.elimination_trace fuel g).
Proof.
  induction fuel as [|fuel IH]; intros g tr g' Hadj Hhist Hloop; [done|].
  simpl in *.
  pose proof (pop_fact_same_structure g) as Hsame.
  destruct (VEGraph.pop_fact g) as [[f|] g1]; simpl in Hsame.
  - pose proof (same_structure_adjacency_ok _ _ Hsame Hadj) as Hadj1.
    pose proof (same_structure_history_ok _ _ _ _ Hsame Hhist) as Hhist1.
    destruct (eliminate_ok task tr f g1 Hadj1 Hhist1) as (H1 & H2 & H3).
    destruct (IH _ _ _ H1 H2 Hloop) as (H4 & H5 & H6 & H7).
    split; [done|]. split; [by rewrite <-app_assoc in H5|].
    destruct Hsame as (He & _). rewrite <-He.
    split; [by etrans|]. constructor; [|done]. simpl. split; [done|by etrans].
  - injection Hloop as <-.
    split; [by apply (same_structure_adjacency_ok _ _ Hsame)|].
    rewrite app_nil_r.
    split; [by apply (same_structure_history_ok _ _ _ _ Hsame)|].
    destruct Hsame as (-> & _). done.
Qed.

Lemma make_ok task fuel g :
  VEGraph.make fuel task = Some g →
  adjacency_ok g ∧
  history_ok task (VEGraph.elimination_trace fuel (VEGraph.prepare task)) g ∧
  Forall (λ s, adjacency_ok s.2 ∧ edges s.2 ⊆ edges g)
         (VEGraph.elimination_trace fuel (VEGraph.prepare task)).
Proof.
  intros Hmake. destruct (prepare_ok task) as [Hadj Hhist].
  destruct (eliminate_loop_ok task fuel _ [] g Hadj Hhist Hmake)
    as (H1 & H2 & _ & H3).
  done.
Qed.

(** ** The facts of a graph *)

Lemma elem_of_facts_of sizes f :
  f ∈ facts_of sizes ↔ ∃ d, sizes !! var f = Some d ∧ value f < d.
Proof.
  unfold facts_of. rewrite list_elem_of_bind. split.
  - intros ([v d] & Hf & Hl).
    apply list_elem_of_lookup in Hl as [i Hi].
    rewrite list_lookup_imap in Hi.
    destruct (sizes !! i) as [d'|] eqn:Hd; [|done].
    simpl in Hi. injection Hi as <- <-.
    apply list_elem_of_bind in Hf as (x & Hf & Hx).
    apply list_elem_of_singleton in Hf as ->.
    apply elem_of_seq in Hx. simpl. exists d'. split; [done|lia].
  - intros (d & Hd & Hlt). destruct f as [v x]. simpl in *.
    exists (v, d). split.
    + apply list_elem_of_bind. exists x. split; [by left|].
      apply elem_of_seq. lia.
    + apply list_elem_of_lookup. exists v.
      rewrite list_lookup_imap, Hd. done.
Qed.

(** A fact indexes a node of the graph exactly when it is a fact of the
    graph's shape. *)
Lemma valid_iff g f :
  is_Some (nodes g !! var f ≫= (.!! value f)) ↔ f ∈ facts_of (shape g).
Proof.
  rewrite elem_of_facts_of. unfold shape. rewrite list_lookup_fmap.
  destruct (nodes g !! var f) as [row|]; simpl.
  - rewrite lookup_lt_is_Some. split.
    + intros Hlt. by exists (length row).
    + by intros (d & [= <-] & Hlt).
  - split; [by intros [??]|by intros (? & ? & ?)].
Qed.

Lemma shape_update_node f h g : shape (update_node f h g) = shape g.
Proof.
  unfold shape, VEGraph.update_node. simpl. apply list_eq. intros i.
  rewrite !list_lookup_fmap. destruct (decide (i = var f)) as [->|Hne].
  - rewrite list_lookup_alter_eq. destruct (nodes g !! var f); simpl; [|done].
    by rewrite length_alter.
  - by rewrite list_lookup_alter_ne.
Qed.

Lemma shape_add_edge u w g : shape (add_edge u w g) = shape g.
Proof.
  unfold VEGraph.add_edge. case_decide; [done|].
  change (shape (VEGraph.set_edges ?e ?g')) with (shape g').
  by rewrite !shape_update_node.
Qed.

Lemma shape_add_shortcut g s : shape (VEGraph.add_shortcut g s) = shape g.
Proof. destruct s as [[i j] k]. apply shape_add_edge. Qed.

Lemma shape_push_fact f g : shape (VEGraph.push_fact f g) = shape g.
Proof.
  unfold VEGraph.push_fact. destruct (is_eliminated (get_node g f)); [done|].
  change (shape (VEGraph.set_queue ?e ?g')) with (shape g').
  apply shape_update_node.
Qed.

Lemma shape_repush_successor g f : shape (VEGraph.repush_successor g f) = shape g.
Proof.
  unfold VEGraph.repush_successor.
  destruct (is_eliminated (get_node g f)); [done|apply shape_push_fact].
Qed.

Lemma shape_foldl {A} (step : VEGraph.t Q → A → VEGraph.t Q) l :
  (∀ g a, shape (step g a) = shape g) →
  ∀ g, shape (foldl step g l) = shape g.
Proof.
  intros Hstep. induction l as [|a l IH]; intros g; simpl; [done|].
  by rewrite IH, Hstep.
Qed.

Lemma shape_eliminate f g : shape (VEGraph.eliminate f g) = shape g.
Proof.
  unfold VEGraph.eliminate.
  rewrite (shape_foldl _ _ shape_repush_successor).
  rewrite (shape_foldl _ _ shape_add_shortcut).
  apply shape_update_node.
Qed.

Lemma shape_pop_fact g : shape (VEGraph.pop_fact g).2 = shape g.
Proof.
  unfold shape, VEGraph.pop_fact.
  by destruct (pop_fact_loop_nodes (length (pq_entries (queue g))) g) as (-> & _).
Qed.

Lemma shape_prepare task : shape (VEGraph.prepare (Q := Q) task) = get_variables task.
Proof.
  unfold VEGraph.prepare, VEGraph.initialize_queue, VEGraph.construct_task_graph.
  rewrite (shape_foldl (λ g f, VEGraph.push_fact f g));
    [|intros; apply shape_push_fact].
  rewrite shape_foldl.
  - unfold shape. simpl. rewrite <-list_fmap_compose.
    apply list_eq. intros i. rewrite list_lookup_fmap.
    destruct (get_variables task !! i); simpl; [|done].
    by rewrite length_replicate.
  - intros g [pre eff]. case_decide; [apply shape_add_edge|done].
Qed.

Lemma shape_eliminate_loop fuel :
  ∀ g g', VEGraph.eliminate_loop fuel g = Some g' → shape g' = shape g.
Proof.
  induction fuel as [|fuel IH]; intros g g' Hloop; [done|].
  simpl in Hloop. pose proof (shape_pop_fact g) as Hpop.
  destruct (VEGraph.pop_fact g) as [[f|] g1]; simpl in Hpop.
  - rewrite (IH _ _ Hloop), shape_eliminate. done.
  - by injection Hloop as <-.
Qed.

Lemma shape_make fuel task g :
  VEGraph.make fuel task = Some g → shape g = get_variables task.
Proof.
  intros Hmake. rewrite (shape_eliminate_loop _ _ _ Hmake).
  apply shape_prepare.
Qed.

(** ** What [pop_fact] pops *)

(** [pop_fact] drops stale entries only; it returns the fact of the first
    entry that is not stale, or nothing once the queue is empty. *)
Lemma pop_fact_loop_spec n :
  ∀ g, length (pq_entries (queue g)) ≤ n →
    ∃ dropped, Forall (stale g) dropped ∧
      match VEGraph.pop_fact_loop n g with
      | (None, g1) =>
          pq_entries (queue g) ≡ₚ dropped ∧ pq_entries (queue g1) = []
      | (Some f, g1) =>
          pq_entries (queue g)
          ≡ₚ dropped ++ (in_degree (get_node g f), f) :: pq_entries (queue g1)
      end.
Proof.
  induction n as [|n IH]; intros g Hlen; simpl.
  - exists []. split; [constructor|].
    destruct (pq_entries (queue g)); [done|simpl in Hlen; lia].
  - destruct (pq_pop (queue g)) as [[[k f] q]|] eqn:Hpop.
    + destruct (pq_pop_Some _ _ _ _ Hpop) as [Hperm _].
      case_decide as Hkey.
      * exists []. split; [constructor|]. simpl.
        change (get_node (VEGraph.set_queue q g) f) with (get_node g f) in Hkey.
        by rewrite Hkey.
      * destruct (IH (VEGraph.set_queue q g)) as (dropped & Hst & Hres).
        { simpl. rewrite Hperm in Hlen. simpl in Hlen. lia. }
        exists ((k, f) :: dropped). split; [by constructor|].
        destruct (VEGraph.pop_fact_loop n (VEGraph.set_queue q g))
          as [[f'|] g1]; simpl in *.
        -- rewrite Hperm. by f_equiv.
        -- destruct Hres as [Hres ->]. split; [|done]. rewrite Hperm. by f_equiv.
    + apply pq_pop_None in Hpop. exists []. rewrite Hpop. by split.
Qed.

Lemma pop_fact_spec g :
  ∃ dropped, Forall (stale g) dropped ∧
    match VEGraph.pop_fact g with
    | (None, g1) =>
        pq_entries (queue g) ≡ₚ dropped ∧ pq_entries (queue g1) = []
    | (Some f, g1) =>
        pq_entries (queue g)
        ≡ₚ dropped ++ (in_degree (get_node g f), f) :: pq_entries (queue g1)
    end.
Proof. by apply pop_fact_loop_spec. Qed.

(** ** The measure of the elimination loop *)

Lemma active_facts_eq g g' :
  shape g' = shape g →
  (∀ x, is_eliminated (get_node g' x) = is_eliminated (get_node g x)) →
  active_facts g' = active_facts g.
Proof.
  intros Hs Hf. unfold active_facts. rewrite Hs. f_equal.
  apply list_filter_iff. intros x. by rewrite Hf.
Qed.

Lemma dead_entries_eq g g' l :
  (∀ x, is_eliminated (get_node g' x) = is_eliminated (get_node g x)) →
  pq_entries (queue g') ≡ₚ l →
  dead_entries g'
  = length (filter (λ e : nat * FactPair,
                      is_eliminated (get_node g e.2) = true) l).
Proof.
  intros Hf Hl. unfold dead_entries. rewrite Hl. f_equal.
  apply list_filter_iff. intros x. by rewrite Hf.
Qed.

Lemma length_filter_drop {A} (P P' : A → Prop)
    `{∀ z, Decision (P z), ∀ z, Decision (P' z)} (l : list A) (a : A) :
  (∀ z, P' z → P z) → a ∈ l → P a → ¬ P' a →
  length (filter P' l) < length (filter P l).
Proof.
  intros Himp Hin Ha Hna.
  induction l as [|b l IH]; [by apply elem_of_nil in Hin|].
  assert (length (filter P' l) ≤ length (filter P l)) as Hle.
  { clear -Himp. induction l as [|c l IHl]; [done|].
    rewrite !filter_cons.
    destruct (decide (P' c)) as [Hc|Hc].
    - rewrite decide_True by auto. simpl. lia.
    - destruct (decide (P c)); simpl; lia. }
  rewrite !filter_cons.
  apply elem_of_cons in Hin as [<-|Hin].
  - destruct (decide (P' a)); [done|]. destruct (decide (P a)); [|done].
    simpl. lia.
  - specialize (IH Hin).
    destruct (decide (P' b)) as [Hb|Hb].
    + rewrite decide_True by auto. simpl. lia.
    + destruct (decide (P b)); simpl; lia.
Qed.

(** ** What [eliminate] does to flags, keys and queue *)

Lemma invalid_get_node g f :
  ¬ is_Some (nodes g !! var f ≫= (.!! value f)) → get_node g f = new_node.
Proof.
  unfold VEGraph.get_node.
  destruct (nodes g !! var f ≫= (.!! value f)); [|done].
  intros []. by eexists.
Qed.

Lemma eliminate_core_fields f g :
  queue (eliminate_core f g) = queue g ∧
  ∀ x, is_eliminated (get_node (eliminate_core f g) x)
       = is_eliminated (get_node (update_node f (set_is_eliminated true) g) x) ∧
       in_degree (get_node (eliminate_core f g) x) = in_degree (get_node g x).
Proof.
  unfold eliminate_core.
  set (g1 := update_node f (set_is_eliminated true) g).
  apply (foldl_invariant
           (λ g', queue g' = queue g ∧
                  ∀ x, is_eliminated (get_node g' x)
                       = is_eliminated (get_node g1 x) ∧
                       in_degree (get_node g' x) = in_degree (get_node g x))
           (λ _, True)).
  - split; [done|]. intros x. split; [done|]. unfold g1.
    by rewrite (get_node_update_node_field in_degree).
  - by apply Forall_forall.
  - intros g' [[i j] k] [Hq Hx] _.
    destruct (add_shortcut_edges g' i j k) as (_ & _ & Hq' & Hfl).
    split; [congruence|]. intros x.
    destruct (Hfl x) as [-> ->]. apply Hx.
Qed.

Lemma push_fact_effects f g :
  (∀ x, is_eliminated (get_node (VEGraph.push_fact f g) x)
        = is_eliminated (get_node g x)) ∧
  (∃ pushed,
     pq_entries (queue (VEGraph.push_fact f g)) ≡ₚ pushed ++ pq_entries (queue g) ∧
     Forall (λ e : nat * FactPair, is_eliminated (get_node g e.2) = false)
            pushed) ∧
  (∀ x, x = f ∨ queue_ok g x → queue_ok (VEGraph.push_fact f g) x).
Proof.
  split; [intros x; by destruct (push_fact_same_structure f g) as (_ & _ & Hx);
          destruct (Hx x) as (_ & _ & ->)|].
  unfold VEGraph.push_fact.
  destruct (is_eliminated (get_node g f)) eqn:Hf.
  - split; [exists []; by split|].
    intros x [->|Hx]; [|done]. unfold queue_ok. congruence.
  - set (d := VEGraph.count_in_degree g (get_node g f)).
    set (g1 := update_node f (set_in_degree d) g).
    assert (in_degree (get_node g1 f) = d) as Hd.
    { unfold g1. rewrite get_node_update_node, decide_True by done.
      destruct (nodes g !! var f ≫= (.!! value f)) as [n|] eqn:Hn; [done|].
      simpl. unfold d. rewrite invalid_get_node; [done|].
      rewrite Hn. by intros [??]. }
    split.
    + exists [(d, f)]. split; [|by constructor].
      simpl. apply pq_push_entries.
    + intros x Hx. unfold queue_ok. simpl.
      change (get_node (VEGraph.set_queue ?q ?g') x) with (get_node g' x).
      rewrite pq_push_entries. intros Hfl.
      destruct (decide (x = f)) as [->|Hne].
      * rewrite Hd. by left.
      * destruct Hx as [?|Hx]; [done|]. right.
        unfold g1 in *. rewrite get_node_update_node in *.
        rewrite decide_False in * by done. by apply Hx.
Qed.

Lemma repush_successor_effects g f :
  (∀ x, is_eliminated (get_node (VEGraph.repush_successor g f) x)
        = is_eliminated (get_node g x)) ∧
  (∃ pushed,
     pq_entries (queue (VEGraph.repush_successor g f))
     ≡ₚ pushed ++ pq_entries (queue g) ∧
     Forall (λ e : nat * FactPair, is_eliminated (get_node g e.2) = false)
            pushed) ∧
  (∀ x, queue_ok g x → queue_ok (VEGraph.repush_successor g f) x).
Proof.
  unfold VEGraph.repush_successor.
  destruct (is_eliminated (get_node g f)).
  - split; [done|]. split; [exists []; by split|done].
  - destruct (push_fact_effects f g) as (H1 & H2 & H3).
    split; [done|]. split; [done|]. intros x Hx. apply H3. by right.
Qed.

Lemma foldl_repush_effects l :
  ∀ g,
    (∀ x, is_eliminated (get_node (foldl VEGraph.repush_successor g l) x)
          = is_eliminated (get_node g x)) ∧
    (∃ pushed,
       pq_entries (queue (foldl VEGraph.repush_successor g l))
       ≡ₚ pushed ++ pq_entries (queue g) ∧
       Forall (λ e : nat * FactPair, is_eliminated (get_node g e.2) = false)
              pushed) ∧
    (∀ x, queue_ok g x → queue_ok (foldl VEGraph.repush_successor g l) x).
Proof.
  induction l as [|a l IH]; intros g; simpl.
  - split; [done|]. split; [exists []; by split|done].
  - destruct (repush_successor_effects g a) as (H1 & (p1 & Hp1 & Hf1) & H3).
    destruct (IH (VEGraph.repush_successor g a)) as (H1' & (p2 & Hp2 & Hf2) & H3').
    split; [intros x; by rewrite H1'|]. split.
    + exists (p2 ++ p1). split.
      * rewrite Hp2, Hp1. by rewrite app_assoc.
      * apply Forall_app. split; [|done].
        eapply Forall_impl; [exact Hf2|]. intros e. simpl. by rewrite H1.
    + intros x Hx. by apply H3', H3.
Qed.

Lemma eliminate_effects f g :
  (∀ x, is_eliminated (get_node (VEGraph.eliminate f g) x)
        = if decide (x = f ∧ is_Some (nodes g !! var f ≫= (.!! value f)))
          then true else is_eliminated (get_node g x)) ∧
  (∃ pushed,
     pq_entries (queue (VEGraph.eliminate f g)) ≡ₚ pushed ++ pq_entries (queue g) ∧
     Forall (λ e : nat * FactPair,
               is_eliminated (get_node (VEGraph.eliminate f g) e.2) = false)
            pushed) ∧
  (∀ x, x ≠ f → queue_ok g x → queue_ok (VEGraph.eliminate f g) x).
Proof.
  destruct (eliminate_core_fields f g) as (Hq & Hfields).
  change (VEGraph.eliminate f g)
    with (foldl VEGraph.repush_successor (eliminate_core f g)
                (successors (get_node (eliminate_core f g) f))).
  destruct (foldl_repush_effects (successors (get_node (eliminate_core f g) f))
                                 (eliminate_core f g))
    as (H1 & (pushed & Hp & Hf) & H3).
  split; [|split].
  - intros x. rewrite H1. destruct (Hfields x) as [-> _].
    apply mark_eliminated_flag.
  - exists pushed. rewrite Hp, Hq. split; [done|].
    eapply Forall_impl; [exact Hf|]. intros e. simpl. by rewrite H1.
  - intros x Hne Hx. apply H3. unfold queue_ok.
    destruct (Hfields x) as [-> ->]. rewrite Hq.
    rewrite mark_eliminated_flag, decide_False by (by intros [? _]). done.
Qed.

(** [eliminate] on a fact that indexes no node changes nothing but the
    flag-free part of an absent node: it pushes no entry. *)
Lemma eliminate_invalid_queue f g :
  ¬ is_Some (nodes g !! var f ≫= (.!! value f)) →
  queue (VEGraph.eliminate f g) = queue g.
Proof.
  intros Hinv.
  change (VEGraph.eliminate f g)
    with (foldl VEGraph.repush_successor (eliminate_core f g)
                (successors (get_node (eliminate_core f g) f))).
  rewrite (invalid_get_node (eliminate_core f g) f).
  - simpl. apply eliminate_core_fields.
  - rewrite valid_iff. unfold eliminate_core.
    rewrite (shape_foldl _ _ shape_add_shortcut), shape_update_node.
    by rewrite <-valid_iff.
Qed.

(** ** Termination *)

Lemma filter_dead_pushed g (pushed : list (nat * FactPair)) :
  Forall (λ e : nat * FactPair, is_eliminated (get_node g e.2) = false) pushed →
  filter (λ e : nat * FactPair, is_eliminated (get_node g e.2) = true) pushed = [].
Proof.
  induction 1 as [|e l He Hl IH]; [done|].
  rewrite filter_cons, decide_False by congruence. done.
Qed.

(** One iteration of the loop makes the triple (facts that are not
    eliminated, entries of eliminated facts, entries) smaller in the
    lexicographic order. *)
Lemma loop_step_measure g f g1 :
  VEGraph.pop_fact g = (Some f, g1) →
  active_facts (VEGraph.eliminate f g1) < active_facts g ∨
  (active_facts (VEGraph.eliminate f g1) = active_facts g ∧
   dead_entries (VEGraph.eliminate f g1) < dead_entries g) ∨
  (active_facts (VEGraph.eliminate f g1) = active_facts g ∧
   dead_entries (VEGraph.eliminate f g1) ≤ dead_entries g ∧
   length (pq_entries (queue (VEGraph.eliminate f g1)))
   < length (pq_entries (queue g))).
Proof.
  intros Hpop.
  destruct (pop_fact_spec g) as (dropped & _ & Hperm).
  pose proof (shape_pop_fact g) as Hshape.
  pose proof (pop_fact_get_node g) as Hnode.
  rewrite Hpop in Hperm, Hshape, Hnode. simpl in Hshape, Hnode.
  destruct (eliminate_effects f g1) as (Hflag & (pushed & Hpushed & Hnd) & _).
  set (g' := VEGraph.eliminate f g1) in *.
  assert (shape g' = shape g) as Hshape'
    by (unfold g'; by rewrite shape_eliminate).
  destruct (decide (is_Some (nodes g1 !! var f ≫= (.!! value f))))
    as [Hvalid|Hinvalid].
  - destruct (is_eliminated (get_node g1 f)) eqn:Hf.
    + right. left.
      assert (∀ x, is_eliminated (get_node g' x) = is_eliminated (get_node g x))
        as Hsame.
      { intros x. rewrite Hflag, <-Hnode. case_decide as Hx; [|done].
        destruct Hx as [-> _]. done. }
      split; [by apply active_facts_eq|].
      rewrite (dead_entries_eq g g' _ Hsame Hpushed).
      unfold dead_entries. rewrite Hperm, !filter_app, !length_app.
      rewrite filter_dead_pushed.
      2:{ eapply Forall_impl; [exact Hnd|]. intros e. simpl. by rewrite Hsame. }
      rewrite filter_cons, decide_True by (simpl; by rewrite <-Hnode).
      simpl. lia.
    + left. unfold active_facts. rewrite Hshape'.
      apply (length_filter_drop _ _ _ f).
      * intros x. rewrite Hflag, <-Hnode. by case_decide.
      * rewrite <-Hshape. by apply valid_iff.
      * by rewrite <-Hnode.
      * rewrite Hflag, decide_True by done. done.
  - right. right.
    assert (∀ x, is_eliminated (get_node g' x) = is_eliminated (get_node g x))
      as Hsame.
    { intros x. rewrite Hflag, <-Hnode. rewrite decide_False; [done|].
      by intros [_ ?]. }
    split; [by apply active_facts_eq|].
    assert (pq_entries (queue g') = pq_entries (queue g1)) as Hq
      by (unfold g'; by rewrite eliminate_invalid_queue).
    split.
    + rewrite (dead_entries_eq g g' (pq_entries (queue g1)) Hsame)
        by (by rewrite Hq).
      unfold dead_entries. rewrite Hperm, filter_app, length_app, filter_cons.
      case_decide; simpl; lia.
    + rewrite Hq, Hperm, length_app. simpl. lia.
Qed.

Lemma eliminate_loop_terminates_aux :
  ∀ n e q g,
    active_facts g ≤ n → dead_entries g ≤ e →
    length (pq_entries (queue g)) ≤ q →
    ∃ fuel g', VEGraph.eliminate_loop fuel g = Some g'.
Proof.
  induction n as [n IHn] using lt_wf_ind. intros e.
  induction e as [e IHe] using lt_wf_ind. intros q.
  induction q as [q IHq] using lt_wf_ind. intros g Hn He Hq.
  destruct (VEGraph.pop_fact g) as [[f|] g1] eqn:Hpop.
  - assert (∃ fuel g', VEGraph.eliminate_loop fuel (VEGraph.eliminate f g1)
                       = Some g') as (fuel & g' & Hloop).
    { destruct (loop_step_measure g f g1 Hpop) as [H1|[[H1 H2]|(H1 & H2 & H3)]].
      - eapply (IHn (active_facts (VEGraph.eliminate f g1))); [lia|done..].
      - eapply (IHe (dead_entries (VEGraph.eliminate f g1))); [lia|lia|done..].
      - eapply (IHq (length (pq_entries (queue (VEGraph.eliminate f g1)))));
          [lia|lia|lia|done]. }
    exists (S fuel), g'. simpl. by rewrite Hpop.
  - exists 1, g1. simpl. by rewrite Hpop.
Qed.

Lemma eliminate_loop_terminates g :
  ∃ fuel g', VEGraph.eliminate_loop fuel g = Some g'.
Proof. by eapply eliminate_loop_terminates_aux. Qed.

(** More iterations than needed change nothing. *)
Lemma eliminate_loop_more_fuel fuel :
  ∀ g g' fuel',
    VEGraph.eliminate_loop fuel g = Some g' → fuel ≤ fuel' →
    VEGraph.eliminate_loop fuel' g = Some g' ∧
    VEGraph.elimination_trace fuel' g = VEGraph.elimination_trace fuel g.
Proof.
  induction fuel as [|fuel IH]; intros g g' fuel' Hloop Hle; [done|].
  destruct fuel' as [|fuel']; [lia|]. simpl in *.
  destruct (VEGraph.pop_fact g) as [[f|] g1]; [|done].
  destruct (IH _ _ fuel' Hloop) as [-> ->]; [lia|done].
Qed.

(** ** Every fact ends up eliminated *)

Lemma initialize_queue_queue_ok l :
  ∀ g (L : list FactPair),
    (∀ x, x ∈ L → queue_ok g x) →
    ∀ x, x ∈ l ++ L → queue_ok (foldl (λ g f, VEGraph.push_fact f g) g l) x.
Proof.
  induction l as [|a l IH]; intros g L HL x Hx; simpl; [by apply HL|].
  apply (IH (VEGraph.push_fact a g) (a :: L)).
  - intros y [->|Hy]%elem_of_cons.
    + apply push_fact_effects. by left.
    + apply push_fact_effects. right. by apply HL.
  - rewrite elem_of_app, elem_of_cons.
    apply elem_of_cons in Hx as [->|Hx]; [by right; left|].
    apply elem_of_app in Hx as [?|?]; [by left|by right; right].
Qed.

Lemma prepare_queue_ok task x :
  x ∈ all_facts task → queue_ok (VEGraph.prepare (Q := Q) task) x.
Proof.
  intros Hx. unfold VEGraph.prepare, VEGraph.initialize_queue.
  apply (initialize_queue_queue_ok _ _ []).
  - by intros y ?%elem_of_nil.
  - by rewrite app_nil_r.
Qed.

Lemma eliminate_loop_all_eliminated fuel :
  ∀ g g',
    (∀ x, x ∈ facts_of (shape g) → queue_ok g x) →
    VEGraph.eliminate_loop fuel g = Some g' →
    ∀ x, x ∈ facts_of (shape g) → is_eliminated (get_node g' x) = true.
Proof.
  induction fuel as [|fuel IH]; intros g g' Hok Hloop x Hx; [done|].
  simpl in Hloop.
  destruct (pop_fact_spec g) as (dropped & Hstale & Hperm).
  pose proof (shape_pop_fact g) as Hshape.
  pose proof (pop_fact_get_node g) as Hnode.
  destruct (VEGraph.pop_fact g) as [[f|] g1]; simpl in Hshape, Hnode.
  - assert (∀ y, y ∈ facts_of (shape g1) → y ≠ f → queue_ok g1 y) as Hok1.
    { intros y Hy Hne. unfold queue_ok. rewrite !Hnode. intros Hfl.
      rewrite Hshape in Hy. specialize (Hok y Hy Hfl).
      rewrite Hperm in Hok.
      apply elem_of_app in Hok as [Hin|Hin].
      - rewrite Forall_forall in Hstale. by destruct (Hstale _ Hin).
      - apply elem_of_cons in Hin as [[= _ ->]|Hin]; done. }
    destruct (eliminate_effects f g1) as (Hflag & _ & Hq).
    apply (IH (VEGraph.eliminate f g1) g'); [|done|].
    + rewrite shape_eliminate. intros y Hy.
      destruct (decide (y = f)) as [->|Hne]; [|by apply Hq, Hok1].
      unfold queue_ok. rewrite Hflag, decide_True; [done|].
      split; [done|]. by apply valid_iff.
    + by rewrite shape_eliminate, Hshape.
  - injection Hloop as <-. destruct Hperm as [Hperm Hempty].
    destruct (is_eliminated (get_node g1 x)) eqn:Hfl; [done|].
    rewrite Hnode in Hfl. specialize (Hok x Hx Hfl). rewrite Hperm in Hok.
    rewrite Forall_forall in Hstale. by destruct (Hstale _ Hok).
Qed.

(** A flag is only ever set by a call of [eliminate] on that fact. *)
Lemma eliminate_loop_flag_trace fuel :
  ∀ g g' x,
    VEGraph.eliminate_loop fuel g = Some g' →
    is_eliminated (get_node g' x) = true →
    is_eliminated (get_node g x) = true ∨
    x ∈ (VEGraph.elimination_trace fuel g).*1.
Proof.
  induction fuel as [|fuel IH]; intros g g' x Hloop Hx; [done|].
  simpl in *. pose proof (pop_fact_get_node g) as Hnode.
  destruct (VEGraph.pop_fact g) as [[f|] g1]; simpl in Hnode.
  - destruct (IH _ _ x Hloop Hx) as [Hfl|Hin].
    + destruct (eliminate_effects f g1) as (Hflag & _).
      rewrite Hflag in Hfl. case_decide as Hd.
      * right. destruct Hd as [-> _]. simpl. by left.
      * left. by rewrite <-Hnode.
    + right. simpl. by right.
  - injection Hloop as <-. left. by rewrite <-Hnode.
Qed.

Lemma prepare_not_eliminated task x :
  is_eliminated (get_node (VEGraph.prepare (Q := Q) task) x) = false.
Proof.
  destruct (initialize_queue_same_structure task
              (VEGraph.construct_task_graph task VEGraph.new)) as (_ & _ & Hn).
  unfold VEGraph.prepare. destruct (Hn x) as (_ & _ & ->).
  revert x. unfold VEGraph.construct_task_graph.
  apply (foldl_invariant
           (λ g, ∀ x, is_eliminated (get_node g x) = false) (λ _, True)).
  - intros x. by rewrite get_node_fresh.
  - by apply Forall_forall.
  - intros g [pre eff] Hg _ x. case_decide; [|done].
    by rewrite add_edge_is_eliminated.
Qed.

(** Every pair of a precondition and a different effect of an operator is
    an edge from the start, and no edge is ever removed. *)
Lemma construct_task_graph_edges task p q :
  task_edge task p q →
  (p, q) ∈ edges (VEGraph.construct_task_graph (Q := Q) task VEGraph.new).
Proof.
  intros (op & Hop & Hp & Hq & Hne). unfold VEGraph.construct_task_graph.
  assert ((p, q) ∈ (op ← get_operators task;
                    pre ← get_preconditions op;
                    eff ← get_effects op; [(pre, eff)])) as Hin.
  { apply list_elem_of_bind. exists op. split; [|done].
    apply list_elem_of_bind. exists p. split; [|done].
    apply list_elem_of_bind. exists q. split; [by left|done]. }
  revert Hin.
  generalize (VEGraph.set_nodes
                ((λ d, replicate d new_node) <$> get_variables task)
                (VEGraph.new (Q := Q))).
  induction (op ← get_operators task;
             pre ← get_preconditions op;
             eff ← get_effects op; [(pre, eff)]) as [|[a b] l IH];
    intros g0 Hin; [by apply elem_of_nil in Hin|].
  simpl. apply elem_of_cons in Hin as [[= <- <-]|Hin]; [|by apply IH].
  rewrite decide_True by done.
  assert (∀ l' g1, (p, q) ∈ edges g1 →
            (p, q) ∈ edges (foldl (λ g '(pre, eff),
                                     if decide (pre ≠ eff)
                                     then add_edge pre eff g else g) g1 l'))
    as Hkeep.
  { clear. induction l' as [|[a b] l' IH']; intros g1 Hg1; [done|].
    simpl. apply IH'. case_decide; [|done].
    rewrite add_edge_edges. by apply elem_of_union_r. }
  apply Hkeep. rewrite add_edge_edges.
  apply elem_of_union_l. by apply elem_of_singleton.
Qed.

Lemma make_task_edges task fuel g p q :
  VEGraph.make fuel task = Some g → task_edge task p q → (p, q) ∈ edges g.
Proof.
  intros Hmake Hpq. destruct (prepare_ok task) as [Hadj Hhist].
  destruct (eliminate_loop_ok task fuel _ [] g Hadj Hhist Hmake)
    as (_ & _ & Hsub & _).
  apply Hsub. unfold VEGraph.prepare.
  destruct (initialize_queue_same_structure task
              (VEGraph.construct_task_graph task VEGraph.new)) as (-> & _).
  by apply construct_task_graph_edges.
Qed.

End graph_facts.

(** ** The auxiliary variables *)

Section generator_facts.
Context {Q : Type} `{!PriorityQueue Q}.
Implicit Types g : VEGraph.t Q.
Implicit Types gen : DeleteRelaxationConstraintsRR.

Lemma lookup_emplace `{Countable K} {V} (k k' : K) (v : V) (m : gmap K V) :
  emplace k v m !! k' =
  match m !! k' with
  | Some x => Some x
  | None => if decide (k = k') then Some v else None
  end.
Proof.
  unfold emplace. destruct (m !! k) as [x|] eqn:Hk.
  - destruct (m !! k') eqn:Hk'; [done|]. case_decide; [congruence|done].
  - destruct (decide (k = k')) as [<-|Hne].
    + by rewrite lookup_insert_eq, Hk.
    + rewrite lookup_insert_ne by done. by destruct (m !! k').
Qed.

(** The loop that adds one auxiliary variable per key of a list: the
    variables are appended in order; a key that the table lacks gets the
    column of its first occurrence; a key that the table has keeps its
    column. *)
Lemma add_aux_variables_spec `{Countable K} gen (l : list K) :
  ∀ (ids : gmap K nat) (vars : list LPVariable),
    (foldl (add_aux_variable gen) (ids, vars) l).2
    = vars ++ replicate (length l) (aux_variable gen) ∧
    (∀ k id, ids !! k = Some id →
             (foldl (add_aux_variable gen) (ids, vars) l).1 !! k = Some id) ∧
    (∀ k, k ∈ l → is_Some ((foldl (add_aux_variable gen) (ids, vars) l).1 !! k)) ∧
    (∀ k id, (foldl (add_aux_variable gen) (ids, vars) l).1 !! k = Some id →
             ids !! k = Some id ∨ ∃ i, l !! i = Some k ∧ id = length vars + i) ∧
    (NoDup l → (∀ k, k ∈ l → ids !! k = None) →
     ∀ i k, l !! i = Some k →
            (foldl (add_aux_variable gen) (ids, vars) l).1 !! k
            = Some (length vars + i)).
Proof.
  induction l as [|a l IH]; intros ids vars; simpl.
  - rewrite app_nil_r. repeat split; try done.
    + by intros k ?%elem_of_nil.
    + by left.
  - unfold add_aux_variable at 2 4 6 8 10. simpl.
    destruct (IH (emplace a (length vars) ids) (vars ++ [aux_variable gen]))
      as (H1 & H2 & H3 & H4 & H5).
    rewrite length_app in H4, H5. simpl in H4, H5.
    split; [by rewrite H1, <-app_assoc|].
    assert (∀ k id, ids !! k = Some id →
                    emplace a (length vars) ids !! k = Some id) as Hkeep.
    { intros k id Hk. by rewrite lookup_emplace, Hk. }
    split; [intros k id Hk; by apply H2, Hkeep|].
    split; [|split].
    + intros k [->|Hk]%elem_of_cons; [|by apply H3].
      destruct (emplace a (length vars) ids !! a) as [id|] eqn:Ha.
      * exists id. by apply H2.
      * rewrite lookup_emplace, decide_True in Ha by done.
        by destruct (ids !! a).
    + intros k id Hk. destruct (H4 k id Hk) as [Hin|(i & Hi & ->)].
      * rewrite lookup_emplace in Hin.
        destruct (ids !! k) eqn:Hk'; [by left|].
        case_decide as Hd; [|done]. subst k. injection Hin as <-.
        right. exists 0. split; [done|lia].
      * right. exists (S i). split; [done|lia].
    + intros Hnd Hfresh i k Hi.
      apply NoDup_cons in Hnd as [Hna Hnd].
      destruct i as [|i]; simpl in Hi.
      * injection Hi as ->. apply H2.
        rewrite lookup_emplace, decide_True by done.
        rewrite Hfresh by left. f_equal. lia.
      * rewrite (H5 Hnd) with (i := i); [f_equal; lia| |done].
        intros k' Hk'. rewrite lookup_emplace, Hfresh by (by right).
        rewrite decide_False; [done|]. by intros ->.
Qed.

(** [add_lp_variables] appends [count] variables and their columns. *)
Lemma add_lp_variables_spec count :
  ∀ vars indices lower upper objective is_int,
    add_lp_variables count vars indices lower upper objective is_int
    = (vars ++ replicate count (mkLPVariable lower upper objective is_int),
       indices ++ seq (length vars) count).
Proof.
  unfold add_lp_variables. intros vars indices lower upper objective is_int.
  generalize 0 as start. revert vars indices.
  induction count as [|count IH]; intros vars indices start; simpl.
  - by rewrite !app_nil_r.
  - rewrite IH, length_app, <-!app_assoc. simpl.
    by rewrite Nat.add_1_r.
Qed.

Lemma facts_of_snoc sizes d :
  facts_of (sizes ++ [d])
  = facts_of sizes ++ (Fact (length sizes) <$> seq 0 d).
Proof.
  unfold facts_of. rewrite imap_app, bind_app. f_equal. simpl.
  rewrite Nat.add_0_r, app_nil_r.
  induction (seq 0 d) as [|x l IH]; [done|]. simpl. by f_equal.
Qed.

Lemma facts_of_var_lt sizes f : f ∈ facts_of sizes → var f < length sizes.
Proof.
  intros (d & Hd & _)%elem_of_facts_of. by eapply lookup_lt_Some.
Qed.

Lemma lookup2_insert_ne (table : list (list nat)) v row f :
  var f ≠ v → lookup2 (<[v := row]> table) f = lookup2 table f.
Proof. intros Hne. unfold lookup2. by rewrite list_lookup_insert_ne. Qed.

Lemma lookup2_insert_eq (table : list (list nat)) v row x :
  v < length table →
  lookup2 (<[v := row]> table) (Fact v x) = default 0 (row !! x).
Proof.
  intros Hlt. unfold lookup2. simpl. by rewrite list_lookup_insert_eq.
Qed.

(** The loop that adds the f_p variables, on a table of empty rows: one
    variable per fact, in the order of [facts_of], and the table maps every
    fact to its column. *)
Lemma add_f_defined_spec gen sizes :
  ∀ m vars,
    length sizes ≤ m →
    (foldl (add_f_defined gen) (replicate m [], vars) (imap pair sizes)).2
    = vars ++ replicate (length (facts_of sizes)) (aux_variable gen) ∧
    length (foldl (add_f_defined gen) (replicate m [], vars) (imap pair sizes)).1
    = m ∧
    (∀ v, length sizes ≤ v → v < m →
          (foldl (add_f_defined gen) (replicate m [], vars) (imap pair sizes)).1
            !! v = Some []) ∧
    (∀ i f, facts_of sizes !! i = Some f →
            lookup2 (foldl (add_f_defined gen) (replicate m [], vars)
                           (imap pair sizes)).1 f
            = length vars + i).
Proof.
  induction sizes as [|d sizes IH] using rev_ind; intros m vars Hm.
  - simpl. rewrite app_nil_r, length_replicate.
    repeat split; try done.
    intros v _ Hv. by apply lookup_replicate_2.
  - rewrite length_app in Hm. simpl in Hm.
    destruct (IH m vars) as (H1 & H2 & H3 & H4); [lia|].
    rewrite imap_app, foldl_app. simpl. rewrite Nat.add_0_r.
    destruct (foldl (add_f_defined gen) (replicate m [], vars) (imap pair sizes))
      as [table vars1]. simpl in *.
    rewrite add_lp_variables_spec, H3 by lia. simpl.
    rewrite facts_of_snoc, length_app, length_fmap, length_seq.
    split; [subst vars1; by rewrite replicate_add, app_assoc|].
    split; [by rewrite length_insert|].
    assert (length vars1 = length vars + length (facts_of sizes)) as Hlen
      by (subst vars1; by rewrite length_app, length_replicate).
    split.
    + intros v Hv Hvm. rewrite length_app in Hv. simpl in Hv.
      rewrite list_lookup_insert_ne by lia. apply H3; lia.
    + intros i f Hi.
      destruct (decide (i < length (facts_of sizes))) as [Hlt|Hge].
      * rewrite lookup_app_l in Hi by done.
        rewrite lookup2_insert_ne; [by apply H4|].
        apply list_elem_of_lookup_2, facts_of_var_lt in Hi. lia.
      * rewrite lookup_app_r in Hi by lia.
        apply list_lookup_fmap_Some in Hi as (x & -> & Hx).
        apply lookup_seq in Hx as [-> Hx]. simpl in *.
        rewrite lookup2_insert_eq by lia.
        rewrite lookup_seq_lt by done. simpl. lia.
Qed.

(** The facts of a list of domain sizes are pairwise different. *)
Lemma NoDup_facts_of sizes : NoDup (facts_of sizes).
Proof.
  induction sizes as [|d sizes IH] using rev_ind; [constructor|].
  rewrite facts_of_snoc. apply NoDup_app. split; [done|]. split.
  - intros f Hf (x & -> & _)%list_elem_of_fmap.
    apply facts_of_var_lt in Hf. simpl in Hf. lia.
  - apply NoDup_fmap_2; [|apply NoDup_seq]. by intros x y [= ->].
Qed.

(** [create_auxiliary_variables] on a generator fresh from the constructor:
    the variables appended, and the three tables. *)
Lemma create_auxiliary_variables_fresh opts task vars g :
  ∃ table fm em,
    create_auxiliary_variables (new_DeleteRelaxationConstraintsRR opts) task vars g
    = (mkRR (opt_use_time_vars opts) (opt_use_integer_vars opts) table [] fm em [],
       vars ++ replicate (length (all_facts task) + length (op_effects task)
                          + size (VEGraph.edges g))
                         (mkLPVariable (Finite 0) (Finite 1) 0
                                       (opt_use_integer_vars opts))) ∧
    (∀ i f, all_facts task !! i = Some f → lookup2 table f = length vars + i) ∧
    (∀ op_id eff, (op_id, eff) ∈ op_effects task →
       ∃ id, fm !! (var eff, value eff, op_id) = Some id ∧
             length vars + length (all_facts task) ≤ id ∧
             id < length vars + length (all_facts task)
                  + length (op_effects task)) ∧
    (∀ e id, em !! e = Some id ↔
             ∃ i, elements (VEGraph.edges g) !! i = Some e ∧
                  id = length vars + length (all_facts task)
                       + length (op_effects task) + i).
Proof.
  set (gen := new_DeleteRelaxationConstraintsRR opts).
  unfold create_auxiliary_variables.
  pose proof (add_f_defined_spec gen (get_variables task)
                (length (get_variables task)) vars (le_n _)) as (F1 & _ & _ & F4).
  unfold create_f_defined. simpl. rewrite resize_nil.
  destruct (foldl (add_f_defined gen) _ (imap pair (get_variables task)))
    as [table vars1]. simpl in F1, F4.
  unfold create_f_maps_to. simpl.
  pose proof (add_aux_variables_spec gen
                ((λ '(op_id, eff), (var eff, value eff, op_id)) <$> op_effects task)
                ∅ vars1) as (M1 & _ & M3 & M4 & _).
  destruct (foldl (add_aux_variable gen) (∅, vars1) _) as [fm vars2].
  simpl in M1, M3, M4. rewrite length_fmap in M1.
  unfold create_edge_order. simpl.
  pose proof (add_aux_variables_spec gen (elements (VEGraph.edges g))
                ∅ vars2) as (E1 & _ & _ & E4 & E5).
  unfold VEGraph.get_edges.
  destruct (foldl (add_aux_variable gen) (∅, vars2) _) as [em vars3].
  simpl in E1, E4, E5.
  assert (length vars1 = length vars + length (all_facts task)) as L1
    by (subst vars1; by rewrite length_app, length_replicate).
  assert (length vars2 = length vars + length (all_facts task)
                         + length (op_effects task)) as L2
    by (subst vars2; rewrite length_app, length_replicate; lia).
  exists table, fm, em. split; [|split; [|split]].
  - unfold with_var_ids. simpl. f_equal. subst vars3 vars2 vars1.
    rewrite !replicate_add, <-!app_assoc. reflexivity.
  - done.
  - intros op_id eff Hin.
    destruct (M3 (var eff, value eff, op_id)) as [id Hid].
    { apply list_elem_of_fmap. by exists (op_id, eff). }
    exists id. split; [done|].
    destruct (M4 _ _ Hid) as [?|(i & Hi & ->)]; [done|].
    apply lookup_lt_Some in Hi. rewrite length_fmap in Hi. lia.
  - intros e id. rewrite <-L2. split.
    + intros Hid. destruct (E4 _ _ Hid) as [?|?]; done.
    + intros (i & Hi & ->). apply E5; [apply NoDup_elements|done|done].
Qed.

End generator_facts.

(** ** The elimination loop: termination and outcome *)

Section elimination.
Context {Q : Type} `{!PriorityQueue Q}.

(** C10, amended: for every task the elimination loop of the constructor
    terminates (some number of iterations is enough, and more change
    nothing), and in the graph it returns every fact is eliminated, each
    one by at least one call of [eliminate]. [pop_fact] drops exactly the
    entries whose key differs from the key stored in the node, without
    touching nodes, edges or delta; the entry it returns carries the stored
    key of its fact. *)
Theorem elimination_loop_terminates (task : TaskProxy) :
  (∃ fuel g,
     VEGraph.make (Q := Q) fuel task = Some g ∧
     (∀ fuel', fuel ≤ fuel' → VEGraph.make fuel' task = Some g) ∧
     (∀ f, f ∈ all_facts task →
           is_eliminated (VEGraph.get_node g f) = true ∧
           f ∈ (VEGraph.elimination_trace fuel (VEGraph.prepare task)).*1)) ∧
  (∀ g0 : VEGraph.t Q,
     VEGraph.nodes (VEGraph.pop_fact g0).2 = VEGraph.nodes g0 ∧
     VEGraph.edges (VEGraph.pop_fact g0).2 = VEGraph.edges g0 ∧
     VEGraph.delta (VEGraph.pop_fact g0).2 = VEGraph.delta g0 ∧
     ∃ dropped, Forall (stale g0) dropped ∧
       match VEGraph.pop_fact g0 with
       | (None, g1) =>
           pq_entries (VEGraph.elimination_queue g0) ≡ₚ dropped ∧
           pq_entries (VEGraph.elimination_queue g1) = []
       | (Some f, g1) =>
           pq_entries (VEGraph.elimination_queue g0)
           ≡ₚ dropped ++ (in_degree (VEGraph.get_node g0 f), f)
                      :: pq_entries (VEGraph.elimination_queue g1)
       end).
Proof.
  split.
  - destruct (eliminate_loop_terminates (VEGraph.prepare (Q := Q) task))
      as (fuel & g & Hloop).
    exists fuel, g. split; [done|]. split.
    + intros fuel' Hle.
      by destruct (eliminate_loop_more_fuel fuel _ _ fuel' Hloop Hle).
    + intros f Hf.
      assert (is_eliminated (VEGraph.get_node g f) = true) as Hfl.
      { apply (eliminate_loop_all_eliminated fuel _ _) with (x := f) in Hloop;
          [done| |by rewrite shape_prepare].
        intros x Hx. apply prepare_queue_ok. by rewrite shape_prepare in Hx. }
      split; [done|].
      destruct (eliminate_loop_flag_trace fuel _ _ f Hloop Hfl) as [Hpre|?];
        [|done].
      by rewrite prepare_not_eliminated in Hpre.
  - intros g0.
    destruct (pop_fact_loop_nodes
                (length (pq_entries (VEGraph.elimination_queue g0))) g0)
      as (Hn & He & Hd).
    repeat split; try done. apply pop_fact_spec.
Qed.

(** C5: in the graph that the constructor returns, every edge comes from
    the task (an operator with the source among its preconditions and the
    target, a different fact, among its effects) or has a delta triple
    that a call of [eliminate] recorded for its middle fact, now
    eliminated, on a graph that held the two constituent edges; and the
    three edges of every delta triple are in the edge set, so that the
    three [edge_order] lookups of its constraint (8) succeed. *)
Theorem elimination_edges_justified (task : TaskProxy) (fuel : nat)
    (g : VEGraph.t Q) (opts : Options) (vars : list LPVariable) :
  VEGraph.make fuel task = Some g →
  (∀ p q, (p, q) ∈ VEGraph.edges g →
     task_edge task p q ∨
     ∃ v g0,
       (p, v, q) ∈ VEGraph.delta g ∧
       is_eliminated (VEGraph.get_node g v) = true ∧
       (v, g0) ∈ VEGraph.elimination_trace fuel (VEGraph.prepare task) ∧
       (p, v) ∈ VEGraph.edges g0 ∧ (v, q) ∈ VEGraph.edges g0) ∧
  (∀ i j k, (i, j, k) ∈ VEGraph.delta g →
     ((i, j) ∈ VEGraph.edges g ∧ (j, k) ∈ VEGraph.edges g ∧
      (i, k) ∈ VEGraph.edges g) ∧
     let gen := (create_auxiliary_variables
                   (new_DeleteRelaxationConstraintsRR opts) task vars g).1 in
     is_Some (lp_var_id_edge gen !! (i, j)) ∧
     is_Some (lp_var_id_edge gen !! (j, k)) ∧
     is_Some (lp_var_id_edge gen !! (i, k))).
Proof.
  intros Hmake. destruct (make_ok task fuel g Hmake) as (_ & [Hdelta Hedges] & _).
  split.
  - intros p q Hpq. destruct (Hedges p q Hpq) as [?|[v Hv]]; [by left|].
    right. destruct (Hdelta _ _ _ Hv) as (_ & _ & _ & Hfl & g0 & H1 & H2 & H3 & _).
    by exists v, g0.
  - intros i j k Hin.
    destruct (Hdelta _ _ _ Hin) as (H1 & H2 & H3 & _).
    split; [done|].
    destruct (create_auxiliary_variables_fresh opts task vars g)
      as (table & fm & em & -> & _ & _ & Hem). simpl.
    repeat split.
    + apply elem_of_elements, list_elem_of_lookup in H1 as [n Hn].
      eexists. apply Hem. by exists n.
    + apply elem_of_elements, list_elem_of_lookup in H2 as [n Hn].
      eexists. apply Hem. by exists n.
    + apply elem_of_elements, list_elem_of_lookup in H3 as [n Hn].
      eexists. apply Hem. by exists n.
Qed.

(** C9: [add_edge] on a pair of the edge set changes nothing. No
    adjacency list holds a fact twice and every listed pair is in the edge
    set: this holds of the graph when its nodes are created and is kept by
    every mutation that the code performs ([add_edge], [push_fact],
    [pop_fact], setting [is_eliminated], recording a shortcut), hence of
    the graph once the task's edges are added, of every graph on which the
    loop calls [eliminate] and of the graph returned, whose edge set is
    enumerated without duplicate. And the [edge_order] variables are the
    last columns created, one per edge: the table maps the edges
    one-to-one onto these columns. *)
Theorem edge_set_and_edge_order_variables (task : TaskProxy) (fuel : nat)
    (g : VEGraph.t Q) (opts : Options) (vars : list LPVariable) :
  VEGraph.make fuel task = Some g →
  (∀ (g0 : VEGraph.t Q) u w,
     (u, w) ∈ VEGraph.edges g0 → VEGraph.add_edge u w g0 = g0) ∧
  (adjacency_ok
     (VEGraph.set_nodes ((λ d, replicate d new_node) <$> get_variables task)
                        (VEGraph.new (Q := Q))) ∧
   ∀ g0 : VEGraph.t Q,
     adjacency_ok g0 →
     (∀ u w, adjacency_ok (VEGraph.add_edge u w g0)) ∧
     (∀ f, adjacency_ok (VEGraph.push_fact f g0)) ∧
     adjacency_ok (VEGraph.pop_fact g0).2 ∧
     (∀ f, adjacency_ok (VEGraph.update_node f (set_is_eliminated true) g0)) ∧
     (∀ s, adjacency_ok (VEGraph.add_shortcut g0 s))) ∧
  (adjacency_ok (VEGraph.construct_task_graph (Q := Q) task VEGraph.new) ∧
   Forall (λ s, adjacency_ok s.2)
          (VEGraph.elimination_trace fuel (VEGraph.prepare task)) ∧
   adjacency_ok g ∧ NoDup (elements (VEGraph.edges g))) ∧
  let r := create_auxiliary_variables
             (new_DeleteRelaxationConstraintsRR opts) task vars g in
  let base := length vars + length (all_facts task) + length (op_effects task) in
  length r.2 = base + size (VEGraph.edges g) ∧
  (∀ e, e ∈ VEGraph.edges g ↔ is_Some (lp_var_id_edge r.1 !! e)) ∧
  (∀ e id, lp_var_id_edge r.1 !! e = Some id →
           base ≤ id ∧ id < length r.2 ∧
           r.2 !! id = Some (aux_variable r.1)) ∧
  (∀ id, base ≤ id → id < length r.2 →
         ∃ e, lp_var_id_edge r.1 !! e = Some id) ∧
  (∀ e1 e2 id, lp_var_id_edge r.1 !! e1 = Some id →
               lp_var_id_edge r.1 !! e2 = Some id → e1 = e2).
Proof.
  intros Hmake. split; [intros g0 u w; apply add_edge_existing|].
  destruct (make_ok task fuel g Hmake) as (Hadj & _ & Htrace).
  split.
  { split; [by apply fresh_adjacency_ok|]. intros g0 Hg0.
    split; [intros u w; by apply add_edge_adjacency_ok|].
    split; [intros f; eapply same_structure_adjacency_ok;
            [apply push_fact_same_structure|done]|].
    split; [eapply same_structure_adjacency_ok;
            [apply pop_fact_same_structure|done]|].
    split; [intros f; by apply mark_eliminated_adjacency_ok|].
    intros s. by apply add_shortcut_adjacency_ok. }
  split.
  { split; [apply construct_task_graph_ok|]. split; [|split; [done|]].
    - eapply Forall_impl; [exact Htrace|]. by intros s [? _].
    - apply NoDup_elements. }
  destruct (create_auxiliary_variables_fresh opts task vars g)
    as (table & fm & em & -> & _ & _ & Hem). simpl.
  rewrite length_app, length_replicate.
  change (size (VEGraph.edges g)) with (length (elements (VEGraph.edges g))).
  split; [lia|]. split; [|split; [|split]].
  - intros e. rewrite <-elem_of_elements, list_elem_of_lookup. split.
    + intros [i Hi]. eexists. apply Hem. by exists i.
    + intros [id Hid]. apply Hem in Hid as (i & Hi & _). by exists i.
  - intros e id (i & Hi & ->)%Hem.
    apply lookup_lt_Some in Hi as Hlt.
    split; [lia|]. split; [lia|].
    rewrite lookup_app_r by lia. apply lookup_replicate_2. lia.
  - intros id Hge Hlt.
    destruct (lookup_lt_is_Some_2 (elements (VEGraph.edges g))
                (id - (length vars + length (all_facts task)
                       + length (op_effects task)))) as [e He]; [lia|].
    exists e. apply Hem. eexists. split; [done|lia].
  - intros e1 e2 id (i1 & Hi1 & ->)%Hem (i2 & Hi2 & Heq)%Hem.
    assert (i1 = i2) as -> by lia. congruence.
Qed.
End elimination.

(** C10, as stated, fails: on the task of two facts that achieve each
    other, with the reference queue, the loop terminates but the fact
    eliminated second is passed to [eliminate] twice. *)
Lemma two_cycle_fact_eliminated_twice :
  is_Some (VEGraph.make (Q := ListQueue.t) 10 two_cycle_task) ∧
  ¬ eliminated_exactly_once (Q := ListQueue.t) 10 two_cycle_task.
Proof.
  split; [eexists; vm_compute; reflexivity|].
  intros Honce. specialize (Honce (Fact 0 0)).
  assert (Fact 0 0 ∈ all_facts two_cycle_task) as Hin by (vm_compute; left).
  specialize (Honce Hin). vm_compute in Honce. discriminate.
Qed.

(** On the two facts that achieve each other: the edges of the one delta
    triple are in the edge set. *)
Lemma elimination_edges_justified_witness :
  ∃ g, VEGraph.make (Q := ListQueue.t) 10 two_cycle_task = Some g ∧
       ∀ i j k, (i, j, k) ∈ VEGraph.delta g →
                (i, j) ∈ VEGraph.edges g ∧ (j, k) ∈ VEGraph.edges g ∧
                (i, k) ∈ VEGraph.edges g.
Proof.
  eexists. split; [vm_compute; reflexivity|].
  intros i j k Hin.
  apply (elimination_edges_justified (Q := ListQueue.t) two_cycle_task 10 _
           default_options []); [vm_compute; reflexivity|exact Hin].
Defined.

(** On the two facts that achieve each other: the adjacency lists of the
    graph returned are in order. *)
Lemma edge_set_and_edge_order_variables_witness :
  ∃ g, VEGraph.make (Q := ListQueue.t) 10 two_cycle_task = Some g ∧
       adjacency_ok g.
Proof.
  eexists. split; [vm_compute; reflexivity|].
  apply (edge_set_and_edge_order_variables (Q := ListQueue.t) two_cycle_task 10 _
           default_options []). vm_compute; reflexivity.
Defined.

(** ** Building the model *)

Section construction.
Context {Q : Type} `{!PriorityQueue Q}.
Implicit Types g : VEGraph.t Q.
Implicit Types gen : DeleteRelaxationConstraintsRR.

Lemma create_auxiliary_variables_time_vars b gen task vars g :
  create_auxiliary_variables (with_time_vars b gen) task vars g
  = (with_time_vars b (create_auxiliary_variables gen task vars g).1,
     (create_auxiliary_variables gen task vars g).2).
Proof.
  unfold create_auxiliary_variables.
  change (create_f_defined (with_time_vars b gen)) with (create_f_defined gen).
  destruct (create_f_defined gen task vars) as [table vars1].
  change (create_f_maps_to (with_time_vars b gen)) with (create_f_maps_to gen).
  destruct (create_f_maps_to gen task vars1) as [fm vars2].
  change (create_edge_order (Q := Q) (with_time_vars b gen))
    with (create_edge_order (Q := Q) gen).
  by destruct (create_edge_order gen g vars2) as [em vars3].
Qed.

Lemma create_constraints_time_vars b gen task lp g :
  create_constraints (with_time_vars b gen) task lp g
  = (λ r, (with_time_vars b r.1, r.2)) <$> create_constraints gen task lp g.
Proof.
  unfold create_constraints.
  change (constraint2_rows (with_time_vars b gen)) with (constraint2_rows gen).
  destruct (constraint2_rows gen task (constraints lp)) as [table cs].
  change (with_con_ids (with_time_vars b gen) table)
    with (with_time_vars b (with_con_ids gen table)).
  set (gen2 := with_con_ids gen table).
  change (constraint2_terms (with_time_vars b gen2))
    with (constraint2_terms gen2).
  destruct (constraint2_terms gen2 task table cs) as [cs2|]; [simpl|done].
  change (constraint3 (with_time_vars b gen2)) with (constraint3 gen2).
  destruct (constraint3 gen2 task cs2) as [cs3|]; [simpl|done].
  change (constraint5 (with_time_vars b gen2)) with (constraint5 gen2).
  destruct (constraint5 gen2 task) as [rows5|]; [simpl|done].
  change (constraint6 (with_time_vars b gen2)) with (constraint6 gen2).
  destruct (constraint6 gen2 task) as [rows6|]; [simpl|done].
  change (constraint7 (Q := Q) (with_time_vars b gen2))
    with (constraint7 (Q := Q) gen2).
  destruct (constraint7 gen2 g) as [rows7|]; [simpl|done].
  change (constraint8 (Q := Q) (with_time_vars b gen2))
    with (constraint8 (Q := Q) gen2).
  destruct (constraint8 gen2 g) as [rows8|]; [simpl|done].
  done.
Qed.

(** C2, amended: with [use_time_vars] set, the construction completes
    exactly as without it: the same variables, the same constraints, the
    same tables, and the same exception if there is one; the flag is
    stored in the generator and read nowhere. *)
Theorem use_time_vars_is_ignored (fuel : nat) (use_integer : bool)
    (task : TaskProxy) (lp : LinearProgram) :
  initialize_constraints (Q := Q) fuel
    (new_DeleteRelaxationConstraintsRR (mkOptions true use_integer)) task lp
  = fmap (M := option)
      (fmap (M := Res) (λ r, (with_time_vars true r.1, r.2)))
      (initialize_constraints (Q := Q) fuel
         (new_DeleteRelaxationConstraintsRR (mkOptions false use_integer))
         task lp).
Proof.
  unfold initialize_constraints.
  destruct (VEGraph.make fuel task) as [g|]; [simpl|done].
  change (new_DeleteRelaxationConstraintsRR (mkOptions true use_integer))
    with (with_time_vars true
            (new_DeleteRelaxationConstraintsRR (mkOptions false use_integer))).
  rewrite create_auxiliary_variables_time_vars.
  destruct (create_auxiliary_variables _ task (variables lp) g) as [gen vars].
  simpl. by rewrite create_constraints_time_vars.
Qed.

(** ** Constraint (7) *)

Lemma collectM_Ok {A B} (f : A → Res (list B)) (h : A → list B) (l : list A) :
  (∀ a, a ∈ l → f a = Ok (h a)) → collectM f l = Ok (l ≫= h).
Proof.
  induction l as [|a l IH]; intros Hf; simpl; [done|].
  rewrite Hf by left. simpl. rewrite IH; [done|].
  intros b Hb. apply Hf. by right.
Qed.

Lemma length_filter_fmap {A B} (P : B → Prop) `{∀ b, Decision (P b)}
    (f : A → B) (l : list A) :
  length (filter P (f <$> l)) = length (filter (λ a, P (f a)) l).
Proof.
  induction l as [|a l IH]; [done|]. rewrite fmap_cons, !filter_cons.
  destruct (decide (P (f a))); simpl; by rewrite IH.
Qed.

Lemma filter_ext_elem {A} (P P' : A → Prop)
    `{∀ a, Decision (P a), ∀ a, Decision (P' a)} (l : list A) :
  (∀ a, a ∈ l → P a ↔ P' a) → filter P l = filter P' l.
Proof.
  induction l as [|a l IH]; intros Hl; [done|]. rewrite !filter_cons.
  rewrite IH by (intros b Hb; apply Hl; by right).
  pose proof (Hl a ltac:(left)) as Hiff.
  destruct (decide (P a)) as [Ha|Ha], (decide (P' a)) as [Ha'|Ha'];
    try done; by destruct Hiff; exfalso; auto.
Qed.

(** In a list without duplicates, the elements equal to one of two given
    elements of the list: one if the two are the same, else two. *)
Lemma length_filter_two {A} `{EqDecision A} (l : list A) (a b : A) :
  NoDup l → a ∈ l → b ∈ l →
  length (filter (λ z, z = a ∨ z = b) l) = if decide (a = b) then 1 else 2.
Proof.
  intros Hnd Ha Hb.
  assert (filter (λ z, z = a ∨ z = b) l
          ≡ₚ if decide (a = b) then [a] else [a; b]) as ->.
  { apply NoDup_Permutation.
    - by apply NoDup_filter.
    - case_decide; [apply NoDup_singleton|].
      apply NoDup_cons. split; [|apply NoDup_singleton].
      by intros ->%list_elem_of_singleton.
    - intros z. rewrite list_elem_of_filter. case_decide as Hab.
      + subst b. rewrite list_elem_of_singleton. split; [by intros [[?|?] _]|].
        intros ->. by split; [left|].
      + rewrite !elem_of_cons, elem_of_nil. split.
        * intros [[?|?] _]; [by left|by right; left].
        * intros [->|[->|[]]]; split; auto. }
  by case_decide.
Qed.

Lemma list_to_set_two (x y : nat) :
  (list_to_set [x; y] : gset nat) = {[x; y]} ∧
  (list_to_set [y; x] : gset nat) = {[x; y]}.
Proof.
  split; apply set_eq; intros z;
    rewrite elem_of_list_to_set, !elem_of_cons, elem_of_nil, elem_of_union,
            !elem_of_singleton; tauto.
Qed.

Lemma constraint7_rows gen (l : list (FactPair * FactPair)) :
  (∀ e, e ∈ l → is_Some (lp_var_id_edge gen !! e)) →
  collectM (constraint7_row gen) l
  = Ok (row7 gen <$>
        filter (λ e, is_Some (lp_var_id_edge gen !! (e.2, e.1))) l).
Proof.
  induction l as [|e l IH]; intros Hl; simpl; [done|].
  rewrite IH by (intros e' He'; apply Hl; by right).
  rewrite filter_cons. unfold constraint7_row at 1, edge_at.
  destruct (Hl e) as [id Hid]; [left|].
  destruct (lp_var_id_edge gen !! (e.2, e.1)) as [rid|] eqn:Hrid.
  - rewrite decide_True by eauto. rewrite Hid. simpl.
    unfold row7, edge_id. by rewrite Hid, Hrid.
  - rewrite decide_False; [done|]. by intros [??].
Qed.

(** C4, amended: constraint (7) has one row per directed edge [(i, j)]
    whose reverse edge [(j, i)] is in the final graph, in the order in
    which the edge set is enumerated, and none for an edge whose reverse
    edge is absent. An unordered pair of two different facts with both
    edges therefore has two rows, one built from each direction; a
    self-loop has one. *)
Theorem constraint7_one_row_per_directed_edge (opts : Options)
    (task : TaskProxy) (vars : list LPVariable) (g : VEGraph.t Q) :
  let gen := (create_auxiliary_variables
                (new_DeleteRelaxationConstraintsRR opts) task vars g).1 in
  let rows := row7 gen <$> filter (λ e, (e.2, e.1) ∈ VEGraph.edges g)
                                  (elements (VEGraph.edges g)) in
  constraint7 gen g = Ok rows ∧
  (∀ i j, (i, j) ∈ VEGraph.edges g → (j, i) ∈ VEGraph.edges g →
     length (filter (λ c, con_variables c
                          = [edge_id gen (i, j); edge_id gen (j, i)]) rows) = 1 ∧
     length (filter (on_pair gen i j) rows) = if decide (i = j) then 1 else 2) ∧
  (∀ i j, (i, j) ∈ VEGraph.edges g → (j, i) ∉ VEGraph.edges g →
     ∀ c, c ∈ rows → edge_id gen (i, j) ∉ con_variables c).
Proof.
  destruct (create_auxiliary_variables_fresh opts task vars g)
    as (table & fm & em & -> & _ & _ & Hem).
  cbn [fst].
  set (gen := mkRR _ _ table [] fm em []).
  set (base := length vars + length (all_facts task) + length (op_effects task))
    in Hem.
  assert (∀ e, e ∈ VEGraph.edges g ↔ is_Some (lp_var_id_edge gen !! e)) as Hdom.
  { intros e. rewrite <-elem_of_elements, list_elem_of_lookup. split.
    - intros [n Hn]. eexists. apply Hem. by exists n.
    - intros [id Hid]. apply Hem in Hid as (n & Hn & _). by exists n. }
  assert (∀ e1 e2, e1 ∈ VEGraph.edges g → e2 ∈ VEGraph.edges g →
                   edge_id gen e1 = edge_id gen e2 → e1 = e2) as Hinj.
  { intros e1 e2 [id1 H1]%Hdom [id2 H2]%Hdom. unfold edge_id.
    rewrite H1, H2. simpl. intros <-.
    apply Hem in H1 as (n1 & Hn1 & ->). apply Hem in H2 as (n2 & Hn2 & Heq).
    assert (n1 = n2) as -> by lia. congruence. }
  set (L := filter (λ e, (e.2, e.1) ∈ VEGraph.edges g)
                   (elements (VEGraph.edges g))).
  assert (NoDup L) as HL by (apply NoDup_filter, NoDup_elements).
  assert (∀ e, e ∈ L ↔ e ∈ VEGraph.edges g ∧ (e.2, e.1) ∈ VEGraph.edges g)
    as HinL.
  { intros e. unfold L. rewrite list_elem_of_filter, elem_of_elements.
    split; intros [? ?]; by split. }
  split; [|split].
  - unfold constraint7, VEGraph.get_edges. rewrite constraint7_rows.
    + f_equal. f_equal. apply filter_ext_elem. intros e _. symmetry. apply Hdom.
    + intros e He. apply Hdom. by apply elem_of_elements.
  - intros i j Hij Hji. split.
    + rewrite length_filter_fmap.
      rewrite (filter_ext_elem _ (λ e, e = (i, j) ∨ e = (i, j))).
      * rewrite length_filter_two; [by rewrite decide_True|done|..];
          by apply HinL.
      * intros [a b] [Hab Hba]%HinL. unfold row7. simpl. split.
        -- intros [= H1 _]. left. by apply Hinj.
        -- intros [[= -> ->]|[= -> ->]]; done.
    + rewrite length_filter_fmap.
      rewrite (filter_ext_elem _ (λ e, e = (i, j) ∨ e = (j, i))).
      * rewrite length_filter_two; [|done|by apply HinL..].
        destruct (decide (i = j)) as [->|Hne]; [by rewrite decide_True|].
        rewrite decide_False; [done|]. by intros [= ? ?].
      * intros [a b] [Hab Hba]%HinL. unfold on_pair, row7. simpl. split.
        -- intros Hset.
           assert (edge_id gen (a, b)
                   ∈ ({[edge_id gen (i, j); edge_id gen (j, i)]} : gset nat))
             as Hin by (rewrite <-Hset; by apply elem_of_union_l, elem_of_singleton).
           apply elem_of_union in Hin as [Hin|Hin];
             apply elem_of_singleton in Hin; [left|right]; by apply Hinj.
        -- intros [[= -> ->]|[= -> ->]];
             [apply (proj1 (list_to_set_two _ _))
             |apply (proj2 (list_to_set_two _ _))].
  - intros i j Hij Hji c (e & -> & He)%list_elem_of_fmap.
    apply HinL in He as [He Hrev]. destruct e as [a b]. unfold row7. simpl in *.
    intros [Hin|Hin]%elem_of_cons.
    + apply Hinj in Hin; [|done..]. injection Hin as -> ->. done.
    + apply list_elem_of_singleton, Hinj in Hin; [|done..].
      injection Hin as -> ->. done.
Qed.

(** ** Constraint (4) *)

Lemma constraint4_spec gen task vars :
  ∀ i, constraint4 gen task vars !! i
       = (if decide (i ∈ get_var_f_defined gen <$> get_goals task)
          then set_lower_bound (Finite 1) else id) <$> vars !! i.
Proof.
  unfold constraint4. revert vars.
  induction (get_goals task) as [|goal goals IH]; intros vars i.
  - simpl. by destruct (vars !! i).
  - cbn [foldl]. rewrite fmap_cons, IH.
    destruct (decide (i = get_var_f_defined gen goal)) as [->|Hne].
    + rewrite list_lookup_alter_eq.
      destruct (decide (get_var_f_defined gen goal
                        ∈ get_var_f_defined gen goal
                          :: (get_var_f_defined gen <$> goals)))
        as [_|[]]; [|by left].
      destruct (vars !! get_var_f_defined gen goal); simpl;
        try case_decide; done.
    + rewrite list_lookup_alter_ne by done.
      destruct (decide (i ∈ get_var_f_defined gen <$> goals)) as [Hin|Hnin].
      * destruct (decide (i ∈ get_var_f_defined gen goal
                            :: (get_var_f_defined gen <$> goals)))
          as [_|[]]; [done|by right].
      * destruct (decide (i ∈ get_var_f_defined gen goal
                            :: (get_var_f_defined gen <$> goals)))
          as [[?|?]%elem_of_cons|_]; done.
Qed.




(** ** When the construction succeeds *)

Lemma foldlM_Ok {A B} (f : A → B → Res A) (l : list B) :
  (∀ a b, b ∈ l → ∃ a', f a b = Ok a') → ∀ a, ∃ a', foldlM f a l = Ok a'.
Proof.
  induction l as [|b l IH]; intros Hf a; simpl; [by eexists|].
  destruct (Hf a b) as [a' ->]; [left|]. simpl.
  apply IH. intros a0 b0 Hb0. apply Hf. by right.
Qed.

Lemma collectM_is_Ok {A B} (f : A → Res (list B)) (l : list A) :
  (∀ a, a ∈ l → ∃ bs, f a = Ok bs) → ∃ bs, collectM f l = Ok bs.
Proof.
  induction l as [|a l IH]; intros Hf; simpl; [by eexists|].
  destruct (Hf a) as [bs ->]; [left|]. simpl.
  destruct IH as [bs' ->]; [intros b Hb; apply Hf; by right|].
  simpl. by eexists.
Qed.

Lemma elem_of_op_eff_pre task id eff pre :
  (id, eff, pre) ∈ op_eff_pre task →
  (id, eff) ∈ op_effects task ∧
  ∃ op, op ∈ get_operators task ∧
        pre ∈ get_preconditions op ∧ eff ∈ get_effects op.
Proof.
  unfold op_eff_pre, op_effects.
  intros ([i op] & Hin & Hop)%list_elem_of_bind.
  apply list_elem_of_bind in Hin as (e & Hin & He).
  apply list_elem_of_bind in Hin as (p & Hin & Hp).
  apply list_elem_of_singleton in Hin. injection Hin as -> -> ->.
  split.
  - apply list_elem_of_bind. exists (i, op). split; [|done].
    apply list_elem_of_bind. exists e. split; [by left|done].
  - exists op. split; [|done].
    apply list_elem_of_lookup in Hop as [n Hn].
    unfold indexed_operators in Hn. rewrite list_lookup_imap in Hn.
    destruct (get_operators task !! n) as [op'|] eqn:Hop'; [|done].
    injection Hn as _ <-. by eapply list_elem_of_lookup_2.
Qed.

Lemma elem_of_op_pre_eff task id pre eff :
  (id, pre, eff) ∈ op_pre_eff task →
  (id, eff) ∈ op_effects task ∧
  ∃ op, op ∈ get_operators task ∧
        pre ∈ get_preconditions op ∧ eff ∈ get_effects op.
Proof.
  unfold op_pre_eff, op_effects.
  intros ([i op] & Hin & Hop)%list_elem_of_bind.
  apply list_elem_of_bind in Hin as (p & Hin & Hp).
  apply list_elem_of_bind in Hin as (e & Hin & He).
  apply list_elem_of_singleton in Hin. injection Hin as -> -> ->.
  split.
  - apply list_elem_of_bind. exists (i, op). split; [|done].
    apply list_elem_of_bind. exists e. split; [by left|done].
  - exists op. split; [|done].
    apply list_elem_of_lookup in Hop as [n Hn].
    unfold indexed_operators in Hn. rewrite list_lookup_imap in Hn.
    destruct (get_operators task !! n) as [op'|] eqn:Hop'; [|done].
    injection Hn as _ <-. by eapply list_elem_of_lookup_2.
Qed.

(** The lookups of [create_constraints] all succeed when the generator
    has a column for every effect of every operator and for every edge,
    and the graph has an edge for every pair of a precondition and an
    effect of one operator. *)
Lemma create_constraints_succeeds gen task lp g :
  (∀ id eff, (id, eff) ∈ op_effects task →
             is_Some (lp_var_id_f_maps_to gen !! (var eff, value eff, id))) →
  (∀ e, e ∈ VEGraph.edges g → is_Some (lp_var_id_edge gen !! e)) →
  (∀ i j k, (i, j, k) ∈ VEGraph.delta g →
            (i, j) ∈ VEGraph.edges g ∧ (j, k) ∈ VEGraph.edges g ∧
            (i, k) ∈ VEGraph.edges g) →
  (∀ op pre eff, op ∈ get_operators task → pre ∈ get_preconditions op →
                 eff ∈ get_effects op → (pre, eff) ∈ VEGraph.edges g) →
  ∃ r, create_constraints gen task lp g = Ok r.
Proof.
  intros Hfm Hedge Hdelta Hops. unfold create_constraints.
  destruct (constraint2_rows gen task (constraints lp)) as [table cs].
  set (gen2 := with_con_ids gen table).
  assert (∀ id eff, (id, eff) ∈ op_effects task →
                    ∃ n, get_var_f_maps_to gen2 eff id = Ok n) as Hfm2.
  { intros id eff [n Hn]%Hfm. exists n. unfold get_var_f_maps_to. simpl.
    by rewrite Hn. }
  assert (∀ e, e ∈ VEGraph.edges g → ∃ n, edge_at gen2 e = Ok n) as Hedge2.
  { intros e [n Hn]%Hedge. exists n. unfold edge_at. simpl. by rewrite Hn. }
  destruct (foldlM_Ok (constraint2_term gen2 table) (op_effects task))
    with (a := cs) as [cs2 Hcs2].
  { intros a [id eff] Hin. unfold constraint2_term.
    destruct (Hfm2 id eff Hin) as [n ->]. by eexists. }
  unfold constraint2_terms. rewrite Hcs2. simpl.
  destruct (foldlM_Ok (constraint3_step gen2) (op_eff_pre task))
    with (a := ((∅ : gmap (FactPair * FactPair) nat), cs2)) as [[ids cs3] Hcs3].
  { intros [ids0 cs0] [[id eff] pre] [Hin _]%elem_of_op_eff_pre.
    unfold constraint3_step. case_decide; [by eexists|].
    destruct (Hfm2 id eff Hin) as [m ->].
    destruct (ids0 !! (pre, eff)); by eexists. }
  unfold constraint3. rewrite Hcs3. simpl.
  destruct (collectM_is_Ok (constraint5_row gen2) (op_effects task))
    as [rows5 Hrows5].
  { intros [id eff] Hin. unfold constraint5_row.
    destruct (Hfm2 id eff Hin) as [n ->]. by eexists. }
  unfold constraint5. rewrite Hrows5. simpl.
  destruct (collectM_is_Ok (constraint6_row gen2) (op_pre_eff task))
    as [rows6 Hrows6].
  { intros [[id pre] eff] [Hin (op & Hop & Hpre & Heff)]%elem_of_op_pre_eff.
    unfold constraint6_row.
    destruct (Hedge2 (pre, eff)) as [m ->]; [by eapply Hops|].
    destruct (Hfm2 id eff Hin) as [n ->]. by eexists. }
  unfold constraint6. rewrite Hrows6. simpl.
  unfold constraint7, VEGraph.get_edges. rewrite constraint7_rows.
  2:{ intros e He%elem_of_elements. destruct (Hedge2 e He) as [n Hn].
      unfold edge_at in Hn. destruct (lp_var_id_edge gen2 !! e); [by eexists|done]. }
  simpl.
  destruct (collectM_is_Ok (constraint8_row gen2) (VEGraph.get_delta g))
    as [rows8 Hrows8].
  { intros [[i j] k] Hin. destruct (Hdelta i j k Hin) as (H1 & H2 & H3).
    unfold constraint8_row.
    destruct (Hedge2 _ H1) as [n1 ->], (Hedge2 _ H2) as [n2 ->],
             (Hedge2 _ H3) as [n3 ->].
    by eexists. }
  unfold constraint8. rewrite Hrows8. simpl. by eexists.
Qed.

(** The construction succeeds for every task in which an operator that
    has a fact both as a precondition and as an effect finds a self-loop
    on that fact in the final graph; in particular for every task without
    such an operator. The lookup that throws on [self_achiever_task] is
    the only one that can fail. *)
Lemma initialize_constraints_succeeds fuel opts task lp (g : VEGraph.t Q) :
  VEGraph.make fuel task = Some g →
  (∀ op f, op ∈ get_operators task → f ∈ get_preconditions op →
           f ∈ get_effects op → (f, f) ∈ VEGraph.edges g) →
  ∃ r, initialize_constraints (Q := Q) fuel
         (new_DeleteRelaxationConstraintsRR opts) task lp = Some (Ok r).
Proof.
  intros Hmake Hself. unfold initialize_constraints. rewrite Hmake. simpl.
  destruct (create_auxiliary_variables_fresh opts task (variables lp) g)
    as (table & fm & em & -> & _ & Hfm & Hem).
  destruct (make_ok task fuel g Hmake) as (_ & [Hdelta _] & _).
  destruct (create_constraints_succeeds
              (mkRR (opt_use_time_vars opts) (opt_use_integer_vars opts)
                    table [] fm em [])
              task
              (mkLP (variables lp ++ replicate
                       (length (all_facts task) + length (op_effects task)
                        + size (VEGraph.edges g))
                       (mkLPVariable (Finite 0) (Finite 1) 0
                                     (opt_use_integer_vars opts)))
                    (constraints lp)) g) as [r ->].
  - intros id eff Hin. destruct (Hfm id eff Hin) as (n & Hn & _). by eexists.
  - intros e [n Hn]%elem_of_elements%list_elem_of_lookup.
    eexists. apply Hem. by exists n.
  - intros i j k Hin. destruct (Hdelta i j k Hin) as (H1 & H2 & H3 & _). done.
  - intros op pre eff Hop Hpre Heff.
    destruct (decide (pre = eff)) as [->|Hne]; [by eapply Hself|].
    eapply make_task_edges; [done|]. by exists op.
  - by eexists.
Qed.

(** ** The rows of constraint (2) in the built model *)

Lemma extends_refl c : extends c c.
Proof. by repeat split. Qed.

Lemma extends_trans c1 c2 c3 : extends c1 c2 → extends c2 c3 → extends c1 c3.
Proof.
  intros (H1 & H2 & H3 & H4) (H1' & H2' & H3' & H4').
  repeat split; try congruence; by etrans.
Qed.

Lemma extends_con_insert i x c : extends c (con_insert i x c).
Proof. repeat split; simpl; by apply prefix_app_r. Qed.

Lemma rows_extend_refl l : rows_extend l l.
Proof. intros r c Hc. exists c. split; [done|apply extends_refl]. Qed.

Lemma rows_extend_trans l1 l2 l3 :
  rows_extend l1 l2 → rows_extend l2 l3 → rows_extend l1 l3.
Proof.
  intros H12 H23 r c Hc. destruct (H12 r c Hc) as (c2 & Hc2 & He2).
  destruct (H23 r c2 Hc2) as (c3 & Hc3 & He3).
  exists c3. split; [done|by eapply extends_trans].
Qed.

Lemma rows_extend_alter i x n l :
  rows_extend l (alter (con_insert i x) n l).
Proof.
  intros r c Hc. destruct (decide (n = r)) as [->|Hne].
  - rewrite list_lookup_alter_eq, Hc. simpl. eexists. split; [done|].
    apply extends_con_insert.
  - rewrite list_lookup_alter_ne by done. exists c.
    split; [done|apply extends_refl].
Qed.

Lemma rows_extend_app l k : rows_extend l (l ++ k).
Proof.
  intros r c Hc. exists c. split; [|apply extends_refl].
  by apply lookup_app_l_Some.
Qed.

Lemma foldlM_rel {A B} (R : A → A → Prop) (f : A → B → Res A) (l : list B) :
  (∀ a, R a a) → (∀ a1 a2 a3, R a1 a2 → R a2 a3 → R a1 a3) →
  (∀ a b a', f a b = Ok a' → R a a') →
  ∀ a a', foldlM f a l = Ok a' → R a a'.
Proof.
  intros Hrefl Htrans Hf. induction l as [|b l IH]; intros a a'; simpl.
  - by intros [= <-].
  - destruct (f a b) as [a1|] eqn:Hab; [simpl|done].
    intros Hl. by eapply Htrans; [eapply Hf|eapply IH].
Qed.

Lemma constraint2_row_spec gen v d k :
  ∀ table cs row,
    k ≤ d → table !! v = Some row → length row = d →
    ∃ row',
      foldl (constraint2_row gen v) (table, cs) (seq 0 k)
      = (<[v := row']> table, cs ++ (row2 gen ∘ Fact v <$> seq 0 k)) ∧
      length row' = d ∧
      ∀ j, j < k → row' !! j = Some (length cs + j).
Proof.
  induction k as [|k IH]; intros table cs row Hk Hrow Hlen.
  - exists row. simpl. rewrite app_nil_r, list_insert_id by done.
    split; [done|]. split; [done|]. intros j Hj. lia.
  - destruct (IH table cs row) as (row' & Hfold & Hlen' & Hrow');
      [lia|done|done|].
    rewrite seq_S, foldl_app, Hfold. simpl.
    exists (<[k := length cs + k]> row').
    rewrite fmap_app, app_assoc, length_app, length_fmap, length_seq. simpl.
    split; [|split].
    + f_equal. apply lookup_lt_Some in Hrow as Hv.
      apply list_eq. intros n. rewrite list_lookup_alter.
      destruct (decide (v = n)) as [->|Hne].
      * by rewrite !list_lookup_insert_eq by (by rewrite ?length_insert).
      * by rewrite !list_lookup_insert_ne by done.
    + by rewrite length_insert.
    + intros j Hj. destruct (decide (j = k)) as [->|Hne].
      * rewrite list_lookup_insert_eq by lia. done.
      * rewrite list_lookup_insert_ne by done. apply Hrow'. lia.
Qed.

(** The first loop of constraint (2): one row per fact, in the order of
    [facts_of], registered in the table under its fact. *)
Lemma constraint2_var_spec gen sizes :
  ∀ table cs,
    length sizes ≤ length table →
    (foldl (constraint2_var gen) (table, cs) (imap pair sizes)).2
    = cs ++ (row2 gen <$> facts_of sizes) ∧
    length (foldl (constraint2_var gen) (table, cs) (imap pair sizes)).1
    = length table ∧
    (∀ i f, facts_of sizes !! i = Some f →
            lookup2 (foldl (constraint2_var gen) (table, cs)
                           (imap pair sizes)).1 f
            = length cs + i).
Proof.
  induction sizes as [|d sizes IH] using rev_ind; intros table cs Hm.
  - simpl. by rewrite app_nil_r.
  - rewrite length_app in Hm. simpl in Hm.
    destruct (IH table cs) as (H1 & H2 & H3); [lia|].
    rewrite imap_app, foldl_app. simpl. rewrite Nat.add_0_r.
    destruct (foldl (constraint2_var gen) (table, cs) (imap pair sizes))
      as [table1 cs1]. simpl in *.
    destruct (lookup_lt_is_Some_2 table1 (length sizes)) as [row Hrow]; [lia|].
    destruct (constraint2_row_spec gen (length sizes) d d
                (alter (resize d 0) (length sizes) table1) cs1 (resize d 0 row))
      as (row' & -> & Hlen & Hrow'); [done| |apply length_resize|].
    { by rewrite list_lookup_alter_eq, Hrow. }
    simpl. rewrite facts_of_snoc, fmap_app, app_assoc, <-list_fmap_compose.
    subst cs1. rewrite length_insert, length_alter.
    split; [done|]. split; [done|].
    intros i f Hi.
    destruct (decide (i < length (facts_of sizes))) as [Hlt|Hge].
    + rewrite lookup_app_l in Hi by done.
      rewrite lookup2_insert_ne.
      * unfold lookup2. rewrite list_lookup_alter_ne; [by apply H3|].
        apply list_elem_of_lookup_2, facts_of_var_lt in Hi. lia.
      * apply list_elem_of_lookup_2, facts_of_var_lt in Hi. lia.
    + rewrite lookup_app_r in Hi by lia.
      apply list_lookup_fmap_Some in Hi as (x & -> & Hx).
      apply lookup_seq in Hx as [-> Hx]. simpl in *.
      rewrite lookup2_insert_eq by (rewrite length_alter; lia).
      rewrite Hrow' by done. simpl.
      rewrite length_app, length_fmap. lia.
Qed.

(** After [initialize_constraints] on a fresh generator: no state was
    applied yet; every row that the program held is still there; and the
    fact number [i] of the task is registered with row number [i] among the
    new rows, which is its row of constraint (2): bounds 0 and 0, first
    term [1 * f_p]. *)
Lemma initialize_constraints_rows fuel opts task lp gen' lp' :
  initialize_constraints (Q := Q) fuel
    (new_DeleteRelaxationConstraintsRR opts) task lp = Some (Ok (gen', lp')) →
  last_state gen' = [] ∧
  rows_extend (constraints lp) (constraints lp') ∧
  ∀ i f, all_facts task !! i = Some f →
    get_constraint_id gen' f = length (constraints lp) + i ∧
    ∃ c, constraints lp' !! (length (constraints lp) + i) = Some c ∧
         extends (row2 gen' f) c.
Proof.
  unfold initialize_constraints.
  destruct (VEGraph.make fuel task) as [g|]; [simpl|done].
  destruct (create_auxiliary_variables_fresh opts task (variables lp) g)
    as (table & fm & em & -> & _ & _ & _).
  set (gen := mkRR _ _ table [] fm em []). set (vars1 := variables lp ++ _).
  unfold create_constraints. simpl.
  pose proof (constraint2_var_spec gen (get_variables task)
                (resize (length (get_variables task)) [] []) (constraints lp))
    as (R1 & R2 & R3); [by rewrite length_resize|].
  unfold constraint2_rows. simpl.
  destruct (foldl (constraint2_var gen) _ (imap pair (get_variables task)))
    as [ctable cs]. simpl in R1, R2, R3.
  set (gen2 := with_con_ids gen ctable).
  destruct (constraint2_terms gen2 task ctable cs) as [cs2|] eqn:H2;
    [simpl|done].
  destruct (constraint3 gen2 task cs2) as [cs3|] eqn:H3; [simpl|done].
  destruct (constraint5 gen2 task) as [rows5|]; [simpl|done].
  destruct (constraint6 gen2 task) as [rows6|]; [simpl|done].
  destruct (constraint7 gen2 g) as [rows7|]; [simpl|done].
  destruct (constraint8 gen2 g) as [rows8|]; [simpl|done].
  intros [= <- <-]. simpl.
  assert (rows_extend cs cs2) as E2.
  { revert H2. unfold constraint2_terms.
    apply (foldlM_rel rows_extend);
      [apply rows_extend_refl|apply rows_extend_trans|].
    intros a [id eff] a'. unfold constraint2_term.
    destruct (get_var_f_maps_to gen2 eff id); [simpl|done].
    intros [= <-]. apply rows_extend_alter. }
  assert (rows_extend cs2 cs3) as E3.
  { revert H3. unfold constraint3.
    destruct (foldlM (constraint3_step gen2) (∅, cs2) (op_eff_pre task))
      as [[ids cs3']|] eqn:Hfold; [simpl|done].
    intros [= <-]. revert Hfold.
    change cs2 with (((∅ : gmap (FactPair * FactPair) nat), cs2).2) at 2.
    change cs3' with ((ids, cs3').2) at 2.
    apply (foldlM_rel (λ a a', rows_extend a.2 a'.2));
      [intros; apply rows_extend_refl
      |intros ???; apply rows_extend_trans|].
    intros [ids0 cs0] [[id eff] pre] [ids1 cs1]. unfold constraint3_step.
    case_decide; [intros [= <- <-]; apply rows_extend_refl|].
    destruct (ids0 !! (pre, eff));
      destruct (get_var_f_maps_to gen2 eff id); simpl; try done;
      intros [= <- <-]; simpl.
    - apply rows_extend_alter.
    - eapply rows_extend_trans; [apply rows_extend_app|apply rows_extend_alter]. }
  assert (rows_extend cs (cs3 ++ rows5 ++ rows6 ++ rows7 ++ rows8)) as E.
  { eapply rows_extend_trans; [exact E2|].
    eapply rows_extend_trans; [exact E3|apply rows_extend_app]. }
  split; [done|]. split.
  - eapply rows_extend_trans; [|exact E]. subst cs. apply rows_extend_app.
  - intros i f Hi. split; [by apply R3|].
    apply E. subst cs. rewrite lookup_app_r by lia.
    replace (length (constraints lp) + i - length (constraints lp)) with i
      by lia.
    rewrite list_lookup_fmap. unfold all_facts in Hi. by rewrite Hi.
Qed.

(** So the model that [initialize_constraints] builds is ready for
    [update_constraints]: nothing is forced yet, and different facts of
    the task are registered with different rows. *)
Lemma initialize_constraints_synced fuel opts task lp gen' lp' :
  initialize_constraints (Q := Q) fuel
    (new_DeleteRelaxationConstraintsRR opts) task lp = Some (Ok (gen', lp')) →
  synced gen' (mkSolver lp') ∧
  ∀ f1 f2, f1 ∈ all_facts task → f2 ∈ all_facts task →
           get_constraint_id gen' f1 = get_constraint_id gen' f2 → f1 = f2.
Proof.
  intros (Hlast & _ & Hrows)%initialize_constraints_rows. split.
  - intros f c Hf. rewrite Hlast in Hf. by apply elem_of_nil in Hf.
  - intros f1 f2 [i1 H1]%list_elem_of_lookup [i2 H2]%list_elem_of_lookup.
    destruct (Hrows _ _ H1) as [-> _], (Hrows _ _ H2) as [-> _].
    intros Heq. assert (i1 = i2) as -> by lia. congruence.
Qed.

End construction.

(** ** The per-state update *)

Lemma foldl_unset_bounds gen fs :
  ∀ lp_solver,
    variables (loaded (foldl (unset_bounds gen) lp_solver fs))
    = variables (loaded lp_solver) ∧
    ∀ r, constraints (loaded (foldl (unset_bounds gen) lp_solver fs)) !! r
         = (if decide (r ∈ rows_of gen fs) then set_both (Finite 0) else id)
             <$> constraints (loaded lp_solver) !! r.
Proof.
  induction fs as [|f fs IH]; intros lp_solver; simpl.
  - split; [done|]. intros r. by destruct (constraints (loaded lp_solver) !! r).
  - destruct (IH (unset_bounds gen lp_solver f)) as [-> Hr].
    split; [done|]. intros r. rewrite Hr. simpl.
    destruct (decide (r = get_constraint_id gen f)) as [->|Hne].
    + rewrite !list_lookup_alter_eq.
      destruct (decide (get_constraint_id gen f
                        ∈ get_constraint_id gen f :: rows_of gen fs))
        as [_|[]]; [|by left].
      destruct (constraints (loaded lp_solver) !! get_constraint_id gen f);
        simpl; try case_decide; done.
    + rewrite !list_lookup_alter_ne by done.
      destruct (decide (r ∈ rows_of gen fs)) as [Hin|Hnin].
      * destruct (decide (r ∈ get_constraint_id gen f :: rows_of gen fs))
          as [_|[]]; [done|by right].
      * destruct (decide (r ∈ get_constraint_id gen f :: rows_of gen fs))
          as [[?|?]%elem_of_cons|_]; done.
Qed.

Lemma foldl_set_bounds gen fs :
  ∀ acc,
    (foldl (set_bounds gen) acc fs).2 = acc.2 ++ fs ∧
    variables (loaded (foldl (set_bounds gen) acc fs).1)
    = variables (loaded acc.1) ∧
    ∀ r, constraints (loaded (foldl (set_bounds gen) acc fs).1) !! r
         = (if decide (r ∈ rows_of gen fs) then set_both (Finite 1) else id)
             <$> constraints (loaded acc.1) !! r.
Proof.
  induction fs as [|f fs IH]; intros acc; simpl.
  - rewrite app_nil_r. repeat split.
    intros r. by destruct (constraints (loaded acc.1) !! r).
  - destruct (IH (set_bounds gen acc f)) as (-> & -> & Hr).
    split; [unfold set_bounds at 1; simpl; by rewrite <-app_assoc|].
    split; [done|].
    intros r. rewrite Hr. simpl.
    destruct (decide (r = get_constraint_id gen f)) as [->|Hne].
    + rewrite !list_lookup_alter_eq.
      destruct (decide (get_constraint_id gen f
                        ∈ get_constraint_id gen f :: rows_of gen fs))
        as [_|[]]; [|by left].
      destruct (constraints (loaded acc.1) !! get_constraint_id gen f);
        simpl; try case_decide; done.
    + rewrite !list_lookup_alter_ne by done.
      destruct (decide (r ∈ rows_of gen fs)) as [Hin|Hnin].
      * destruct (decide (r ∈ get_constraint_id gen f :: rows_of gen fs))
          as [_|[]]; [done|by right].
      * destruct (decide (r ∈ get_constraint_id gen f :: rows_of gen fs))
          as [[?|?]%elem_of_cons|_]; done.
Qed.

Lemma length_pointwise {A} (l l' : list A) (F : nat → A → A) :
  (∀ r, l' !! r = F r <$> l !! r) → length l' = length l.
Proof.
  intros Hr.
  destruct (Nat.lt_trichotomy (length l') (length l)) as [Hlt|[?|Hlt]]; [|done|].
  - apply lookup_lt_is_Some in Hlt as [c Hc].
    pose proof (Hr (length l')) as Hr'.
    rewrite Hc, lookup_ge_None_2 in Hr' by done. done.
  - apply lookup_lt_is_Some in Hlt as [c Hc].
    pose proof (Hr (length l)) as Hr'.
    rewrite Hc, lookup_ge_None_2 in Hr' by done. done.
Qed.

(** What one call of [update_constraints] does, row by row. *)
Lemma update_constraints_spec gen state lp_solver :
  ∃ lp_solver',
    update_constraints gen state lp_solver
    = (false, with_last_state gen (state_facts state), lp_solver') ∧
    variables (loaded lp_solver') = variables (loaded lp_solver) ∧
    ∀ r, constraints (loaded lp_solver') !! r
         = (if decide (r ∈ rows_of gen (state_facts state))
            then set_both (Finite 1)
            else if decide (r ∈ rows_of gen (last_state gen))
                 then set_both (Finite 0) else id)
             <$> constraints (loaded lp_solver) !! r.
Proof.
  unfold update_constraints.
  destruct (foldl_unset_bounds gen (last_state gen) lp_solver) as [Hv Hr].
  destruct (foldl_set_bounds gen (state_facts state)
              (foldl (unset_bounds gen) lp_solver (last_state gen), []))
    as (Hl & Hv' & Hr').
  destruct (foldl (set_bounds gen) _ (state_facts state)) as [s l].
  simpl in *. subst l. exists s. split; [done|]. split; [congruence|].
  intros r. rewrite Hr', Hr.
  destruct (constraints (loaded lp_solver) !! r); [simpl|done].
  repeat case_decide; done.
Qed.

Lemma LPSolver_eq (s1 s2 : LPSolver) :
  variables (loaded s1) = variables (loaded s2) →
  constraints (loaded s1) = constraints (loaded s2) → s1 = s2.
Proof. destruct s1 as [[??]], s2 as [[??]]. simpl. by intros -> ->. Qed.

(** C6: one call of [update_constraints] leaves the variables, the number
    of rows and the terms of every row as they are, and keeps every table
    of the generator; a row whose bounds differ after the call is the row
    registered for a fact that is in exactly one of the previous state and
    the new state. The rows of the new state are forced afterwards. *)
Theorem update_constraints_frame gen state lp_solver :
  synced gen lp_solver →
  ∃ gen' lp_solver',
    update_constraints gen state lp_solver = (false, gen', lp_solver') ∧
    gen' = with_last_state gen (state_facts state) ∧
    variables (loaded lp_solver') = variables (loaded lp_solver) ∧
    length (constraints (loaded lp_solver'))
    = length (constraints (loaded lp_solver)) ∧
    (∀ r c, constraints (loaded lp_solver) !! r = Some c →
       ∃ c', constraints (loaded lp_solver') !! r = Some c' ∧
             con_variables c' = con_variables c ∧
             con_coefficients c' = con_coefficients c ∧
             (c' ≠ c →
              ∃ f, r = get_constraint_id gen f ∧
                   ((f ∈ last_state gen ∧ (f ∉ state_facts state)) ∨
                    ((f ∉ last_state gen) ∧ f ∈ state_facts state)))) ∧
    synced gen' lp_solver'.
Proof.
  intros Hsync.
  destruct (update_constraints_spec gen state lp_solver) as (s & Hs & Hv & Hr).
  exists (with_last_state gen (state_facts state)), s.
  split; [done|]. split; [done|]. split; [done|]. split; [|split].
  - by apply (length_pointwise _ _ _ Hr).
  - intros r c Hc. rewrite Hr, Hc. simpl.
    destruct (decide (r ∈ rows_of gen (state_facts state))) as [Hin|Hnin].
    + eexists. split; [done|]. split; [done|]. split; [done|]. intros Hne.
      apply list_elem_of_fmap in Hin as (f & -> & Hf).
      exists f. split; [done|]. right. split; [|done].
      intros Hlast. destruct (Hsync f c Hlast Hc) as [Hlo Hup].
      apply Hne. destruct c. simpl in *. by subst.
    + destruct (decide (r ∈ rows_of gen (last_state gen))) as [Hin|Hnin'].
      * eexists. split; [done|]. split; [done|]. split; [done|]. intros _.
        apply list_elem_of_fmap in Hin as (f & -> & Hf).
        exists f. split; [done|]. left. split; [done|].
        intros Hst. apply Hnin. by apply list_elem_of_fmap_2.
      * exists c. by repeat split.
  - intros f c Hf. simpl in Hf.
    change (get_constraint_id (with_last_state gen (state_facts state)) f)
      with (get_constraint_id gen f).
    rewrite Hr, decide_True by (by apply list_elem_of_fmap_2).
    destruct (constraints (loaded lp_solver) !! get_constraint_id gen f);
      [simpl|done].
    by intros [= <-].
Qed.

(** C7: after a call with a state [S] and a call with the empty state,
    every row registered for a fact of [S] has both bounds 0 and is
    otherwise as before; and a second call with [S] changes nothing: the
    generator and every row are as after the first call. *)
Theorem update_constraints_reset_and_idempotent gen state lp_solver :
  (∀ f c, f ∈ state_facts state →
     constraints (loaded lp_solver) !! get_constraint_id gen f = Some c →
     constraints
       (loaded (update_constraints
                  (update_constraints gen state lp_solver).1.2 []
                  (update_constraints gen state lp_solver).2).2)
       !! get_constraint_id gen f
     = Some (set_both (Finite 0) c)) ∧
  update_constraints (update_constraints gen state lp_solver).1.2 state
                     (update_constraints gen state lp_solver).2
  = update_constraints gen state lp_solver.
Proof.
  destruct (update_constraints_spec gen state lp_solver) as (s1 & -> & Hv1 & Hr1).
  cbn [fst snd]. split.
  - intros f c Hf Hc.
    destruct (update_constraints_spec
                (with_last_state gen (state_facts state)) [] s1)
      as (s2 & -> & Hv2 & Hr2).
    cbn [fst snd]. rewrite Hr2, Hr1, Hc.
    change (rows_of (with_last_state gen (state_facts state)))
      with (rows_of gen).
    change (last_state (with_last_state gen (state_facts state)))
      with (state_facts state).
    assert (get_constraint_id gen f ∈ rows_of gen (state_facts state)) as Hin
      by (by apply list_elem_of_fmap_2).
    destruct (decide (get_constraint_id gen f ∈ rows_of gen (state_facts [])))
      as [Hnil|_]; [by apply elem_of_nil in Hnil|].
    destruct (decide (get_constraint_id gen f ∈ rows_of gen (state_facts state)))
      as [_|[]]; done.
  - destruct (update_constraints_spec
                (with_last_state gen (state_facts state)) state s1)
      as (s2 & -> & Hv2 & Hr2).
    simpl in Hr2. f_equal. apply LPSolver_eq; [congruence|].
    apply list_eq. intros r. rewrite Hr2, Hr1.
    change (rows_of (with_last_state gen (state_facts state)))
      with (rows_of gen).
    destruct (constraints (loaded lp_solver) !! r); [simpl|done].
    repeat case_decide; done.
Qed.

(** ** The value returned by [update_constraints] *)

(** C1, as stated, fails: on the generator and the solver as they are once
    the state [A=0, B=1] was applied, the call for the state [A=1, B=1]
    changes the bounds of the rows of [A=0] and [A=1], and the value
    returned is not [true]. *)
Lemma update_constraints_not_true :
  (update_constraints applied_generator [1; 1] applied_solver).1.1 ≠ true ∧
  (update_constraints applied_generator [1; 1] applied_solver).2
  ≠ applied_solver.
Proof. split; vm_compute; discriminate. Qed.

(** C1, amended: for every generator, state and solver, the value that
    [update_constraints] returns to its caller is [false]; it does not tell
    whether the bounds of the model were modified. *)
Theorem update_constraints_returns_false gen state lp_solver :
  (update_constraints gen state lp_solver).1.1 = false.
Proof.
  unfold update_constraints.
  by destruct (foldl (set_bounds gen) _ (state_facts state)).
Qed.

(** ** The construction on the test tasks *)

(** The graph of the task with one operator: its one edge, no delta
    triple, every fact eliminated once. *)
Example one_edge_graph :
  (λ g, (elements (VEGraph.edges g), VEGraph.delta g))
    <$> VEGraph.make (Q := ListQueue.t) 10 one_edge_task
  = Some ([(Fact 0 0, Fact 1 1)], []) ∧
  (VEGraph.elimination_trace (Q := ListQueue.t) 10
     (VEGraph.prepare one_edge_task)).*1
  = [Fact 1 0; Fact 0 1; Fact 0 0; Fact 1 1].
Proof. split; vm_compute; reflexivity. Qed.

(** The graph of the two facts that achieve each other: eliminating the
    first one adds a self-loop on the other, which is then returned by
    [pop_fact] twice. *)
Example two_cycle_graph :
  (λ g, (elements (VEGraph.edges g), VEGraph.delta g))
    <$> VEGraph.make (Q := ListQueue.t) 10 two_cycle_task
  = Some ([(Fact 0 0, Fact 0 0); (Fact 0 0, Fact 1 0); (Fact 1 0, Fact 0 0)],
          [(Fact 0 0, Fact 1 0, Fact 0 0)]) ∧
  (VEGraph.elimination_trace (Q := ListQueue.t) 10
     (VEGraph.prepare two_cycle_task)).*1
  = [Fact 1 0; Fact 0 0; Fact 0 0].
Proof. split; vm_compute; reflexivity. Qed.

(** The model of the task with one operator: the tables, the lower bound
    of the goal fact's variable, and the rows of constraints (2), (3), (5)
    and (6); the graph has no pair of opposite edges and no delta triple. *)
Example one_edge_model :
  (λ r, (lp_var_id_f_defined r.1, lp_con_id_f_defined r.1,
         lower_bound <$> variables r.2, con_variables <$> constraints r.2))
    <$$> initialize_constraints (Q := ListQueue.t) 10
           (new_DeleteRelaxationConstraintsRR default_options)
           one_edge_task one_operator_lp
  = Some (Ok ([[1; 2]; [3; 4]], [[0; 1]; [2; 3]],
              [Finite 0; Finite 0; Finite 0; Finite 0; Finite 1; Finite 0;
               Finite 0],
              [[1]; [2]; [3]; [4; 5]; [1; 5]; [5; 0]; [6; 5]])).
Proof. vm_compute. reflexivity. Qed.

(** C2, as stated, fails: with [use_time_vars] set, the construction on the
    task with one edge completes and returns a model; no error is
    raised. *)
Lemma time_vars_accepted :
  ∃ gen lp,
    initialize_constraints (Q := ListQueue.t) 10
      (new_DeleteRelaxationConstraintsRR (mkOptions true false))
      one_edge_task one_operator_lp
    = Some (Ok (gen, lp)) ∧
    use_time_vars gen = true.
Proof. eexists _, _. split; vm_compute; reflexivity. Qed.

(** C3 fails on the code: on the task whose only operator has the fact
    [(0, 1)] both as a precondition and as an effect, the lookup of the
    edge from that fact to itself, made while the rows of constraint (6)
    are built, throws. *)
Theorem self_achiever_lookup_throws :
  initialize_constraints (Q := ListQueue.t) 10
    (new_DeleteRelaxationConstraintsRR default_options)
    self_achiever_task one_operator_lp
  = Some (Throw (no_edge (Fact 0 1, Fact 0 1))).
Proof. vm_compute. reflexivity. Qed.

(** ** The update on a built model *)

(** From the state [A=0, B=1] to the state [A=1, B=1]. *)
Lemma update_constraints_frame_witness :
  synced applied_generator applied_solver ∧
  ∃ gen' lp_solver',
    update_constraints applied_generator [1; 1] applied_solver
    = (false, gen', lp_solver') ∧
    synced gen' lp_solver'.
Proof.
  assert (synced applied_generator applied_solver) as Hsync.
  { intros f c Hf Hc. simpl in Hf.
    apply elem_of_cons in Hf as [->|Hf].
    - vm_compute in Hc. injection Hc as <-. by split.
    - apply list_elem_of_singleton in Hf as ->.
      vm_compute in Hc. injection Hc as <-. by split. }
  split; [exact Hsync|].
  destruct (update_constraints_frame applied_generator [1; 1] applied_solver Hsync)
    as (gen' & lp_solver' & Hupd & _ & _ & _ & _ & Hsync').
  by exists gen', lp_solver'.
Defined.

(** C4, as stated, fails: in the model of the task of two facts that
    achieve each other, constraint (7) has two rows over the columns of
    the edges between the two facts, not one. *)
Lemma two_cycle_has_two_rows :
  ∃ g gen rows,
    VEGraph.make (Q := ListQueue.t) 10 two_cycle_task = Some g ∧
    gen = (create_auxiliary_variables
             (new_DeleteRelaxationConstraintsRR default_options)
             two_cycle_task (variables one_operator_lp) g).1 ∧
    constraint7 gen g = Ok rows ∧
    ¬ one_row_per_unordered_pair gen g rows.
Proof.
  eexists _, _, _. split; [vm_compute; reflexivity|].
  split; [reflexivity|]. split; [vm_compute; reflexivity|].
  intros Hone. pose proof (Hone (Fact 0 0) (Fact 1 0)) as Hlen.
  lapply Hlen; [clear Hlen; intros Hlen|by vm_compute].
  lapply Hlen; [clear Hlen; intros Hlen|by vm_compute].
  vm_compute in Hlen. discriminate.
Qed.


(** ** The double elimination does not depend on the queue *)

Section any_queue.
Context {Q : Type} `{!PriorityQueue Q}.

(** When no entry is stale, [pop_fact] returns the fact of the entry that
    the queue pops first. *)
Lemma pop_fact_no_stale (g : VEGraph.t Q) :
  (∀ e, e ∈ pq_entries (VEGraph.elimination_queue g) → ¬ stale g e) →
  pq_entries (VEGraph.elimination_queue g) ≠ [] →
  ∃ f q',
    VEGraph.pop_fact g = (Some f, VEGraph.set_queue q' g) ∧
    pq_entries (VEGraph.elimination_queue g)
    ≡ₚ (in_degree (VEGraph.get_node g f), f) :: pq_entries q'.
Proof.
  intros Hvalid Hne. unfold VEGraph.pop_fact.
  destruct (pq_entries (VEGraph.elimination_queue g)) as [|e l] eqn:He; [done|].
  simpl.
  destruct (pq_pop (VEGraph.elimination_queue g)) as [[[k f] q']|] eqn:Hpop.
  - destruct (pq_pop_Some _ _ _ _ Hpop) as [Hperm _].
    assert (in_degree (VEGraph.get_node g f) = k) as Hk.
    { destruct (decide (in_degree (VEGraph.get_node g f) = k)) as [?|Hst];
        [done|].
      destruct (Hvalid (k, f)); [|done].
      rewrite <-He, Hperm. left. }
    exists f, q'.
    change (VEGraph.get_node (VEGraph.set_queue q' g) f)
      with (VEGraph.get_node g f).
    rewrite decide_True by done. split; [done|].
    by rewrite <-He, Hk.
  - apply pq_pop_None in Hpop. congruence.
Qed.
Lemma loop_step (g : VEGraph.t Q) f q' n :
  VEGraph.pop_fact g = (Some f, VEGraph.set_queue q' g) →
  VEGraph.eliminate_loop (S n) g
  = VEGraph.eliminate_loop n (VEGraph.eliminate f (VEGraph.set_queue q' g)) ∧
  VEGraph.elimination_trace (S n) g
  = (f, VEGraph.set_queue q' g)
      :: VEGraph.elimination_trace n
           (VEGraph.eliminate f (VEGraph.set_queue q' g)).
Proof. intros Hpop. simpl. by rewrite Hpop. Qed.

Lemma loop_stop (g : VEGraph.t Q) n :
  pq_entries (VEGraph.elimination_queue g) = [] →
  VEGraph.eliminate_loop (S n) g = Some g ∧
  VEGraph.elimination_trace (S n) g = [].
Proof.
  intros Hempty. simpl. unfold VEGraph.pop_fact. rewrite Hempty. done.
Qed.

(** The run of the loop on two facts [x] and [y] that achieve each other,
    from the point where [x] was popped first: [y] is eliminated twice. *)
Lemma two_cycle_run (x y : FactPair) (g0 : VEGraph.t Q) (q1 : Q) fuel g :
  x ≠ y →
  VEGraph.nodes g0 = VEGraph.nodes (VEGraph.prepare (Q := Q) two_cycle_task) →
  VEGraph.edges g0 = VEGraph.edges (VEGraph.prepare (Q := Q) two_cycle_task) →
  VEGraph.delta g0 = [] →
  x ∈ all_facts two_cycle_task → y ∈ all_facts two_cycle_task →
  VEGraph.pop_fact g0 = (Some x, VEGraph.set_queue q1 g0) →
  pq_entries q1 = [(1, y)] →
  VEGraph.eliminate_loop fuel g0 = Some g →
  (VEGraph.elimination_trace fuel g0).*1 = [x; y; y].
Proof.
  intros Hxy Hnodes Hedges Hdelta Hx Hy Hpop0 Hq1 Hloop.
  assert ((x = Fact 0 0 ∧ y = Fact 1 0) ∨ (x = Fact 1 0 ∧ y = Fact 0 0))
    as Hcases.
  { unfold all_facts in Hx, Hy. simpl in Hx, Hy.
    apply elem_of_cons in Hx as [->|Hx], Hy as [->|Hy];
      try apply list_elem_of_singleton in Hx as ->;
      try apply list_elem_of_singleton in Hy as ->; auto; done. }
  destruct g0 as [nodes0 delta0 edges0 q0]. cbn [VEGraph.nodes VEGraph.edges VEGraph.delta] in Hnodes, Hedges, Hdelta.
  subst delta0.
  assert (nodes0 = [[mkNode [Fact 1 0] [Fact 1 0] false 1];
                    [mkNode [Fact 0 0] [Fact 0 0] false 1]]) as ->
    by (rewrite Hnodes; vm_compute; reflexivity).
  assert (edges0 = {[(Fact 0 0, Fact 1 0); (Fact 1 0, Fact 0 0)]}) as ->
    by (rewrite Hedges; vm_compute; reflexivity).
  clear Hnodes Hedges.
  (* first iteration *)
  destruct fuel as [|fuel]; [done|].
  destruct (loop_step _ _ _ fuel Hpop0) as [E1 T1].
  rewrite E1 in Hloop. rewrite T1. clear E1 T1 Hpop0.
  set (g1 := VEGraph.eliminate x (VEGraph.set_queue q1 _)) in *.
  assert (VEGraph.elimination_queue g1 = pq_push 1 y q1) as Hqueue1
    by (destruct Hcases as [[-> ->]|[-> ->]]; vm_compute; reflexivity).
  assert (in_degree (VEGraph.get_node g1 y) = 1) as Hdeg1
    by (destruct Hcases as [[-> ->]|[-> ->]]; vm_compute; reflexivity).
  destruct (pop_fact_no_stale g1) as (f2 & q2 & Hpop1 & Hperm1).
  { intros e. rewrite Hqueue1, pq_push_entries, Hq1.
    intros [->|He]%elem_of_cons Hst;
      [|apply list_elem_of_singleton in He as ->]; by apply Hst. }
  { rewrite Hqueue1. intros Hnil.
    pose proof (pq_push_entries 1 y q1) as Hp. rewrite Hnil in Hp.
    by apply Permutation_nil_cons in Hp. }
  rewrite Hqueue1, pq_push_entries, Hq1 in Hperm1.
  assert (f2 = y ∧ pq_entries q2 = [(1, y)]) as [-> Hq2].
  { assert ((in_degree (VEGraph.get_node g1 f2), f2) ∈ [(1, y); (1, y)])
      as Hin by (rewrite Hperm1; left).
    assert (f2 = y) as ->.
    { apply elem_of_cons in Hin as [Hin|Hin];
        [|apply list_elem_of_singleton in Hin];
        by apply pair_equal_spec in Hin as [_ ->]. }
    split; [done|]. rewrite Hdeg1 in Hperm1.
    apply Permutation_cons_inv in Hperm1. symmetry in Hperm1.
    by apply Permutation_singleton_r in Hperm1. }
  (* second iteration *)
  destruct fuel as [|fuel]; [done|].
  destruct (loop_step _ _ _ fuel Hpop1) as [E2 T2].
  rewrite E2 in Hloop. rewrite T2. clear E2 T2 Hpop1 Hperm1.
  set (g2 := VEGraph.eliminate y (VEGraph.set_queue q2 g1)) in *.
  assert (VEGraph.elimination_queue g2 = q2) as Hqueue2
    by (destruct Hcases as [[-> ->]|[-> ->]]; vm_compute; reflexivity).
  assert (in_degree (VEGraph.get_node g2 y) = 1) as Hdeg2
    by (destruct Hcases as [[-> ->]|[-> ->]]; vm_compute; reflexivity).
  destruct (pop_fact_no_stale g2) as (f3 & q3 & Hpop2 & Hperm2).
  { intros e. rewrite Hqueue2, Hq2.
    intros He Hst. apply list_elem_of_singleton in He as ->. by apply Hst. }
  { by rewrite Hqueue2, Hq2. }
  rewrite Hqueue2, Hq2 in Hperm2.
  assert (f3 = y ∧ pq_entries q3 = []) as [-> Hq3].
  { assert ((in_degree (VEGraph.get_node g2 f3), f3) ∈ [(1, y)])
      as Hin by (rewrite Hperm2; left).
    apply list_elem_of_singleton, pair_equal_spec in Hin as [_ ->].
    split; [done|]. rewrite Hdeg2 in Hperm2.
    apply Permutation_cons_inv in Hperm2. symmetry in Hperm2.
    by apply Permutation_nil_r in Hperm2. }
  (* third iteration: the fact popped is already eliminated *)
  destruct fuel as [|fuel]; [done|].
  destruct (loop_step _ _ _ fuel Hpop2) as [E3 T3].
  rewrite E3 in Hloop. rewrite T3. clear E3 T3 Hpop2 Hperm2.
  set (g3 := VEGraph.eliminate y (VEGraph.set_queue q3 g2)) in *.
  assert (VEGraph.elimination_queue g3 = q3) as Hqueue3
    by (destruct Hcases as [[-> ->]|[-> ->]]; vm_compute; reflexivity).
  (* the queue is empty *)
  destruct fuel as [|fuel]; [done|].
  destruct (loop_stop g3 fuel) as [_ T4]; [by rewrite Hqueue3|].
  by rewrite T4.
Qed.

(** Whatever the queue does with entries of equal key: on the task of two
    facts that achieve each other, a run of the elimination loop that
    ends passes one of the two facts to [eliminate] twice. *)
Lemma two_cycle_eliminated_twice_any_queue fuel (g : VEGraph.t Q) :
  VEGraph.make fuel two_cycle_task = Some g →
  ¬ eliminated_exactly_once (Q := Q) fuel two_cycle_task.
Proof.
  intros Hmake Honce. unfold VEGraph.make in Hmake.
  set (g0 := VEGraph.prepare (Q := Q) two_cycle_task) in *.
  assert (VEGraph.elimination_queue g0
          = pq_push 1 (Fact 1 0) (pq_push 1 (Fact 0 0) pq_new)) as Hqueue
    by (vm_compute; reflexivity).
  assert (pq_entries (VEGraph.elimination_queue g0)
          ≡ₚ [(1, Fact 1 0); (1, Fact 0 0)]) as Hentries
    by (by rewrite Hqueue, !pq_push_entries, pq_new_entries).
  assert (∀ f, f ∈ all_facts two_cycle_task →
               in_degree (VEGraph.get_node g0 f) = 1) as Hdeg.
  { intros f Hf. unfold all_facts in Hf. simpl in Hf.
    apply elem_of_cons in Hf as [->|Hf];
      [|apply list_elem_of_singleton in Hf as ->]; vm_compute; reflexivity. }
  destruct (pop_fact_no_stale g0) as (x & q1 & Hpop & Hperm).
  { intros e. rewrite Hentries.
    intros [->|He]%elem_of_cons Hst;
      [|apply list_elem_of_singleton in He as ->];
      apply Hst; vm_compute; reflexivity. }
  { intros Hnil. rewrite Hnil in Hentries.
    by apply Permutation_nil_cons in Hentries. }
  rewrite Hentries in Hperm.
  assert (∃ y, x ≠ y ∧ x ∈ all_facts two_cycle_task ∧
               y ∈ all_facts two_cycle_task ∧ pq_entries q1 = [(1, y)])
    as (y & Hxy & Hx & Hy & Hq1).
  { assert ((in_degree (VEGraph.get_node g0 x), x)
            ∈ [(1, Fact 1 0); (1, Fact 0 0)]) as Hin
      by (rewrite Hperm; left).
    apply elem_of_cons in Hin as [Hin|Hin].
    - apply pair_equal_spec in Hin as [Hk ->]. exists (Fact 0 0). rewrite Hk in Hperm.
      apply Permutation_cons_inv in Hperm. symmetry in Hperm.
      apply Permutation_singleton_r in Hperm.
      repeat split; [done|vm_compute; right; left|vm_compute; left|done].
    - apply list_elem_of_singleton, pair_equal_spec in Hin as [Hk ->].
      exists (Fact 1 0). rewrite Hk in Hperm.
      rewrite (Permutation_swap (1, Fact 0 0) (1, Fact 1 0) []) in Hperm.
      apply Permutation_cons_inv in Hperm. symmetry in Hperm.
      apply Permutation_singleton_r in Hperm.
      repeat split; [done|vm_compute; left|vm_compute; right; left|done]. }
  pose proof (two_cycle_run x y g0 q1 fuel g Hxy eq_refl eq_refl
                ltac:(vm_compute; reflexivity) Hx Hy Hpop Hq1 Hmake) as Htrace.
  specialize (Honce y Hy). unfold g0 in Htrace. rewrite Htrace in Honce.
  rewrite !filter_cons, filter_nil in Honce.
  rewrite decide_False, !decide_True in Honce by done.
  discriminate.
Qed.
End any_queue.

(** * Further properties

    What the code does beyond the statements settled above. *)

(** ** The structure of the graph *)

Section graph_more.
Context {Q : Type} `{!PriorityQueue Q}.
Implicit Types g : VEGraph.t Q.
Implicit Types f u w x y : FactPair.

Local Abbreviation get_node := VEGraph.get_node.
Local Abbreviation update_node := VEGraph.update_node.
Local Abbreviation add_edge := VEGraph.add_edge.
Local Abbreviation edges := VEGraph.edges.
Local Abbreviation delta := VEGraph.delta.
Local Abbreviation nodes := VEGraph.nodes.
Local Abbreviation queue := VEGraph.elimination_queue.

(** A property that every iteration of the elimination loop keeps holds
    of every graph on which the loop pops a fact, and of the result. *)
Lemma eliminate_loop_invariant (P : VEGraph.t Q → Prop) fuel :
  (∀ g f g1, P g → VEGraph.pop_fact g = (Some f, g1) →
             P (VEGraph.eliminate f g1)) →
  ∀ g g',
    P g → VEGraph.eliminate_loop fuel g = Some g' →
    (∃ g0, P g0 ∧ VEGraph.pop_fact g0 = (None, g')) ∧
    Forall (λ s, ∃ g0, P g0 ∧ VEGraph.pop_fact g0 = (Some s.1, s.2))
           (VEGraph.elimination_trace fuel g).
Proof.
  intros Hstep. induction fuel as [|fuel IH]; intros g g' Hg Hloop; [done|].
  simpl in *. destruct (VEGraph.pop_fact g) as [[f|] g1] eqn:Hpop.
  - destruct (IH _ _ (Hstep _ _ _ Hg Hpop) Hloop) as [Hend Htr].
    split; [done|]. constructor; [|done]. by exists g.
  - injection Hloop as <-. split; [by exists g|constructor].
Qed.

(** [add_edge] only ever appends to the adjacency lists. *)
Lemma add_edge_lists_mono u w g x :
  successors (get_node g x) ⊆ successors (get_node (add_edge u w g) x) ∧
  predecessors (get_node g x) ⊆ predecessors (get_node (add_edge u w g) x).
Proof.
  split.
  - destruct (add_edge_successors u w g x) as [->|(_ & _ & ->)]; [done|].
    intros z Hz. apply elem_of_app. by left.
  - destruct (add_edge_predecessors u w g x) as [->|(_ & _ & ->)]; [done|].
    intros z Hz. apply elem_of_app. by left.
Qed.

Lemma get_node_valid g f :
  f ∈ facts_of (shape g) →
  nodes g !! var f ≫= (.!! value f) = Some (get_node g f).
Proof.
  intros Hf. apply valid_iff in Hf as [n Hn].
  unfold VEGraph.get_node. by rewrite Hn.
Qed.

(** On two nodes of the graph, a new edge shows in both lists. *)
Lemma add_edge_lists_new u w g :
  u ∈ facts_of (shape g) → w ∈ facts_of (shape g) → (u, w) ∉ edges g →
  w ∈ successors (get_node (add_edge u w g) u) ∧
  u ∈ predecessors (get_node (add_edge u w g) w).
Proof.
  intros Hu Hw Hnew. unfold VEGraph.add_edge.
  rewrite decide_False by done. cbn zeta.
  set (g1 := update_node u (push_successor w) g).
  assert (shape g1 = shape g) as Hs1 by apply shape_update_node.
  assert (∀ h x, get_node (VEGraph.set_edges h g1) x = get_node g1 x)
    as Hse by done.
  assert (∀ h g0 x, get_node (VEGraph.set_edges h g0) x = get_node g0 x)
    as Hany by done.
  rewrite !Hany. split.
  - rewrite (get_node_update_node_field successors); [|done].
    unfold g1. rewrite get_node_update_node, decide_True by done.
    rewrite (get_node_valid g u Hu). simpl. apply elem_of_app. right. by left.
  - rewrite get_node_update_node, decide_True by done.
    rewrite (get_node_valid g1 w) by (by rewrite Hs1). simpl.
    apply elem_of_app. right. by left.
Qed.

Lemma add_edge_edges_listed u w g :
  u ∈ facts_of (shape g) → w ∈ facts_of (shape g) →
  edges_listed g → edges_listed (add_edge u w g).
Proof.
  intros Hu Hw Hg x y. rewrite shape_add_edge, add_edge_edges.
  destruct (decide ((u, w) ∈ edges g)) as [Hin|Hnew].
  { rewrite add_edge_existing by done. intros Hxy. apply Hg.
    apply elem_of_union in Hxy as [Hxy%elem_of_singleton|]; [|done].
    by injection Hxy as -> ->. }
  intros [Hxy%elem_of_singleton|Hxy]%elem_of_union.
  - injection Hxy as -> ->.
    destruct (add_edge_lists_new u w g Hu Hw Hnew). done.
  - destruct (Hg x y Hxy) as (Hx & Hy & Hs & Hp).
    repeat split; [done|done| |].
    + by apply (add_edge_lists_mono u w g x).
    + by apply (add_edge_lists_mono u w g y).
Qed.

Lemma elem_of_new_shortcuts g f i j k :
  (i, j, k) ∈ VEGraph.new_shortcuts g f ↔
  j = f ∧ i ∈ predecessors (get_node g f) ∧ k ∈ successors (get_node g f) ∧
  is_eliminated (get_node g i) = false ∧ is_eliminated (get_node g k) = false ∧
  (i, k) ∉ edges g.
Proof.
  split; [apply new_shortcuts_elem|].
  intros (-> & Hi & Hk & Hfi & Hfk & Hnew). unfold VEGraph.new_shortcuts.
  apply list_elem_of_bind. exists i. split; [|done]. rewrite Hfi.
  apply list_elem_of_bind. exists k. split; [|done]. rewrite Hfk.
  rewrite decide_False by done. by left.
Qed.

(** The shortcuts that one call of [eliminate] computes stand for pairwise
    different edges. *)
Lemma new_shortcuts_NoDup g f :
  adjacency_ok g → NoDup (shortcut_edge <$> VEGraph.new_shortcuts g f).
Proof.
  intros Hadj. destruct (Hadj f) as (Hsucc & Hpred & _).
  apply NoDup_fmap_2_strong.
  - intros [[i j] k] [[i' j'] k'] [-> _]%new_shortcuts_elem
           [-> _]%new_shortcuts_elem. unfold shortcut_edge. simpl. congruence.
  - unfold VEGraph.new_shortcuts. apply NoDup_bind; [| |done].
    + intros p1 p2 [[i j] k] _ _ H1 H2.
      destruct (is_eliminated (get_node g p1)); [by apply elem_of_nil in H1|].
      destruct (is_eliminated (get_node g p2)); [by apply elem_of_nil in H2|].
      apply list_elem_of_bind in H1 as (s1 & H1 & _).
      apply list_elem_of_bind in H2 as (s2 & H2 & _).
      destruct (is_eliminated (get_node g s1)); [by apply elem_of_nil in H1|].
      destruct (is_eliminated (get_node g s2)); [by apply elem_of_nil in H2|].
      repeat case_decide;
        try (by apply elem_of_nil in H1); try (by apply elem_of_nil in H2).
      apply list_elem_of_singleton in H1, H2. congruence.
    + intros p _. destruct (is_eliminated (get_node g p)); [constructor|].
      apply NoDup_bind; [| |done].
      * intros s1 s2 [[i j] k] _ _ H1 H2.
        destruct (is_eliminated (get_node g s1)); [by apply elem_of_nil in H1|].
        destruct (is_eliminated (get_node g s2)); [by apply elem_of_nil in H2|].
        repeat case_decide;
          try (by apply elem_of_nil in H1); try (by apply elem_of_nil in H2).
        apply list_elem_of_singleton in H1, H2. congruence.
      * intros s _. destruct (is_eliminated (get_node g s)); [constructor|].
        case_decide; [constructor|]. apply NoDup_singleton.
Qed.

(** What a run of [add_shortcut] leaves in the edge set and in delta. *)
Lemma foldl_add_shortcut_edges l :
  ∀ g, edges (foldl VEGraph.add_shortcut g l)
       = list_to_set (shortcut_edge <$> l) ∪ edges g ∧
       delta (foldl VEGraph.add_shortcut g l) = delta g ++ l.
Proof.
  induction l as [|[[i j] k] l IH]; intros g; cbn [foldl].
  - rewrite fmap_nil, app_nil_r. split; [|done].
    by rewrite list_to_set_nil, (left_id_L ∅ (∪)).
  - destruct (IH (VEGraph.add_shortcut g (i, j, k))) as [-> ->].
    destruct (add_shortcut_edges g i j k) as (-> & -> & _).
    split; [|by rewrite <-app_assoc].
    rewrite fmap_cons, list_to_set_cons.
    change (shortcut_edge (i, j, k)) with (i, k).
    rewrite (comm_L (∪) {[(i, k)]} (list_to_set _)).
    by rewrite <-(assoc_L (∪)).
Qed.

Lemma add_shortcut_get_node g i j k x :
  get_node (VEGraph.add_shortcut g (i, j, k)) x = get_node (add_edge i k g) x.
Proof. done. Qed.

Lemma edges_listed_ext g g' :
  edges g' = edges g → shape g' = shape g →
  (∀ x, predecessors (get_node g' x) = predecessors (get_node g x) ∧
        successors (get_node g' x) = successors (get_node g x)) →
  edges_listed g → edges_listed g'.
Proof.
  intros He Hs Hl Hg x y. rewrite He, Hs. intros Hxy.
  destruct (Hg x y Hxy) as (? & ? & ? & ?).
  destruct (Hl x) as [_ ->]. destruct (Hl y) as [-> _]. done.
Qed.

(** The shortcuts of a fact never start or end at the fact itself, and
    join nodes of the graph. *)
Lemma new_shortcuts_ends g f i j k :
  adjacency_ok g → edges_listed g →
  (i, j, k) ∈ VEGraph.new_shortcuts g f →
  i ≠ f ∧ k ≠ f ∧ i ∈ facts_of (shape g) ∧ k ∈ facts_of (shape g).
Proof.
  intros Hadj Hlist (-> & Hi & Hk & _ & _ & Hnew)%new_shortcuts_elem.
  destruct (Hadj f) as (_ & _ & Hse & Hpe).
  specialize (Hse k Hk). specialize (Hpe i Hi).
  destruct (Hlist _ _ Hse) as (_ & ? & _).
  destruct (Hlist _ _ Hpe) as (? & _).
  repeat split; try done; intros ->; done.
Qed.

(** What the structural part of [eliminate] keeps and what it changes. *)
Lemma eliminate_core_inv E0 f g :
  graph_inv E0 g →
  graph_inv E0 (eliminate_core f g) ∧
  shape (eliminate_core f g) = shape g ∧
  (∀ x, predecessors (get_node (eliminate_core f g) x)
        = predecessors (get_node g x) ∨ x ∈ successors (get_node g f)) ∧
  (∀ x, successors (get_node g x)
        ⊆ successors (get_node (eliminate_core f g) x)) ∧
  successors (get_node (eliminate_core f g) f) = successors (get_node g f).
Proof.
  intros (Hadj & Hlist & (Hedges & Hnodup & Hnot0) & Hclosed).
  unfold eliminate_core.
  set (g1 := update_node f (set_is_eliminated true) g).
  set (l := VEGraph.new_shortcuts g f).
  destruct (foldl_add_shortcut_edges l g1) as [He2 Hd2].
  assert (edges g1 = edges g ∧ delta g1 = delta g ∧ shape g1 = shape g ∧
          ∀ x, predecessors (get_node g1 x) = predecessors (get_node g x) ∧
               successors (get_node g1 x) = successors (get_node g x))
    as (He1 & Hd1 & Hs1 & Hl1).
  { destruct (mark_eliminated_same f g f) as (? & ? & _).
    repeat split; try done; [apply shape_update_node| |];
      by destruct (mark_eliminated_same f g x) as (_ & _ & _ & ? & ? & _). }
  assert (∀ i j k, (i, j, k) ∈ l →
            j = f ∧ i ∈ predecessors (get_node g f) ∧
            k ∈ successors (get_node g f) ∧ ((i, k) ∉ edges g) ∧
            is_eliminated (get_node g1 i) = false ∧
            is_eliminated (get_node g1 k) = false ∧
            i ∈ facts_of (shape g) ∧ k ∈ facts_of (shape g) ∧ i ≠ f) as Hl.
  { intros i j k Hin.
    destruct (new_shortcuts_ends g f i j k Hadj Hlist Hin)
      as (Hif & Hkf & Hiv & Hkv).
    apply new_shortcuts_elem in Hin as (-> & Hi & Hk & Hfi & Hfk & Hnew).
    unfold g1. rewrite !mark_eliminated_flag.
    rewrite !decide_False by (by intros [? _]). done. }
  set (g2 := foldl VEGraph.add_shortcut g1 l) in *.
  assert (adjacency_ok g2 ∧ edges_listed g2 ∧ shape g2 = shape g ∧
          (∀ x, is_eliminated (get_node g2 x) = is_eliminated (get_node g1 x)) ∧
          (∀ z, is_eliminated (get_node g1 z) = true →
                predecessors (get_node g2 z) = predecessors (get_node g1 z) ∧
                successors (get_node g2 z) = successors (get_node g1 z)) ∧
          (∀ x, predecessors (get_node g2 x) = predecessors (get_node g x) ∨
                x ∈ successors (get_node g f)) ∧
          (∀ x, successors (get_node g x) ⊆ successors (get_node g2 x)) ∧
          successors (get_node g2 f) = successors (get_node g f))
    as (Hadj2 & Hlist2 & Hs2 & Hfl2 & Hsame2 & Hpred2 & Hsucc2 & Hsuccf).
  { apply (foldl_invariant
             (λ g', adjacency_ok g' ∧ edges_listed g' ∧ shape g' = shape g ∧
                (∀ x, is_eliminated (get_node g' x)
                      = is_eliminated (get_node g1 x)) ∧
                (∀ z, is_eliminated (get_node g1 z) = true →
                      predecessors (get_node g' z)
                      = predecessors (get_node g1 z) ∧
                      successors (get_node g' z) = successors (get_node g1 z)) ∧
                (∀ x, predecessors (get_node g' x) = predecessors (get_node g x)
                      ∨ x ∈ successors (get_node g f)) ∧
                (∀ x, successors (get_node g x) ⊆ successors (get_node g' x)) ∧
                successors (get_node g' f) = successors (get_node g f))
             (λ s, s ∈ l)); [| |].
    - split; [by apply mark_eliminated_adjacency_ok|].
      split; [by apply (edges_listed_ext g)|].
      split; [done|]. split; [done|]. split; [done|].
      split; [|split]; [| |by destruct (Hl1 f) as [_ ->]];
        intros x; destruct (Hl1 x) as [Hp Hs]; [by left|by rewrite Hs].
    - by apply Forall_forall.
    - intros g' [[i j] k]
             (Hadj' & Hlist' & Hs' & Hfl' & Hsame' & Hpred' & Hsucc' & Hsuccf')
             Hin.
      destruct (Hl i j k Hin)
        as (-> & Hi & Hk & Hnew & Hfi & Hfk & Hiv & Hkv & Hif).
      destruct (add_shortcut_edges g' i f k) as (He & Hd & _ & Hfl).
      split; [by apply add_shortcut_adjacency_ok|].
      split.
      { apply (edges_listed_ext (add_edge i k g')).
        - by rewrite He, add_edge_edges.
        - by rewrite shape_add_shortcut, shape_add_edge.
        - done.
        - apply add_edge_edges_listed; by rewrite ?Hs'. }
      split; [by rewrite shape_add_shortcut|].
      split; [intros x; destruct (Hfl x) as [-> _]; apply Hfl'|].
      split; [|split; [|split]].
      + intros z Hz. rewrite add_shortcut_get_node.
        destruct (Hsame' z Hz) as [<- <-]. split.
        * destruct (add_edge_predecessors i k g' z) as [->|(_ & -> & _)];
            [done|congruence].
        * destruct (add_edge_successors i k g' z) as [->|(_ & -> & _)];
            [done|congruence].
      + intros x. rewrite add_shortcut_get_node.
        destruct (add_edge_predecessors i k g' x) as [->|(_ & -> & _)];
          [apply Hpred'|by right].
      + intros x. rewrite add_shortcut_get_node.
        etrans; [apply Hsucc'|]. apply add_edge_lists_mono.
      + rewrite add_shortcut_get_node, <-Hsuccf'.
        destruct (add_edge_successors i k g' f) as [->|(_ & -> & _)]; done. }
  split; [|done].
  split; [done|]. split; [done|]. split.
  - (* delta_exact *)
    unfold delta_exact.
    rewrite He2, Hd2, He1, Hd1, fmap_app, list_to_set_app_L.
    split; [|split].
    + rewrite Hedges at 1.
      rewrite (comm_L (∪) (list_to_set (shortcut_edge <$> l))).
      by rewrite (assoc_L (∪)).
    + apply NoDup_app. split; [done|]. split; [|by apply new_shortcuts_NoDup].
      intros e He [[[i j] k] [-> Hin]]%list_elem_of_fmap.
      destruct (Hl i j k Hin) as (_ & _ & _ & Hnew & _). apply Hnew.
      rewrite Hedges. apply elem_of_union_r. by apply elem_of_list_to_set.
    + intros e [He|He]%elem_of_app; [by apply Hnot0|].
      apply list_elem_of_fmap in He as [[[i j] k] [-> Hin]].
      destruct (Hl i j k Hin) as (_ & _ & _ & Hnew & _). intros H0.
      apply Hnew. rewrite Hedges. by apply elem_of_union_l.
  - (* shortcuts_closed *)
    intros z p s Hz Hp Hs Hfp Hfs. rewrite Hfl2 in Hz, Hfp, Hfs.
    destruct (Hsame2 z Hz) as [Ep Es]. rewrite Ep in Hp. rewrite Es in Hs.
    destruct (Hl1 z) as [Ep1 Es1]. rewrite Ep1 in Hp. rewrite Es1 in Hs.
    assert (is_eliminated (get_node g p) = false) as Hfp0.
    { destruct (is_eliminated (get_node g p)) eqn:E; [|done].
      pose proof (mark_eliminated_mono f g p E) as Hm. fold g1 in Hm.
      congruence. }
    assert (is_eliminated (get_node g s) = false) as Hfs0.
    { destruct (is_eliminated (get_node g s)) eqn:E; [|done].
      pose proof (mark_eliminated_mono f g s E) as Hm. fold g1 in Hm.
      congruence. }
    rewrite He2, He1.
    unfold g1 in Hz. rewrite mark_eliminated_flag in Hz.
    case_decide as Hd.
    + destruct Hd as [-> _].
      destruct (decide ((p, s) ∈ edges g)) as [?|Hnew];
        [by apply elem_of_union_r|].
      apply elem_of_union_l, elem_of_list_to_set, list_elem_of_fmap.
      exists (p, f, s). split; [done|]. by apply elem_of_new_shortcuts.
    + apply elem_of_union_r. by apply (Hclosed z).
Qed.

Lemma graph_inv_same_structure E0 g g' :
  same_structure g g' → shape g' = shape g → graph_inv E0 g → graph_inv E0 g'.
Proof.
  intros Hsame Hs (Hadj & Hlist & Hdelta & Hclosed).
  pose proof Hsame as (He & Hd & Hn).
  split; [by apply (same_structure_adjacency_ok _ _ Hsame)|].
  split; [|split].
  - apply (edges_listed_ext g); try done.
    intros x. by destruct (Hn x) as (-> & -> & _).
  - unfold delta_exact. by rewrite He, Hd.
  - intros z p s. rewrite He.
    destruct (Hn z) as (-> & -> & ->).
    destruct (Hn p) as (_ & _ & ->). destruct (Hn s) as (_ & _ & ->).
    apply Hclosed.
Qed.

Lemma eliminate_inv E0 f g :
  graph_inv E0 g → graph_inv E0 (VEGraph.eliminate f g).
Proof.
  intros Hg. destruct (eliminate_core_inv E0 f g Hg) as (Hcore & Hs & _).
  apply (graph_inv_same_structure _ _ _ (eliminate_same_structure f g));
    [|done].
  by rewrite shape_eliminate.
Qed.

Lemma pop_fact_inv E0 g : graph_inv E0 g → graph_inv E0 (VEGraph.pop_fact g).2.
Proof.
  apply graph_inv_same_structure;
    [apply pop_fact_same_structure|apply shape_pop_fact].
Qed.

Lemma shape_construct_task_graph task :
  shape (VEGraph.construct_task_graph (Q := Q) task VEGraph.new)
  = get_variables task.
Proof.
  rewrite <-(shape_prepare (Q := Q) task).
  unfold VEGraph.prepare, VEGraph.initialize_queue.
  rewrite (shape_foldl (λ g f, VEGraph.push_fact f g)); [done|].
  intros; apply shape_push_fact.
Qed.

(** The graph of the task: no delta, no node eliminated, and, when the
    operators only mention facts of the task, every edge in both lists. *)
Lemma construct_task_graph_inv task :
  operators_in_range task →
  graph_inv (edges (VEGraph.construct_task_graph (Q := Q) task VEGraph.new))
            (VEGraph.construct_task_graph (Q := Q) task VEGraph.new) ∧
  delta (VEGraph.construct_task_graph (Q := Q) task VEGraph.new) = [] ∧
  ∀ x, is_eliminated
         (get_node (VEGraph.construct_task_graph (Q := Q) task VEGraph.new) x)
       = false.
Proof.
  intros Hwf.
  destruct (construct_task_graph_ok (Q := Q) task) as [Hadj _].
  assert (edges_listed (VEGraph.construct_task_graph (Q := Q) task VEGraph.new)
          ∧ delta (VEGraph.construct_task_graph (Q := Q) task VEGraph.new) = []
          ∧ ∀ x, is_eliminated
                   (get_node (VEGraph.construct_task_graph (Q := Q) task
                                                           VEGraph.new) x)
                 = false) as (Hlist & Hdelta & Hfl).
  { enough ((edges_listed
               (VEGraph.construct_task_graph (Q := Q) task VEGraph.new) ∧
             shape (VEGraph.construct_task_graph (Q := Q) task VEGraph.new)
             = get_variables task) ∧
            delta (VEGraph.construct_task_graph (Q := Q) task VEGraph.new) = []
            ∧ ∀ x, is_eliminated
                     (get_node (VEGraph.construct_task_graph (Q := Q) task
                                                             VEGraph.new) x)
                   = false) as ((? & _) & ? & ?) by done.
    unfold VEGraph.construct_task_graph.
    apply (foldl_invariant
             (λ g, (edges_listed g ∧ shape g = get_variables task) ∧
                   delta g = [] ∧
                   ∀ x, is_eliminated (get_node g x) = false)
             (λ e : FactPair * FactPair,
                e.1 ∈ all_facts task ∧ e.2 ∈ all_facts task)); [| |].
    - split; [split|split; [done|]].
      + intros x y Hxy. by apply elem_of_empty in Hxy.
      + unfold shape. simpl. rewrite <-list_fmap_compose.
        apply list_eq. intros i. rewrite list_lookup_fmap.
        destruct (get_variables task !! i); simpl; [|done].
        by rewrite length_replicate.
      + intros x. by rewrite get_node_fresh.
    - apply Forall_forall. intros [pre eff] Hin.
      apply list_elem_of_bind in Hin as (op & Hin & Hop).
      apply list_elem_of_bind in Hin as (pre' & Hin & Hpre).
      apply list_elem_of_bind in Hin as (eff' & Hin & Heff).
      apply list_elem_of_singleton in Hin as [= -> ->]. simpl.
      unfold operators_in_range in Hwf. rewrite Forall_forall in Hwf.
      specialize (Hwf op Hop). rewrite Forall_forall in Hwf.
      split; apply Hwf; apply elem_of_app; auto.
    - intros g [pre eff] ((Hlist & Hs) & Hd & Hfl) [Hp He]. simpl in Hp, He.
      case_decide; [|done]. unfold all_facts in Hp, He. rewrite <-Hs in Hp, He.
      split; [split|split].
      + by apply add_edge_edges_listed.
      + by rewrite shape_add_edge.
      + by rewrite add_edge_delta.
      + intros x. by rewrite add_edge_is_eliminated. }
  split; [|done].
  split; [done|]. split; [done|]. split.
  - unfold delta_exact. rewrite Hdelta, fmap_nil, list_to_set_nil.
    split; [by rewrite (right_id_L ∅ (∪))|].
    split; [constructor|]. by intros e ?%elem_of_nil.
  - intros z p s Hz. by rewrite Hfl in Hz.
Qed.

Lemma prepare_inv task :
  operators_in_range task →
  graph_inv (edges (VEGraph.construct_task_graph (Q := Q) task VEGraph.new))
            (VEGraph.prepare (Q := Q) task).
Proof.
  intros Hwf. destruct (construct_task_graph_inv task Hwf) as (Hinv & _).
  unfold VEGraph.prepare.
  apply (graph_inv_same_structure _ _ _
           (initialize_queue_same_structure task _)); [|done].
  change (shape (VEGraph.prepare (Q := Q) task)
          = shape (VEGraph.construct_task_graph (Q := Q) task VEGraph.new)).
  by rewrite shape_prepare, shape_construct_task_graph.
Qed.

(** ** The keys *)

Lemma count_in_degree_same_structure g g' x :
  same_structure g g' →
  VEGraph.count_in_degree g' (get_node g' x)
  = VEGraph.count_in_degree g (get_node g x).
Proof.
  intros (_ & _ & Hn). unfold VEGraph.count_in_degree.
  destruct (Hn x) as (-> & _ & _). f_equal.
  apply filter_ext_elem. intros p _. by destruct (Hn p) as (_ & _ & ->).
Qed.

Lemma repush_is_push g f :
  VEGraph.repush_successor g f = VEGraph.push_fact f g.
Proof.
  unfold VEGraph.repush_successor, VEGraph.push_fact. cbn zeta.
  by destruct (is_eliminated (get_node g f)).
Qed.

(** [push_fact] stores, in the node it is called on, the number of its
    predecessors that are not eliminated. *)
Lemma push_fact_in_degree f g x :
  is_eliminated (get_node g f) = false →
  in_degree (get_node (VEGraph.push_fact f g) x)
  = if decide (x = f) then VEGraph.count_in_degree g (get_node g f)
    else in_degree (get_node g x).
Proof.
  intros Hf. unfold VEGraph.push_fact. cbn zeta. rewrite Hf.
  change (get_node (VEGraph.set_queue ?q ?g0) x) with (get_node g0 x).
  rewrite get_node_update_node. case_decide as Hx; [subst x|done].
  unfold VEGraph.get_node.
  by destruct (nodes g !! var f ≫= (.!! value f)).
Qed.

Lemma foldl_repush_in_degree l :
  ∀ g x,
    is_eliminated (get_node g x) = false →
    in_degree (get_node (foldl VEGraph.repush_successor g l) x)
    = if decide (x ∈ l) then VEGraph.count_in_degree g (get_node g x)
      else in_degree (get_node g x).
Proof.
  induction l as [|a l IH]; intros g x Hx; cbn [foldl].
  - rewrite decide_False; [done|]. by apply not_elem_of_nil.
  - pose proof (repush_successor_same_structure g a) as Hsame.
    pose proof Hsame as (_ & _ & Hn).
    rewrite IH by (destruct (Hn x) as (_ & _ & ->); done).
    rewrite (count_in_degree_same_structure _ _ _ Hsame).
    destruct (decide (x ∈ l)) as [Hin|Hout].
    + rewrite decide_True; [done|]. by right.
    + rewrite repush_is_push.
      destruct (decide (x = a)) as [->|Hne].
      * rewrite decide_True by left.
        by rewrite push_fact_in_degree, decide_True.
      * rewrite decide_False by (by intros [?|?]%elem_of_cons).
        destruct (is_eliminated (get_node g a)) eqn:Ha.
        -- unfold VEGraph.push_fact. cbn zeta. by rewrite Ha.
        -- by rewrite push_fact_in_degree, decide_False.
Qed.

(** The source's remark on [eliminate]: the key "can only change for
    successors of 'fact'", which are pushed again. *)
Lemma eliminate_key_ok E0 f g :
  graph_inv E0 g → key_ok g → key_ok (VEGraph.eliminate f g).
Proof.
  intros Hinv Hkey x Hx.
  destruct (eliminate_core_inv E0 f g Hinv) as (_ & _ & Hpred & Hsucc & _).
  destruct Hinv as (Hadj & Hlist & _ & _).
  destruct (eliminate_core_fields f g) as (_ & Hfields).
  pose proof (eliminate_same_structure f g) as Hsame.
  pose proof Hsame as (_ & _ & Hn).
  rewrite (count_in_degree_same_structure _ _ _ Hsame).
  destruct (Hn x) as (_ & _ & Hflx). rewrite Hflx in Hx.
  change (VEGraph.eliminate f g)
    with (foldl VEGraph.repush_successor (eliminate_core f g)
                (successors (get_node (eliminate_core f g) f))).
  rewrite foldl_repush_in_degree by done.
  case_decide as Hin; [done|].
  destruct (Hfields x) as [Hfx ->].
  assert (x ∉ successors (get_node g f)) as Hout
    by (intros ?; by apply Hin, Hsucc).
  assert (is_eliminated (get_node g x) = false) as Hx0.
  { destruct (is_eliminated (get_node g x)) eqn:E; [|done].
    rewrite Hfx, (mark_eliminated_mono f g x E) in Hx. done. }
  rewrite (Hkey x Hx0). unfold VEGraph.count_in_degree.
  destruct (Hpred x) as [->|?]; [|done]. f_equal.
  apply filter_ext_elem. intros p Hp.
  destruct (Hfields p) as [-> _]. rewrite mark_eliminated_flag.
  rewrite decide_False; [done|]. intros [-> _]. apply Hout.
  destruct (Hadj x) as (_ & _ & _ & Hpe).
  by destruct (Hlist _ _ (Hpe _ Hp)) as (_ & _ & ? & _).
Qed.

Lemma pop_fact_key_ok g : key_ok g → key_ok (VEGraph.pop_fact g).2.
Proof.
  intros Hkey x. rewrite (count_in_degree_same_structure
                            _ _ _ (pop_fact_same_structure g)).
  rewrite pop_fact_get_node. apply Hkey.
Qed.

Lemma prepare_key_ok task : key_ok (VEGraph.prepare (Q := Q) task).
Proof.
  intros x Hx. unfold VEGraph.prepare, VEGraph.initialize_queue in *.
  set (g0 := VEGraph.construct_task_graph (Q := Q) task VEGraph.new) in *.
  assert (∀ l (g : VEGraph.t Q),
            foldl (λ g f, VEGraph.push_fact f g) g l
            = foldl VEGraph.repush_successor g l) as Hfold.
  { induction l as [|a l IH]; intros g; [done|]. cbn [foldl].
    by rewrite IH, repush_is_push. }
  rewrite Hfold in *.
  pose proof (foldl_same_structure VEGraph.repush_successor (all_facts task)
                (repush_successor_same_structure) g0) as Hsame.
  pose proof Hsame as (_ & _ & Hn).
  rewrite (count_in_degree_same_structure _ _ _ Hsame).
  destruct (Hn x) as (_ & _ & Hflx). rewrite Hflx in Hx.
  rewrite foldl_repush_in_degree by done.
  case_decide as Hin; [done|].
  assert (get_node g0 x = new_node) as ->; [|done].
  apply invalid_get_node. rewrite valid_iff.
  unfold g0. by rewrite shape_construct_task_graph.
Qed.

(** ** The order of elimination *)

(** The fact that [pop_fact] returns has the least key among the entries
    that are not stale. *)
Lemma pop_fact_loop_least n :
  ∀ g f g1,
    VEGraph.pop_fact_loop n g = (Some f, g1) →
    ∀ e, e ∈ pq_entries (queue g) → ¬ stale g e →
         in_degree (get_node g f) ≤ e.1.
Proof.
  induction n as [|n IH]; intros g f g1 Hpop e He Hst; [done|].
  simpl in Hpop.
  destruct (pq_pop (queue g)) as [[[k f'] q]|] eqn:Hq; [|done].
  destruct (pq_pop_Some _ _ _ _ Hq) as [Hperm Hleast].
  change (get_node (VEGraph.set_queue q g) f') with (get_node g f') in Hpop.
  case_decide as Hkey.
  - injection Hpop as <- <-. rewrite Hkey. destruct e as [k' x].
    by apply (Hleast k' x).
  - rewrite Hperm in He. apply elem_of_cons in He as [->|He]; [done|].
    by apply (IH _ _ _ Hpop e).
Qed.

Lemma loop_inv_step task E0 g f g1 :
  loop_inv task E0 g → VEGraph.pop_fact g = (Some f, g1) →
  loop_inv task E0 (VEGraph.eliminate f g1).
Proof.
  intros (Hinv & Hkey & Hshape & Hq) Hpop.
  pose proof (pop_fact_inv E0 g Hinv) as Hinv1.
  pose proof (pop_fact_key_ok g Hkey) as Hkey1.
  pose proof (shape_pop_fact g) as Hshape1.
  pose proof (pop_fact_get_node g) as Hnode.
  destruct (pop_fact_spec g) as (dropped & Hstale & Hperm).
  rewrite Hpop in Hinv1, Hkey1, Hshape1, Hnode, Hperm. simpl in *.
  split; [by apply eliminate_inv|].
  split; [by apply (eliminate_key_ok E0)|].
  split; [by rewrite shape_eliminate, Hshape1|].
  intros x Hx. destruct (eliminate_effects f g1) as (Hflag & _ & Hok).
  destruct (decide (x = f)) as [->|Hne].
  - unfold queue_ok. rewrite Hflag, decide_True; [done|].
    split; [done|]. apply valid_iff. by rewrite Hshape1, Hshape.
  - apply Hok; [done|]. unfold queue_ok. rewrite !Hnode. intros Hfl.
    specialize (Hq x Hx Hfl). rewrite Hperm in Hq.
    apply elem_of_app in Hq as [Hin|Hin].
    + rewrite Forall_forall in Hstale. by destruct (Hstale _ Hin).
    + apply elem_of_cons in Hin as [Hin|Hin]; [|done].
      apply pair_equal_spec in Hin as [_ ->]. done.
Qed.

Lemma prepare_loop_inv task :
  operators_in_range task →
  loop_inv task
           (edges (VEGraph.construct_task_graph (Q := Q) task VEGraph.new))
           (VEGraph.prepare (Q := Q) task).
Proof.
  intros Hwf. split; [by apply prepare_inv|].
  split; [apply prepare_key_ok|]. split; [apply shape_prepare|].
  apply prepare_queue_ok.
Qed.

(** The invariant holds of every graph on which the loop pops a fact, and
    its structural part holds of the graph that the loop returns. *)
Lemma make_loop_inv task fuel g :
  operators_in_range task → VEGraph.make fuel task = Some g →
  let E0 := edges (VEGraph.construct_task_graph (Q := Q) task VEGraph.new) in
  (graph_inv E0 g ∧ key_ok g ∧ shape g = get_variables task) ∧
  Forall (λ s, ∃ g0, loop_inv task E0 g0 ∧
                     VEGraph.pop_fact g0 = (Some s.1, s.2))
         (VEGraph.elimination_trace fuel (VEGraph.prepare task)).
Proof.
  intros Hwf Hmake E0.
  destruct (eliminate_loop_invariant (loop_inv task E0) fuel
              (loop_inv_step task E0) _ _ (prepare_loop_inv task Hwf) Hmake)
    as [(g0 & (Hinv & Hkey & Hshape & _) & Hpop) Htr].
  split; [|done].
  pose proof (pop_fact_inv E0 g0 Hinv) as Hinv1.
  pose proof (pop_fact_key_ok g0 Hkey) as Hkey1.
  pose proof (shape_pop_fact g0) as Hshape1.
  rewrite Hpop in Hinv1, Hkey1, Hshape1. simpl in *.
  split; [done|]. split; [done|]. by rewrite Hshape1.
Qed.


(** ** The facts in the queue *)

Lemma push_fact_entries f g e :
  e ∈ pq_entries (queue (VEGraph.push_fact f g)) →
  e ∈ pq_entries (queue g) ∨ e.2 = f.
Proof.
  unfold VEGraph.push_fact. cbn zeta.
  destruct (is_eliminated (get_node g f)); [by left|]. simpl.
  rewrite pq_push_entries. intros [->|He]%elem_of_cons; [by right|by left].
Qed.

Lemma foldl_repush_entries l :
  ∀ g e, e ∈ pq_entries (queue (foldl VEGraph.repush_successor g l)) →
         e ∈ pq_entries (queue g) ∨ e.2 ∈ l.
Proof.
  induction l as [|a l IH]; intros g e; cbn [foldl]; [by left|].
  intros [He|He]%IH; [|right; by right].
  rewrite repush_is_push in He.
  apply push_fact_entries in He as [He|He]; [by left|].
  right. rewrite He. by left.
Qed.

Lemma pop_fact_entries g e :
  e ∈ pq_entries (queue (VEGraph.pop_fact g).2) → e ∈ pq_entries (queue g).
Proof.
  destruct (pop_fact_spec g) as (dropped & _ & Hperm).
  destruct (VEGraph.pop_fact g) as [[f|] g1]; simpl.
  - intros He. rewrite Hperm. apply elem_of_app. right. by right.
  - destruct Hperm as [_ ->]. by intros ?%elem_of_nil.
Qed.

Lemma pop_fact_popped g f g1 :
  VEGraph.pop_fact g = (Some f, g1) →
  (in_degree (get_node g f), f) ∈ pq_entries (queue g).
Proof.
  intros Hpop. destruct (pop_fact_spec g) as (dropped & _ & Hperm).
  rewrite Hpop in Hperm. rewrite Hperm. apply elem_of_app. right. by left.
Qed.

(** The queue only ever holds facts of the task. *)
Lemma queue_in_range_step task E0 g f g1 :
  loop_inv task E0 g →
  (∀ e, e ∈ pq_entries (queue g) → e.2 ∈ all_facts task) →
  VEGraph.pop_fact g = (Some f, g1) →
  ∀ e, e ∈ pq_entries (queue (VEGraph.eliminate f g1)) → e.2 ∈ all_facts task.
Proof.
  intros ((Hadj & Hlist & Hrest) & _ & Hshape & _) Hq Hpop e.
  pose proof (pop_fact_entries g) as Hsub.
  pose proof (pop_fact_get_node g) as Hnode.
  rewrite Hpop in Hsub, Hnode. simpl in Hsub, Hnode.
  change (VEGraph.eliminate f g1)
    with (foldl VEGraph.repush_successor (eliminate_core f g1)
                (successors (get_node (eliminate_core f g1) f))).
  intros [He|He]%foldl_repush_entries.
  - destruct (eliminate_core_fields f g1) as (Hqueue & _).
    rewrite Hqueue in He. by apply Hq, Hsub.
  - pose proof (pop_fact_inv E0 g) as Hinv1. rewrite Hpop in Hinv1.
    simpl in Hinv1.
    assert (graph_inv E0 g1) as Hg1 by (apply Hinv1; by split).
    destruct (eliminate_core_inv E0 f g1 Hg1)
      as ((Hadj2 & Hlist2 & _) & Hs2 & _).
    destruct (Hadj2 f) as (_ & _ & Hse & _).
    destruct (Hlist2 _ _ (Hse _ He)) as (_ & Hv & _).
    unfold all_facts. rewrite <-Hshape, <-(shape_pop_fact g), Hpop. simpl.
    by rewrite <-Hs2.
Qed.

End graph_more.

(** ** The graph: theorems *)

Section graph_theorems.
Context {Q : Type} `{!PriorityQueue Q}.
Implicit Types g : VEGraph.t Q.

Local Abbreviation get_node := VEGraph.get_node.
Local Abbreviation edges := VEGraph.edges.
Local Abbreviation delta := VEGraph.delta.

Lemma construct_task_graph_delta task :
  delta (VEGraph.construct_task_graph (Q := Q) task VEGraph.new) = [].
Proof.
  unfold VEGraph.construct_task_graph.
  apply (foldl_invariant (λ g, delta g = []) (λ _, True)); [done| |].
  - by apply Forall_forall.
  - intros g [pre eff] Hg _. case_decide; [|done]. by rewrite add_edge_delta.
Qed.

(** X1: [construct_task_graph] builds exactly the edges that the operators give
    rise to: an edge from [p] to [q] for every operator with precondition
    [p] and a different effect [q], and nothing else; no fact has an edge to
    itself and no shortcut is recorded. *)
Theorem task_graph_has_exactly_the_task_edges (task : TaskProxy) :
  let g0 := VEGraph.construct_task_graph (Q := Q) task VEGraph.new in
  (∀ p q, (p, q) ∈ edges g0 ↔ task_edge task p q) ∧
  (∀ p, (p, p) ∉ edges g0) ∧
  delta g0 = [].
Proof.
  intros g0.
  assert (∀ p q, (p, q) ∈ edges g0 ↔ task_edge task p q) as Hiff.
  { intros p q. split; [|apply construct_task_graph_edges].
    intros Hin. destruct (construct_task_graph_ok (Q := Q) task) as [_ [_ He]].
    destruct (He p q Hin) as [?|[v Hv]]; [done|].
    fold g0 in Hv. unfold g0 in Hv.
    rewrite construct_task_graph_delta in Hv. by apply elem_of_nil in Hv. }
  split; [done|]. split; [|apply construct_task_graph_delta].
  intros p Hp. apply Hiff in Hp as (op & _ & _ & _ & Hne). done.
Qed.

(** X3: the two representations of the graph agree, on every graph that the
    constructor passes to [eliminate] and on the one it returns: for a task
    whose operators mention facts of the task only, [nodes] keeps one row
    per variable and one node per value, an edge joins two facts of the
    task, and a pair is in the edge set exactly when the successor list of
    its source shows its target, and exactly when the predecessor list of
    its target shows its source. *)
Theorem adjacency_lists_mirror_edge_set (task : TaskProxy) (fuel : nat)
    (g : VEGraph.t Q) :
  operators_in_range task →
  VEGraph.make fuel task = Some g →
  ∀ g', g' = g ∨ g' ∈ (VEGraph.elimination_trace fuel (VEGraph.prepare task)).*2 →
    shape g' = get_variables task ∧
    ∀ x y,
      ((x, y) ∈ edges g' ↔ y ∈ successors (get_node g' x)) ∧
      ((x, y) ∈ edges g' ↔ x ∈ predecessors (get_node g' y)) ∧
      ((x, y) ∈ edges g' → x ∈ all_facts task ∧ y ∈ all_facts task).
Proof.
  intros Hwf Hmake g' Hg'.
  destruct (make_loop_inv task fuel g Hwf Hmake) as [(Hinv & _ & Hshape) Htr].
  assert (adjacency_ok g' ∧ edges_listed g' ∧ shape g' = get_variables task)
    as (Hadj & Hlist & Hs).
  { destruct Hg' as [->|Hin]; [by destruct Hinv as (? & ? & _)|].
    apply list_elem_of_fmap in Hin as ([f g1] & -> & Hin).
    rewrite Forall_forall in Htr.
    destruct (Htr _ Hin) as (g0 & ((Hi & _ & Hs0 & _) & Hpop)).
    pose proof (pop_fact_inv _ g0 Hi) as (? & ? & _).
    pose proof (shape_pop_fact g0) as Hs1.
    rewrite Hpop in *. simpl in *. by rewrite Hs1. }
  split; [done|]. intros x y. destruct (Hadj x) as (_ & _ & Hse & _).
  destruct (Hadj y) as (_ & _ & _ & Hpe).
  split; [|split].
  - split; [|apply Hse]. intros Hin. by destruct (Hlist _ _ Hin) as (_ & _ & ? & _).
  - split; [|apply Hpe]. intros Hin. by destruct (Hlist _ _ Hin) as (_ & _ & _ & ?).
  - intros Hin. destruct (Hlist _ _ Hin) as (Hx & Hy & _).
    unfold all_facts. by rewrite <-Hs.
Qed.

(** X5: the edge set that the constructor returns is the edge set of the task
    graph plus one edge per triple of delta: no two triples stand for the
    same edge and none stands for an edge of the task, so that the number
    of edges is the number of edges of the task graph plus the length of
    delta. *)
Theorem edges_are_task_edges_plus_delta (task : TaskProxy) (fuel : nat)
    (g : VEGraph.t Q) :
  operators_in_range task →
  VEGraph.make fuel task = Some g →
  let E0 := edges (VEGraph.construct_task_graph (Q := Q) task VEGraph.new) in
  edges g = E0 ∪ list_to_set (shortcut_edge <$> delta g) ∧
  NoDup (shortcut_edge <$> delta g) ∧
  (∀ i j k, (i, j, k) ∈ delta g → ¬ task_edge task i k) ∧
  size (edges g) = size E0 + length (delta g).
Proof.
  intros Hwf Hmake E0.
  destruct (make_loop_inv task fuel g Hwf Hmake)
    as [((_ & _ & (He & Hnd & Hnot) & _) & _) _]. fold E0 in He, Hnot.
  split; [done|]. split; [done|]. split.
  - intros i j k Hin Ht. apply (Hnot (i, k)).
    + apply list_elem_of_fmap. by exists (i, j, k).
    + by apply construct_task_graph_edges.
  - rewrite He, size_union, size_list_to_set, length_fmap; [done|done|].
    intros e H0 Hd%elem_of_list_to_set. by apply (Hnot e).
Qed.

(** X8: when the loop passes to [eliminate] a fact that is eliminated already,
    the call changes no node, no edge and no triple: it only pushes
    entries. *)
Theorem repeated_elimination_changes_no_node (task : TaskProxy) (fuel : nat)
    (g : VEGraph.t Q) :
  operators_in_range task →
  VEGraph.make fuel task = Some g →
  ∀ f g1,
    (f, g1) ∈ VEGraph.elimination_trace fuel (VEGraph.prepare task) →
    is_eliminated (get_node g1 f) = true →
    VEGraph.new_shortcuts g1 f = [] ∧
    edges (VEGraph.eliminate f g1) = edges g1 ∧
    delta (VEGraph.eliminate f g1) = delta g1 ∧
    ∀ x, get_node (VEGraph.eliminate f g1) x = get_node g1 x.
Proof.
  intros Hwf Hmake f g1 Hin Hf.
  destruct (make_loop_inv task fuel g Hwf Hmake) as [_ Htr].
  rewrite Forall_forall in Htr.
  destruct (Htr _ Hin) as (g0 & ((Hi & Hk & _) & Hpop)).
  pose proof (pop_fact_inv _ g0 Hi) as Hinv.
  pose proof (pop_fact_key_ok g0 Hk) as Hkey.
  rewrite Hpop in Hinv, Hkey. simpl in Hinv, Hkey.
  destruct (Hinv) as (Hadj & Hlist & _ & Hclosed).
  assert (VEGraph.new_shortcuts g1 f = []) as Hnil.
  { destruct (VEGraph.new_shortcuts g1 f) as [|[[i j] k] l] eqn:E; [done|].
    assert ((i, j, k) ∈ VEGraph.new_shortcuts g1 f) as Hs
      by (rewrite E; left).
    apply new_shortcuts_elem in Hs as (-> & Hp & Hs & Hfp & Hfs & Hnew).
    destruct Hnew. by apply (Hclosed f). }
  pose proof (eliminate_same_structure f g1) as (He & Hd & Hn).
  assert (eliminate_core f g1
          = VEGraph.update_node f (set_is_eliminated true) g1) as Hcore
    by (unfold eliminate_core; by rewrite Hnil).
  rewrite Hcore in He, Hd, Hn.
  destruct (mark_eliminated_same f g1 f) as (He1 & Hd1 & _).
  split; [done|]. split; [congruence|]. split; [congruence|].
  intros x. destruct (Hn x) as (Hp & Hs & Hfl).
  destruct (mark_eliminated_same f g1 x) as (_ & _ & _ & Hp1 & Hs1 & Hi1).
  assert (is_eliminated (get_node (VEGraph.eliminate f g1) x)
          = is_eliminated (get_node g1 x)) as Hflx.
  { rewrite Hfl, mark_eliminated_flag. case_decide as Hc; [|done].
    destruct Hc as [-> _]. by rewrite Hf. }
  assert (in_degree (get_node (VEGraph.eliminate f g1) x)
          = in_degree (get_node g1 x)) as Hdeg.
  { destruct (is_eliminated (get_node g1 x)) eqn:Hx.
    - change (VEGraph.eliminate f g1)
        with (foldl VEGraph.repush_successor (eliminate_core f g1)
                (successors (get_node (eliminate_core f g1) f))).
      rewrite Hcore.
      generalize (successors
                    (get_node (VEGraph.update_node f (set_is_eliminated true) g1)
                              f)).
      assert (is_eliminated
                (get_node (VEGraph.update_node f (set_is_eliminated true) g1) x)
              = true) as Hx1 by (by apply mark_eliminated_mono).
      rewrite <-Hi1. revert Hx1.
      generalize (VEGraph.update_node f (set_is_eliminated true) g1).
      intros g2 Hx2 l. revert g2 Hx2.
      induction l as [|a l IH]; intros g2 Hx2; [done|]. cbn [foldl].
      rewrite IH.
      + rewrite repush_is_push. unfold VEGraph.push_fact. cbn zeta.
        destruct (is_eliminated (get_node g2 a)) eqn:Ha; [done|].
        change (get_node (VEGraph.set_queue ?q ?g0) x) with (get_node g0 x).
        rewrite get_node_update_node, decide_False; [done|].
        intros ->. congruence.
      + destruct (repush_successor_same_structure g2 a) as (_ & _ & Hn2).
        destruct (Hn2 x) as (_ & _ & ->). done.
    - pose proof (eliminate_key_ok _ f g1 Hinv Hkey x) as Hk1.
      rewrite Hflx in Hk1. rewrite (Hk1 eq_refl), (Hkey x Hx).
      unfold VEGraph.count_in_degree. rewrite Hp, Hp1. f_equal.
      apply filter_ext_elem. intros p _.
      destruct (Hn p) as (_ & _ & ->). rewrite mark_eliminated_flag.
      case_decide as Hc; [|done]. destruct Hc as [-> _]. by rewrite Hf. }
  destruct (get_node (VEGraph.eliminate f g1) x) as [p1 s1 f1 d1],
           (get_node g1 x) as [p2 s2 f2 d2]. simpl in *. congruence.
Qed.

(** X7: the constructor eliminates by least in-degree: a fact that the loop
    eliminates for the first time carries as key the number of its
    predecessors that are not eliminated, and no fact of the task that is
    not eliminated has fewer such predecessors. *)
Theorem elimination_follows_least_in_degree (task : TaskProxy) (fuel : nat)
    (g : VEGraph.t Q) :
  operators_in_range task →
  VEGraph.make fuel task = Some g →
  ∀ f g1,
    (f, g1) ∈ VEGraph.elimination_trace fuel (VEGraph.prepare task) →
    is_eliminated (get_node g1 f) = false →
    in_degree (get_node g1 f) = VEGraph.count_in_degree g1 (get_node g1 f) ∧
    ∀ x, x ∈ all_facts task → is_eliminated (get_node g1 x) = false →
         VEGraph.count_in_degree g1 (get_node g1 f)
         ≤ VEGraph.count_in_degree g1 (get_node g1 x).
Proof.
  intros Hwf Hmake f g1 Hin Hf.
  destruct (make_loop_inv task fuel g Hwf Hmake) as [_ Htr].
  rewrite Forall_forall in Htr.
  destruct (Htr _ Hin) as (g0 & ((_ & Hk & _ & Hq) & Hpop)).
  pose proof (pop_fact_key_ok g0 Hk) as Hkey.
  pose proof (pop_fact_get_node g0) as Hnode.
  rewrite Hpop in Hkey, Hnode. simpl in Hkey, Hnode.
  split; [by apply Hkey|]. intros x Hx Hfx.
  rewrite <-(Hkey f Hf), <-(Hkey x Hfx), !Hnode.
  rewrite Hnode in Hfx.
  apply (pop_fact_loop_least _ g0 f g1 Hpop (in_degree (get_node g0 x), x)).
  - by apply Hq.
  - intros Hst. by apply Hst.
Qed.

(** X6: the keys are kept up to date: on every graph that the loop passes to
    [eliminate], and after the call, the key stored in a node that is not
    eliminated is the number of its predecessors that are not eliminated.
    As the source remarks, the call changes this number for successors of
    the eliminated fact only: for any other node that is not eliminated,
    neither the key nor the number changes. *)
Theorem keys_count_live_predecessors (task : TaskProxy) (fuel : nat)
    (g : VEGraph.t Q) :
  operators_in_range task →
  VEGraph.make fuel task = Some g →
  ∀ f g1,
    (f, g1) ∈ VEGraph.elimination_trace fuel (VEGraph.prepare task) →
    key_ok g1 ∧ key_ok (VEGraph.eliminate f g1) ∧
    ∀ x, x ∉ successors (get_node g1 f) →
         is_eliminated (get_node (VEGraph.eliminate f g1) x) = false →
         in_degree (get_node (VEGraph.eliminate f g1) x)
         = in_degree (get_node g1 x) ∧
         VEGraph.count_in_degree (VEGraph.eliminate f g1)
                                 (get_node (VEGraph.eliminate f g1) x)
         = VEGraph.count_in_degree g1 (get_node g1 x).
Proof.
  intros Hwf Hmake f g1 Hin.
  destruct (make_loop_inv task fuel g Hwf Hmake) as [_ Htr].
  rewrite Forall_forall in Htr.
  destruct (Htr _ Hin) as (g0 & ((Hi & Hk & _) & Hpop)).
  pose proof (pop_fact_inv _ g0 Hi) as Hinv.
  pose proof (pop_fact_key_ok g0 Hk) as Hkey.
  rewrite Hpop in Hinv, Hkey. simpl in Hinv, Hkey.
  pose proof (eliminate_key_ok _ f g1 Hinv Hkey) as Hkey'.
  split; [done|]. split; [done|]. intros x Hx Hfx.
  assert (in_degree (get_node (VEGraph.eliminate f g1) x)
          = in_degree (get_node g1 x)) as Hdeg.
  { destruct (eliminate_core_inv _ f g1 Hinv) as (_ & _ & _ & _ & Hsuccf).
    destruct (eliminate_core_fields f g1) as (_ & Hfields).
    destruct (eliminate_same_structure f g1) as (_ & _ & Hn).
    change (VEGraph.eliminate f g1)
      with (foldl VEGraph.repush_successor (eliminate_core f g1)
                  (successors (get_node (eliminate_core f g1) f))).
    rewrite foldl_repush_in_degree
      by (destruct (Hn x) as (_ & _ & <-); done).
    rewrite Hsuccf, decide_False by done. by destruct (Hfields x) as [_ ->]. }
  split; [done|]. rewrite <-(Hkey' x Hfx), Hdeg. apply Hkey.
  destruct (is_eliminated (get_node g1 x)) eqn:E; [|done].
  destruct (eliminate_effects f g1) as (Hflag & _).
  rewrite Hflag in Hfx. case_decide; [done|congruence].
Qed.


Lemma construct_task_graph_queue task :
  VEGraph.elimination_queue
    (VEGraph.construct_task_graph (Q := Q) task VEGraph.new) = pq_new.
Proof.
  unfold VEGraph.construct_task_graph.
  apply (foldl_invariant (λ g, VEGraph.elimination_queue g = pq_new)
                         (λ _, True)); [done| |].
  - by apply Forall_forall.
  - intros g [pre eff] Hg _. case_decide; [|done]. by rewrite add_edge_queue.
Qed.

Lemma initialize_queue_is_repush task g :
  VEGraph.initialize_queue task g
  = foldl VEGraph.repush_successor g (all_facts task).
Proof.
  unfold VEGraph.initialize_queue. revert g.
  induction (all_facts task) as [|a l IH]; intros g; [done|].
  cbn [foldl]. by rewrite IH, repush_is_push.
Qed.

(** X4: the constructor stays within the task: when the operators only mention
    facts of the task, every fact that the loop passes to [eliminate] is a
    fact of the task, and so is every fact in the queue and in the
    adjacency lists at that point, and every fact of a triple of delta in
    the end. No access to [nodes] is out of range. *)
Theorem elimination_stays_within_the_task (task : TaskProxy) (fuel : nat)
    (g : VEGraph.t Q) :
  operators_in_range task →
  VEGraph.make fuel task = Some g →
  (∀ f g1,
     (f, g1) ∈ VEGraph.elimination_trace fuel (VEGraph.prepare task) →
     f ∈ all_facts task ∧
     (∀ e, e ∈ pq_entries (VEGraph.elimination_queue g1) →
           e.2 ∈ all_facts task) ∧
     (∀ x y, y ∈ predecessors (get_node g1 x) ∨ y ∈ successors (get_node g1 x) →
             x ∈ all_facts task ∧ y ∈ all_facts task)) ∧
  (∀ i j k, (i, j, k) ∈ delta g →
            i ∈ all_facts task ∧ j ∈ all_facts task ∧ k ∈ all_facts task).
Proof.
  intros Hwf Hmake.
  set (E0 := edges (VEGraph.construct_task_graph (Q := Q) task VEGraph.new)).
  destruct (eliminate_loop_invariant
              (λ g0, loop_inv task E0 g0 ∧
                     ∀ e, e ∈ pq_entries (VEGraph.elimination_queue g0) →
                          e.2 ∈ all_facts task)
              fuel) with (g := VEGraph.prepare (Q := Q) task) (g' := g)
    as [(g0 & [((_ & Hlist & _) & _ & Hshape & _) _] & Hpop) Htr].
  - intros g0 f g1 [Hinv Hq] Hpop. split.
    + by eapply loop_inv_step.
    + by eapply queue_in_range_step.
  - split; [by apply prepare_loop_inv|].
    unfold VEGraph.prepare. rewrite initialize_queue_is_repush.
    intros e [He|He]%foldl_repush_entries; [|done].
    rewrite construct_task_graph_queue, pq_new_entries in He.
    by apply elem_of_nil in He.
  - done.
  - split.
    + intros f g1 Hin. rewrite Forall_forall in Htr.
      destruct (Htr _ Hin)
        as (g2 & [((Hadj2 & Hlist2 & _) & _ & Hshape2 & _) Hq2] & Hpop2).
      simpl in Hpop2.
      pose proof (pop_fact_get_node g2) as Hnode.
      pose proof (pop_fact_entries g2) as Hsub.
      rewrite Hpop2 in Hnode, Hsub. simpl in Hnode, Hsub.
      split; [apply (Hq2 _ (pop_fact_popped _ _ _ Hpop2))|].
      split; [intros e He; by apply Hq2, Hsub|].
      intros x y. rewrite Hnode. unfold all_facts. rewrite <-Hshape2.
      destruct (Hadj2 x) as (_ & _ & Hse & Hpe).
      intros [Hy|Hy].
      * by destruct (Hlist2 _ _ (Hpe _ Hy)) as (? & ? & _).
      * by destruct (Hlist2 _ _ (Hse _ Hy)) as (? & ? & _).
    + intros i j k Hin.
      destruct (make_ok task fuel g Hmake) as (_ & [Hdelta _] & _).
      destruct (Hdelta i j k Hin) as (Hij & Hjk & _).
      pose proof (pop_fact_same_structure g0) as (He & _).
      pose proof (shape_pop_fact g0) as Hs.
      rewrite Hpop in He, Hs. simpl in He, Hs.
      rewrite He in Hij, Hjk. unfold all_facts. rewrite <-Hshape.
      destruct (Hlist _ _ Hij) as (? & ? & _).
      destruct (Hlist _ _ Hjk) as (_ & ? & _). done.
Qed.

(** X2: [initialize_queue] pushes every fact of the task once, with the number
    of its predecessors in the task graph as key, and stores that key in
    the node of the fact: the queue on which the loop starts holds these
    entries and no other. *)
Theorem initial_queue_holds_every_fact_once (task : TaskProxy) :
  let g0 := VEGraph.construct_task_graph (Q := Q) task VEGraph.new in
  pq_entries (VEGraph.elimination_queue (VEGraph.prepare (Q := Q) task))
  ≡ₚ (λ f, (length (predecessors (get_node g0 f)), f)) <$> all_facts task ∧
  ∀ f, f ∈ all_facts task →
       in_degree (get_node (VEGraph.prepare (Q := Q) task) f)
       = length (predecessors (get_node g0 f)).
Proof.
  intros g0.
  assert (∀ x, is_eliminated (get_node g0 x) = false) as Hfl.
  { intros x. rewrite <-(prepare_not_eliminated (Q := Q) task x).
    unfold VEGraph.prepare.
    destruct (initialize_queue_same_structure task g0) as (_ & _ & Hn).
    destruct (Hn x) as (_ & _ & Hx). symmetry. exact Hx. }
  assert (∀ (g : VEGraph.t Q),
            (∀ x, is_eliminated (get_node g x) = false) →
            ∀ x, VEGraph.count_in_degree g (get_node g x)
                 = length (predecessors (get_node g x))) as Hcount.
  { intros g Hg x. unfold VEGraph.count_in_degree.
    induction (predecessors (get_node g x)) as [|p l IH]; [done|].
    rewrite filter_cons, decide_True by apply Hg. simpl. by rewrite IH. }
  split.
  - unfold VEGraph.prepare, VEGraph.initialize_queue. fold g0.
    assert (∀ l (g : VEGraph.t Q),
              (∀ x, is_eliminated (get_node g x) = false) →
              pq_entries (VEGraph.elimination_queue
                            (foldl (λ g f, VEGraph.push_fact f g) g l))
              ≡ₚ ((λ f, (length (predecessors (get_node g f)), f)) <$> l)
                 ++ pq_entries (VEGraph.elimination_queue g)) as Hpush.
    { induction l as [|a l IH]; intros g Hg; [done|]. cbn [foldl].
      pose proof (push_fact_same_structure a g) as (_ & _ & Hn).
      rewrite IH by (intros x; destruct (Hn x) as (_ & _ & ->); apply Hg).
      rewrite fmap_cons.
      rewrite (list_fmap_ext _ (λ f, (length (predecessors (get_node g f)), f))
                             l)
        by (intros i x _; by destruct (Hn x) as (-> & _)).
      unfold VEGraph.push_fact at 1. cbn zeta. rewrite Hg. simpl.
      rewrite pq_push_entries, Hcount by done.
      by rewrite Permutation_middle. }
    rewrite (Hpush _ g0 Hfl).
    unfold g0. rewrite construct_task_graph_queue, pq_new_entries.
    by rewrite app_nil_r.
  - intros f Hf.
    rewrite (prepare_key_ok task f (prepare_not_eliminated task f)).
    rewrite Hcount by apply prepare_not_eliminated.
    destruct (initialize_queue_same_structure task g0) as (_ & _ & Hn).
    destruct (Hn f) as (Hp & _). f_equal. exact Hp.
Qed.

End graph_theorems.

(** ** The model, step by step *)

Section model_more.
Context {Q : Type} `{!PriorityQueue Q}.
Implicit Types gen : DeleteRelaxationConstraintsRR.

Lemma create_auxiliary_variables_columns opts task vars (g : VEGraph.t Q) :
  ∃ table fm em,
    create_auxiliary_variables (new_DeleteRelaxationConstraintsRR opts) task vars g
    = (mkRR (opt_use_time_vars opts) (opt_use_integer_vars opts) table [] fm em [],
       vars ++ replicate (length (all_facts task) + length (op_effects task)
                          + size (VEGraph.edges g))
                         (mkLPVariable (Finite 0) (Finite 1) 0
                                       (opt_use_integer_vars opts))) ∧
    (∀ i f, all_facts task !! i = Some f → lookup2 table f = length vars + i) ∧
    (∀ k, k ∈ f_maps_to_keys task → is_Some (fm !! k)) ∧
    (∀ k id, fm !! k = Some id →
             ∃ i, f_maps_to_keys task !! i = Some k ∧
                  id = length vars + length (all_facts task) + i) ∧
    (∀ e id, em !! e = Some id ↔
             ∃ i, elements (VEGraph.edges g) !! i = Some e ∧
                  id = length vars + length (all_facts task)
                       + length (op_effects task) + i).
Proof.
  set (gen := new_DeleteRelaxationConstraintsRR opts).
  unfold create_auxiliary_variables.
  pose proof (add_f_defined_spec gen (get_variables task)
                (length (get_variables task)) vars (le_n _)) as (F1 & _ & _ & F4).
  unfold create_f_defined. simpl. rewrite resize_nil.
  destruct (foldl (add_f_defined gen) _ (imap pair (get_variables task)))
    as [table vars1]. simpl in F1, F4.
  unfold create_f_maps_to. simpl.
  pose proof (add_aux_variables_spec gen (f_maps_to_keys task)
                ∅ vars1) as (M1 & _ & M3 & M4 & _).
  unfold f_maps_to_keys in M1, M3, M4 |- *.
  destruct (foldl (add_aux_variable gen) (∅, vars1) _) as [fm vars2].
  simpl in M1, M3, M4. rewrite length_fmap in M1.
  unfold create_edge_order. simpl.
  pose proof (add_aux_variables_spec gen (elements (VEGraph.edges g))
                ∅ vars2) as (E1 & _ & _ & E4 & E5).
  unfold VEGraph.get_edges.
  destruct (foldl (add_aux_variable gen) (∅, vars2) _) as [em vars3].
  simpl in E1, E4, E5.
  assert (length vars1 = length vars + length (all_facts task)) as L1
    by (subst vars1; by rewrite length_app, length_replicate).
  assert (length vars2 = length vars + length (all_facts task)
                         + length (op_effects task)) as L2
    by (subst vars2; rewrite length_app, length_replicate; lia).
  exists table, fm, em. split; [|split; [|split; [|split]]].
  - unfold with_var_ids. simpl. f_equal. subst vars3 vars2 vars1.
    rewrite !replicate_add, <-!app_assoc. reflexivity.
  - done.
  - done.
  - intros k id Hk. rewrite <-L1.
    destruct (M4 _ _ Hk) as [?|?]; done.
  - intros e id. rewrite <-L2. split.
    + intros Hid. destruct (E4 _ _ Hid) as [?|?]; done.
    + intros (i & Hi & ->). apply E5; [apply NoDup_elements|done|done].
Qed.



(** ** Loops that may throw *)

Lemma foldlM_invariant {A B} (P : A → Prop) (f : A → B → Res A) (l : list B) :
  (∀ a b a', b ∈ l → P a → f a b = Ok a' → P a') →
  ∀ a a', P a → foldlM f a l = Ok a' → P a'.
Proof.
  induction l as [|b l IH]; intros Hstep a a' Ha; simpl.
  - by intros [= <-].
  - destruct (f a b) as [a1|] eqn:Hf; [simpl|done].
    apply IH.
    + intros a0 b0 a0' Hb0. apply Hstep. by right.
    + eapply Hstep; [by left|done|done].
Qed.

Lemma collectM_Forall {A B} (P : B → Prop) (f : A → Res (list B)) (l : list A) :
  (∀ a bs, a ∈ l → f a = Ok bs → Forall P bs) →
  ∀ rows, collectM f l = Ok rows → Forall P rows.
Proof.
  induction l as [|a l IH]; intros Hf rows; simpl.
  - intros [= <-]. constructor.
  - destruct (f a) as [bs|] eqn:Ha; [simpl|done].
    destruct (collectM f l) as [bs'|] eqn:Hl; [simpl|done].
    intros [= <-]. apply Forall_app. split.
    + apply (Hf a); [by left|done].
    + apply IH; [|done]. intros a0 bs0 Ha0. apply Hf. by right.
Qed.

Lemma collectM_length {A B} (f : A → Res (list B)) (l : list A) :
  (∀ a bs, a ∈ l → f a = Ok bs → length bs = 1) →
  ∀ rows, collectM f l = Ok rows → length rows = length l.
Proof.
  induction l as [|a l IH]; intros Hf rows; simpl.
  - by intros [= <-].
  - destruct (f a) as [bs|] eqn:Ha; [simpl|done].
    destruct (collectM f l) as [bs'|] eqn:Hl; [simpl|done].
    intros [= <-]. rewrite length_app.
    assert (length bs' = length l) as ->
      by (apply IH; [intros a0 bs0 Ha0; apply Hf; by right|done]).
    rewrite (Hf a bs); [done|by left|done].
Qed.

Lemma collectM_fmap {A B} (f : A → Res (list B)) (h : A → B) (l : list A) :
  (∀ a bs, a ∈ l → f a = Ok bs → bs = [h a]) →
  ∀ rows, collectM f l = Ok rows → rows = h <$> l.
Proof.
  induction l as [|a l IH]; intros Hf rows; simpl.
  - by intros [= <-].
  - destruct (f a) as [bs|] eqn:Ha; [simpl|done].
    destruct (collectM f l) as [bs'|] eqn:Hl; [simpl|done].
    intros [= <-]. rewrite (Hf a bs); [|by left|done].
    assert (bs' = h <$> l) as ->; [|done].
    apply IH; [|done]. intros a0 bs0 Ha0. apply Hf. by right.
Qed.

(** A loop throws what one of its iterations throws. *)
Lemma collectM_Throw {A B} (f : A → Res (list B)) (l : list A) e :
  collectM f l = Throw e → ∃ a, a ∈ l ∧ f a = Throw e.
Proof.
  induction l as [|a l IH]; simpl; [done|].
  destruct (f a) as [bs|e'] eqn:Ha; simpl.
  - destruct (collectM f l) as [bs'|e'] eqn:Hl; simpl; [done|].
    intros [= ->]. destruct IH as (a0 & ? & ?); [done|].
    exists a0. split; [by right|done].
  - intros [= ->]. exists a. split; [by left|done].
Qed.


(** ** The rows, family by family *)

Lemma get_var_f_maps_to_Ok gen eff op_id id :
  get_var_f_maps_to gen eff op_id = Ok id ↔
  lp_var_id_f_maps_to gen !! (var eff, value eff, op_id) = Some id.
Proof.
  unfold get_var_f_maps_to.
  destruct (lp_var_id_f_maps_to gen !! _); split; congruence.
Qed.

Lemma edge_at_Ok gen e id :
  edge_at gen e = Ok id ↔ lp_var_id_edge gen !! e = Some id.
Proof.
  unfold edge_at. destruct (lp_var_id_edge gen !! _); split; congruence.
Qed.

Lemma columns_in_range_insert N id z c :
  id < N → columns_in_range N c → columns_in_range N (con_insert id z c).
Proof.
  intros Hid Hc. unfold columns_in_range, con_insert. simpl.
  apply Forall_app. split; [done|]. by constructor.
Qed.

Lemma columns_in_range_new N lower upper :
  columns_in_range N (new_constraint lower upper).
Proof. constructor. Qed.

Lemma Forall_alter_insert N id z i (cs : list LPConstraint) :
  id < N → Forall (columns_in_range N) cs →
  Forall (columns_in_range N) (alter (con_insert id z) i cs).
Proof.
  intros Hid Hcs. apply Forall_alter; [done|].
  intros c _. by apply columns_in_range_insert.
Qed.

Lemma constraint2_terms_facts gen task table cs cs2 n N :
  constraint2_terms gen task table cs = Ok cs2 →
  length cs2 = length cs ∧
  ((∀ id eff, (id, eff) ∈ op_effects task → n ≤ lookup2 table eff) →
   take n cs2 = take n cs) ∧
  ((∀ k id, lp_var_id_f_maps_to gen !! k = Some id → id < N) →
   Forall (columns_in_range N) cs → Forall (columns_in_range N) cs2).
Proof.
  unfold constraint2_terms. intros Hfold. split; [|split].
  - revert Hfold.
    apply (foldlM_invariant (λ cs', length cs' = length cs)); [|done].
    intros a [id eff] a' _ Ha. unfold constraint2_term.
    destruct (get_var_f_maps_to gen eff id); [simpl|done].
    intros [= <-]. by rewrite length_alter.
  - intros Hrows. revert Hfold.
    apply (foldlM_invariant (λ cs', take n cs' = take n cs)); [|done].
    intros a [id eff] a' Hin Ha. unfold constraint2_term.
    destruct (get_var_f_maps_to gen eff id); [simpl|done].
    intros [= <-]. rewrite take_alter_ge; [done|]. by eapply Hrows.
  - intros Hfm Hcs. revert Hfold.
    apply (foldlM_invariant (Forall (columns_in_range N))); [|done].
    intros a [id eff] a' _ Ha. unfold constraint2_term.
    destruct (get_var_f_maps_to gen eff id) as [m|] eqn:Hm; [simpl|done].
    intros [= <-]. apply Forall_alter_insert; [|done].
    apply get_var_f_maps_to_Ok in Hm. by eapply Hfm.
Qed.


(** One iteration of the loops of constraint (3). *)
Lemma constraint3_step_cases gen ids cs op_id eff pre ids' cs' :
  constraint3_step gen (ids, cs) (op_id, eff, pre) = Ok (ids', cs') →
  (pre = eff ∧ ids' = ids ∧ cs' = cs) ∨
  (pre ≠ eff ∧ ∃ m,
     get_var_f_maps_to gen eff op_id = Ok m ∧
     ((∃ v, ids !! (pre, eff) = Some v ∧ ids' = ids ∧
            cs' = alter (con_insert m (-1)) v cs) ∨
      (ids !! (pre, eff) = None ∧ ids' = <[(pre, eff) := length cs]> ids ∧
       cs' = alter (con_insert m (-1)) (length cs)
               (cs ++ [con_insert (get_var_f_defined gen pre) 1
                         (new_constraint (Finite 0) (Finite 1))])))).
Proof.
  unfold constraint3_step. case_decide as Hpe.
  - intros [= <- <-]. by left.
  - intros Hstep. right. split; [done|].
    destruct (ids !! (pre, eff)) as [v|] eqn:Hv.
    + rewrite Hv in Hstep. simpl in Hstep.
      destruct (get_var_f_maps_to gen eff op_id) as [m|]; [simpl in *|done].
      injection Hstep as <- <-. exists m. split; [done|]. left. by exists v.
    + rewrite lookup_insert_eq in Hstep. simpl in Hstep.
      destruct (get_var_f_maps_to gen eff op_id) as [m|]; [simpl in *|done].
      injection Hstep as <- <-. exists m. split; [done|]. by right.
Qed.

Lemma constraint3_keys_registered gen l :
  ∀ acc acc',
    foldlM (constraint3_step gen) acc l = Ok acc' →
    (∀ k, k ∈ dom acc.1 → k ∈ dom acc'.1) ∧
    ∀ x, x ∈ l → x.2 ≠ x.1.2 → (x.2, x.1.2) ∈ dom acc'.1.
Proof.
  induction l as [|[[op_id eff] pre] l IH]; intros [ids cs] [ids' cs'];
    cbn [foldlM].
  - intros [= <- <-]. split; [done|]. by intros x ?%elem_of_nil.
  - destruct (constraint3_step gen (ids, cs) (op_id, eff, pre))
      as [[ids1 cs1]|] eqn:Hstep; [cbn [mbind Res_bind]|done].
    intros Hfold. destruct (IH _ _ Hfold) as [Hmono Hreg]. simpl in *.
    apply constraint3_step_cases in Hstep
      as [(-> & -> & ->)|(Hne & m & _ & [(v & Hv & -> & ->)|(Hv & -> & ->)])].
    + split; [done|]. intros x [->|Hx]%elem_of_cons Hx2; [done|by apply Hreg].
    + split; [done|]. intros x [->|Hx]%elem_of_cons Hx2; [|by apply Hreg].
      simpl. apply Hmono. by apply elem_of_dom_2 in Hv.
    + split.
      * intros k Hk. apply Hmono. rewrite dom_insert_L.
        by apply elem_of_union_r.
      * intros x [->|Hx]%elem_of_cons Hx2; [|by apply Hreg].
        simpl. apply Hmono. rewrite dom_insert_L.
        apply elem_of_union_l. by apply elem_of_singleton.
Qed.

Lemma constraint3_fold_facts gen task cs2 ids cs3 n N :
  foldlM (constraint3_step gen) (∅, cs2) (op_eff_pre task) = Ok (ids, cs3) →
  n ≤ length cs2 →
  length cs3 = length cs2 + size ids ∧
  take n cs3 = take n cs2 ∧
  dom ids = list_to_set (constraint3_keys task) ∧
  ((∀ k id, lp_var_id_f_maps_to gen !! k = Some id → id < N) →
   (∀ x, x ∈ op_eff_pre task → get_var_f_defined gen x.2 < N) →
   Forall (columns_in_range N) cs2 → Forall (columns_in_range N) cs3).
Proof.
  intros Hfold Hn.
  set (K := list_to_set (constraint3_keys task) : gset (FactPair * FactPair)).
  assert (length cs3 = length cs2 + size ids ∧
          (∀ k v, ids !! k = Some v → n ≤ v) ∧
          take n cs3 = take n cs2 ∧ dom ids ⊆ K ∧
          ((∀ k id, lp_var_id_f_maps_to gen !! k = Some id → id < N) →
           (∀ x, x ∈ op_eff_pre task → get_var_f_defined gen x.2 < N) →
           Forall (columns_in_range N) cs2 → Forall (columns_in_range N) cs3))
    as (Hlen & _ & Htake & Hsub & Hcols).
  { revert Hfold.
    apply (foldlM_invariant
             (λ acc : gmap (FactPair * FactPair) nat * list LPConstraint,
                length acc.2 = length cs2 + size acc.1 ∧
                (∀ k v, acc.1 !! k = Some v → n ≤ v) ∧
                take n acc.2 = take n cs2 ∧ dom acc.1 ⊆ K ∧
                ((∀ k id, lp_var_id_f_maps_to gen !! k = Some id → id < N) →
                 (∀ x, x ∈ op_eff_pre task → get_var_f_defined gen x.2 < N) →
                 Forall (columns_in_range N) cs2 →
                 Forall (columns_in_range N) acc.2))).
    - intros [ids0 cs0] [[op_id eff] pre] [ids1 cs1] Hin
             (Hl0 & Hv0 & Ht0 & Hd0 & Hc0) Hstep. simpl in *.
      apply constraint3_step_cases in Hstep
        as [(-> & -> & ->)|(Hne & m & Hm & [(v & Hv & -> & ->)|(Hv & -> & ->)])].
      + done.
      + rewrite length_alter. split; [done|]. split; [done|].
        split; [rewrite take_alter_ge; [done|by eapply Hv0]|].
        split; [done|]. intros Hfm Hfd Hcs. apply Forall_alter_insert.
        * apply get_var_f_maps_to_Ok in Hm. by eapply Hfm.
        * by apply Hc0.
      + rewrite length_alter, length_app, map_size_insert_None by done.
        simpl. split; [lia|]. split; [|split; [|split]].
        * intros k v. destruct (decide (k = (pre, eff))) as [->|Hk].
          -- rewrite lookup_insert_eq. intros [= <-]. lia.
          -- rewrite lookup_insert_ne by done. apply Hv0.
        * rewrite take_alter_ge by lia. rewrite take_app_le by lia. done.
        * rewrite dom_insert_L. apply union_subseteq. split; [|done].
          apply singleton_subseteq_l. unfold K, constraint3_keys.
          apply elem_of_list_to_set, list_elem_of_fmap.
          exists (op_id, eff, pre). split; [done|].
          by apply list_elem_of_filter.
        * intros Hfm Hfd Hcs. apply Forall_alter_insert.
          -- apply get_var_f_maps_to_Ok in Hm. by eapply Hfm.
          -- apply Forall_app. split; [by apply Hc0|]. constructor; [|done].
             apply columns_in_range_insert;
               [apply (Hfd _ Hin)|apply columns_in_range_new].
    - simpl. rewrite map_size_empty, dom_empty_L.
      split; [lia|]. split; [by intros k v ?|]. split; [done|].
      split; [apply empty_subseteq|]. by intros _ _ ?. }
  split; [done|]. split; [done|]. split; [|done].
  apply (anti_symm (⊆)); [done|].
  intros k Hk. unfold K, constraint3_keys in Hk.
  apply elem_of_list_to_set, list_elem_of_fmap in Hk as (x & -> & Hx).
  apply list_elem_of_filter in Hx as [Hx2 Hx].
  by apply (constraint3_keys_registered _ _ _ _ Hfold).
Qed.

Lemma constraint3_facts gen task cs2 cs3 n N :
  constraint3 gen task cs2 = Ok cs3 → n ≤ length cs2 →
  length cs3
  = length cs2
    + size (list_to_set (constraint3_keys task) : gset (FactPair * FactPair)) ∧
  take n cs3 = take n cs2 ∧
  ((∀ k id, lp_var_id_f_maps_to gen !! k = Some id → id < N) →
   (∀ x, x ∈ op_eff_pre task → get_var_f_defined gen x.2 < N) →
   Forall (columns_in_range N) cs2 → Forall (columns_in_range N) cs3).
Proof.
  unfold constraint3. intros Hres Hn.
  destruct (foldlM (constraint3_step gen) (∅, cs2) (op_eff_pre task))
    as [[ids cs3']|] eqn:Hfold; [simpl in Hres|done].
  injection Hres as ->.
  destruct (constraint3_fold_facts _ _ _ _ _ n N Hfold Hn)
    as (Hlen & Htake & Hdom & Hcols).
  split; [|by split]. by rewrite Hlen, <-Hdom, size_dom.
Qed.


Lemma elem_of_op_effects task id eff :
  (id, eff) ∈ op_effects task ↔
  ∃ op, get_operators task !! id = Some op ∧ eff ∈ get_effects op.
Proof.
  unfold op_effects, indexed_operators. split.
  - intros ([i op] & Hin & Hop)%list_elem_of_bind.
    apply list_elem_of_bind in Hin as (e & Hin & He).
    apply list_elem_of_singleton in Hin. injection Hin as -> ->.
    apply list_elem_of_lookup in Hop as [n Hn].
    apply list_lookup_imap_Some in Hn as (op' & Hop' & [= -> ->]).
    by exists op'.
  - intros (op & Hop & He). apply list_elem_of_bind. exists (id, op).
    split; [|by apply (elem_of_lookup_imap_2 pair)].
    apply list_elem_of_bind. exists eff. split; [by left|done].
Qed.

Lemma elem_of_op_eff_pre_iff task id eff pre :
  (id, eff, pre) ∈ op_eff_pre task ↔
  ∃ op, get_operators task !! id = Some op ∧
        pre ∈ get_preconditions op ∧ eff ∈ get_effects op.
Proof.
  unfold op_eff_pre, indexed_operators. split.
  - intros ([i op] & Hin & Hop)%list_elem_of_bind.
    apply list_elem_of_bind in Hin as (e & Hin & He).
    apply list_elem_of_bind in Hin as (p & Hin & Hp).
    apply list_elem_of_singleton in Hin. injection Hin as -> -> ->.
    apply list_elem_of_lookup in Hop as [n Hn].
    apply list_lookup_imap_Some in Hn as (op' & Hop' & [= -> ->]).
    by exists op'.
  - intros (op & Hop & Hp & He). apply list_elem_of_bind. exists (id, op).
    split; [|by apply (elem_of_lookup_imap_2 pair)].
    apply list_elem_of_bind. exists eff. split; [|done].
    apply list_elem_of_bind. exists pre. split; [by left|done].
Qed.

Lemma elem_of_op_pre_eff_iff task id pre eff :
  (id, pre, eff) ∈ op_pre_eff task ↔
  ∃ op, get_operators task !! id = Some op ∧
        pre ∈ get_preconditions op ∧ eff ∈ get_effects op.
Proof.
  unfold op_pre_eff, indexed_operators. split.
  - intros ([i op] & Hin & Hop)%list_elem_of_bind.
    apply list_elem_of_bind in Hin as (p & Hin & Hp).
    apply list_elem_of_bind in Hin as (e & Hin & He).
    apply list_elem_of_singleton in Hin. injection Hin as -> -> ->.
    apply list_elem_of_lookup in Hop as [n Hn].
    apply list_lookup_imap_Some in Hn as (op' & Hop' & [= -> ->]).
    by exists op'.
  - intros (op & Hop & Hp & He). apply list_elem_of_bind. exists (id, op).
    split; [|by apply (elem_of_lookup_imap_2 pair)].
    apply list_elem_of_bind. exists pre. split; [|done].
    apply list_elem_of_bind. exists eff. split; [by left|done].
Qed.

(** Constraint (3) looks for one row per edge of the task graph. *)
Lemma constraint3_keys_are_task_edges task :
  (list_to_set (constraint3_keys task) : gset (FactPair * FactPair))
  = VEGraph.edges (VEGraph.construct_task_graph (Q := Q) task VEGraph.new).
Proof.
  apply set_eq. intros [p q]. rewrite elem_of_list_to_set.
  unfold constraint3_keys. rewrite list_elem_of_fmap. split.
  - intros ([[id eff] pre] & [= -> ->] & [Hne Hin]%list_elem_of_filter).
    simpl in Hne. apply elem_of_op_eff_pre_iff in Hin as (op & Hop & Hp & He).
    apply construct_task_graph_edges. exists op.
    split; [by eapply list_elem_of_lookup_2|done].
  - intros Hin.
    destruct (construct_task_graph_ok (Q := Q) task) as [_ [_ He]].
    destruct (He p q Hin) as [(op & Hop & Hp & Hq & Hne)|[v Hv]].
    + apply list_elem_of_lookup in Hop as [id Hid].
      exists (id, q, p). split; [done|]. apply list_elem_of_filter.
      split; [done|]. apply elem_of_op_eff_pre_iff. by exists op.
    + rewrite construct_task_graph_delta in Hv. by apply elem_of_nil in Hv.
Qed.

Lemma constraint5_facts gen task rows N :
  constraint5 gen task = Ok rows →
  length rows = length (op_effects task) ∧
  ((∀ k id, lp_var_id_f_maps_to gen !! k = Some id → id < N) →
   length (get_operators task) ≤ N →
   Forall (columns_in_range N) rows).
Proof.
  unfold constraint5. intros Hrows. split.
  - revert Hrows. apply collectM_length.
    intros [id eff] bs _. unfold constraint5_row.
    destruct (get_var_f_maps_to gen eff id); [simpl|done]. by intros [= <-].
  - intros Hfm Hops. revert Hrows. apply collectM_Forall.
    intros [id eff] bs Hin. unfold constraint5_row.
    destruct (get_var_f_maps_to gen eff id) as [m|] eqn:Hm; [simpl|done].
    intros [= <-]. constructor; [|done].
    apply columns_in_range_insert; [|apply columns_in_range_insert].
    + apply elem_of_op_effects in Hin as (op & Hop%lookup_lt_Some & _). lia.
    + apply get_var_f_maps_to_Ok in Hm. by eapply Hfm.
    + apply columns_in_range_new.
Qed.


Lemma constraint6_facts gen task rows N :
  constraint6 gen task = Ok rows →
  length rows = length (op_pre_eff task) ∧
  ((∀ k id, lp_var_id_f_maps_to gen !! k = Some id → id < N) →
   (∀ e id, lp_var_id_edge gen !! e = Some id → id < N) →
   Forall (columns_in_range N) rows).
Proof.
  unfold constraint6. intros Hrows. split.
  - revert Hrows. apply collectM_length.
    intros [[id pre] eff] bs _. unfold constraint6_row.
    destruct (edge_at gen (pre, eff)); [simpl|done].
    destruct (get_var_f_maps_to gen eff id); [simpl|done]. by intros [= <-].
  - intros Hfm Hem. revert Hrows. apply collectM_Forall.
    intros [[id pre] eff] bs Hin. unfold constraint6_row.
    destruct (edge_at gen (pre, eff)) as [n|] eqn:Hn; [simpl|done].
    destruct (get_var_f_maps_to gen eff id) as [m|] eqn:Hm; [simpl|done].
    intros [= <-]. constructor; [|done].
    apply columns_in_range_insert; [|apply columns_in_range_insert].
    + apply get_var_f_maps_to_Ok in Hm. by eapply Hfm.
    + apply edge_at_Ok in Hn. by eapply Hem.
    + apply columns_in_range_new.
Qed.

Lemma constraint7_facts gen (g : VEGraph.t Q) rows N :
  (∀ e, e ∈ VEGraph.edges g ↔ is_Some (lp_var_id_edge gen !! e)) →
  constraint7 gen g = Ok rows →
  rows = row7 gen <$> filter (λ e, (e.2, e.1) ∈ VEGraph.edges g)
                             (elements (VEGraph.edges g)) ∧
  ((∀ e id, lp_var_id_edge gen !! e = Some id → id < N) →
   Forall (columns_in_range N) rows).
Proof.
  intros Hem. unfold constraint7, VEGraph.get_edges.
  rewrite constraint7_rows by (intros e He%elem_of_elements; by apply Hem).
  intros [= <-].
  rewrite (filter_ext_elem (λ e, is_Some (lp_var_id_edge gen !! (e.2, e.1)))
                           (λ e, (e.2, e.1) ∈ VEGraph.edges g))
    by (intros e _; symmetry; apply Hem).
  split; [done|]. intros Hrange. apply Forall_fmap, Forall_forall.
  intros e [Hrev He%elem_of_elements]%list_elem_of_filter.
  apply Hem in Hrev as [rid Hrid]. apply Hem in He as [id Hid].
  unfold compose, row7, edge_id. rewrite Hrid, Hid. simpl.
  apply columns_in_range_insert; [|apply columns_in_range_insert].
  - by eapply Hrange.
  - by eapply Hrange.
  - apply columns_in_range_new.
Qed.

Lemma constraint8_facts gen (g : VEGraph.t Q) rows N :
  constraint8 gen g = Ok rows →
  length rows = length (VEGraph.delta g) ∧
  ((∀ e id, lp_var_id_edge gen !! e = Some id → id < N) →
   Forall (columns_in_range N) rows).
Proof.
  unfold constraint8, VEGraph.get_delta. intros Hrows. split.
  - revert Hrows. apply collectM_length.
    intros [[i j] k] bs _. unfold constraint8_row.
    destruct (edge_at gen (i, j)); [simpl|done].
    destruct (edge_at gen (j, k)); [simpl|done].
    destruct (edge_at gen (i, k)); [simpl|done]. by intros [= <-].
  - intros Hem. revert Hrows. apply collectM_Forall.
    intros [[i j] k] bs _. unfold constraint8_row.
    destruct (edge_at gen (i, j)) as [n1|] eqn:H1; [simpl|done].
    destruct (edge_at gen (j, k)) as [n2|] eqn:H2; [simpl|done].
    destruct (edge_at gen (i, k)) as [n3|] eqn:H3; [simpl|done].
    intros [= <-]. constructor; [|done].
    apply edge_at_Ok in H1, H2, H3.
    repeat (apply columns_in_range_insert; [by eapply Hem|]).
    apply columns_in_range_new.
Qed.

(** What a successful [initialize_constraints] went through. *)
Lemma initialize_constraints_inv fuel opts task lp gen' lp' :
  initialize_constraints (Q := Q) fuel
    (new_DeleteRelaxationConstraintsRR opts) task lp = Some (Ok (gen', lp')) →
  ∃ (g : VEGraph.t Q) cs2 cs3 rows5 rows6 rows7 rows8,
    VEGraph.make fuel task = Some g ∧
    (∀ i f, all_facts task !! i = Some f →
            get_var_f_defined gen' f = length (variables lp) + i) ∧
    (∀ k, k ∈ f_maps_to_keys task → is_Some (lp_var_id_f_maps_to gen' !! k)) ∧
    (∀ k id, lp_var_id_f_maps_to gen' !! k = Some id →
             ∃ i, f_maps_to_keys task !! i = Some k ∧
                  id = length (variables lp) + length (all_facts task) + i) ∧
    (∀ e id, lp_var_id_edge gen' !! e = Some id ↔
             ∃ i, elements (VEGraph.edges g) !! i = Some e ∧
                  id = length (variables lp) + length (all_facts task)
                       + length (op_effects task) + i) ∧
    (∀ i f, all_facts task !! i = Some f →
            get_constraint_id gen' f = length (constraints lp) + i) ∧
    constraint2_terms gen' task (lp_con_id_f_defined gen')
      (constraints lp ++ (row2 gen' <$> all_facts task)) = Ok cs2 ∧
    constraint3 gen' task cs2 = Ok cs3 ∧
    constraint5 gen' task = Ok rows5 ∧
    constraint6 gen' task = Ok rows6 ∧
    constraint7 gen' g = Ok rows7 ∧
    constraint8 gen' g = Ok rows8 ∧
    lp' = mkLP (constraint4 gen' task
                  (variables lp
                   ++ replicate (length (all_facts task)
                                 + length (op_effects task)
                                 + size (VEGraph.edges g))
                                (mkLPVariable (Finite 0) (Finite 1) 0
                                              (opt_use_integer_vars opts))))
               (cs3 ++ rows5 ++ rows6 ++ rows7 ++ rows8).
Proof.
  unfold initialize_constraints.
  destruct (VEGraph.make fuel task) as [g|]; [simpl|done].
  destruct (create_auxiliary_variables_columns opts task (variables lp) g)
    as (table & fm & em & -> & Htable & Hfm1 & Hfm2 & Hem).
  set (gen := mkRR _ _ table [] fm em []). set (vars1 := variables lp ++ _).
  unfold create_constraints.
  pose proof (constraint2_var_spec gen (get_variables task)
                (resize (length (get_variables task)) []
                        (lp_con_id_f_defined gen)) (constraints lp))
    as (R1 & R2 & R3); [by rewrite length_resize|].
  unfold constraint2_rows.
  destruct (foldl (constraint2_var gen) _ (imap pair (get_variables task)))
    as [ctable cs]. simpl in R1, R2, R3.
  set (gen2 := with_con_ids gen ctable).
  destruct (constraint2_terms gen2 task ctable cs) as [cs2|] eqn:H2;
    [cbn [mbind Res_bind]|done].
  destruct (constraint3 gen2 task cs2) as [cs3|] eqn:H3;
    [cbn [mbind Res_bind]|done].
  destruct (constraint5 gen2 task) as [rows5|] eqn:H5;
    [cbn [mbind Res_bind]|done].
  destruct (constraint6 gen2 task) as [rows6|] eqn:H6;
    [cbn [mbind Res_bind]|done].
  destruct (constraint7 gen2 g) as [rows7|] eqn:H7;
    [cbn [mbind Res_bind]|done].
  destruct (constraint8 gen2 g) as [rows8|] eqn:H8;
    [cbn [mbind Res_bind]|done].
  intros [= <- <-].
  exists g, cs2, cs3, rows5, rows6, rows7, rows8.
  subst cs.
  split; [done|]. split; [exact Htable|]. split; [exact Hfm1|].
  split; [exact Hfm2|]. split; [exact Hem|]. split; [exact R3|].
  split; [exact H2|]. split; [exact H3|]. split; [exact H5|].
  split; [exact H6|]. split; [exact H7|]. split; [exact H8|]. done.
Qed.



(** ** The row of a fact in constraint (2) *)

Lemma with_achievers_spec ids c :
  con_lower_bound (with_achievers ids c) = con_lower_bound c ∧
  con_upper_bound (with_achievers ids c) = con_upper_bound c ∧
  con_variables (with_achievers ids c) = con_variables c ++ ids ∧
  con_coefficients (with_achievers ids c)
  = con_coefficients c ++ replicate (length ids) (-1)%Z.
Proof.
  unfold with_achievers. revert c.
  induction ids as [|id ids IH]; intros c; cbn [foldl].
  - by rewrite !app_nil_r.
  - destruct (IH (con_insert id (-1) c)) as (-> & -> & -> & ->).
    simpl. by rewrite <-!app_assoc.
Qed.

Lemma list_omap_ext_elem {A B} (f1 f2 : A → option B) (l : list A) :
  (∀ x, x ∈ l → f1 x = f2 x) → omap f1 l = omap f2 l.
Proof.
  intros Hf. apply list_omap_ext. apply Forall2_same_length_lookup.
  split; [done|]. intros i x y Hx Hy. rewrite Hx in Hy. injection Hy as <-.
  apply Hf. by eapply list_elem_of_lookup_2.
Qed.

(** The second loop of constraint (2), seen from one row. *)
Lemma constraint2_terms_row gen table l :
  ∀ cs cs2 r,
    foldlM (constraint2_term gen table) cs l = Ok cs2 →
    cs2 !! r
    = with_achievers
        (omap (λ x : nat * FactPair,
                 if decide (lookup2 table x.2 = r)
                 then lp_var_id_f_maps_to gen !! (var x.2, value x.2, x.1)
                 else None) l)
        <$> cs !! r.
Proof.
  induction l as [|[op_id eff] l IH]; intros cs cs2 r; cbn [foldlM].
  - intros [= <-]. by destruct (cs !! r).
  - destruct (constraint2_term gen table cs (op_id, eff)) as [cs1|] eqn:Hstep;
      cbn [mbind Res_bind]; [|done].
    unfold constraint2_term in Hstep.
    destruct (get_var_f_maps_to gen eff op_id) as [m|] eqn:Hm;
      cbn [mbind Res_bind] in Hstep; [|done].
    injection Hstep as <-.
    apply get_var_f_maps_to_Ok in Hm. intros Hfold.
    rewrite (IH _ _ r Hfold). cbn [omap list_omap fst snd].
    destruct (decide (lookup2 table eff = r)) as [<-|Hne].
    + rewrite list_lookup_alter_eq, Hm.
      by destruct (cs !! lookup2 table eff).
    + by rewrite list_lookup_alter_ne.
Qed.


(** ** The rows of constraint (3) *)

Lemma with_achievers_cons id ids c :
  with_achievers (id :: ids) c = with_achievers ids (con_insert id (-1) c).
Proof. done. Qed.

Lemma constraint3_rows gen l :
  ∀ ids cs ids' cs',
    foldlM (constraint3_step gen) (ids, cs) l = Ok (ids', cs') →
    (∀ k v, ids !! k = Some v → v < length cs) →
    (∀ k1 k2 v, ids !! k1 = Some v → ids !! k2 = Some v → k1 = k2) →
    (∀ k1 k2 v, ids' !! k1 = Some v → ids' !! k2 = Some v → k1 = k2) ∧
    ∀ k v, ids' !! k = Some v →
      (∀ v0, ids !! k = Some v0 →
             v0 = v ∧
             cs' !! v
             = with_achievers (achiever_columns_under gen l k) <$> cs !! v) ∧
      (ids !! k = None →
       length cs ≤ v ∧
       cs' !! v
       = Some (with_achievers (achiever_columns_under gen l k) (row3 gen k))).
Proof.
  induction l as [|[[op_id eff] pre] l IH]; intros ids cs ids' cs';
    cbn [foldlM].
  - intros [= <- <-] Hlt Hinj. split; [done|]. intros k v Hk. split.
    + intros v0 Hv0. rewrite Hk in Hv0. injection Hv0 as <-.
      split; [done|]. by destruct (cs !! v).
    + intros Hnone. congruence.
  - destruct (constraint3_step gen (ids, cs) (op_id, eff, pre))
      as [[ids1 cs1]|] eqn:Hstep; cbn [mbind Res_bind]; [|done].
    intros Hfold Hlt Hinj. unfold achiever_columns_under.
    cbn [omap list_omap fst snd].
    fold (achiever_columns_under gen l).
    apply constraint3_step_cases in Hstep
      as [(-> & -> & ->)|(Hne & m & Hm & [(v1 & Hv1 & -> & ->)|(Hv1 & -> & ->)])].
    + destruct (IH _ _ _ _ Hfold Hlt Hinj) as [Hinj' Hrows].
      split; [done|]. intros k v Hk.
      rewrite decide_False by (by intros [? _]). by apply Hrows.
    + apply get_var_f_maps_to_Ok in Hm.
      destruct (IH _ _ _ _ Hfold) as [Hinj' Hrows]; [|done|].
      { intros k v Hk. rewrite length_alter. by eapply Hlt. }
      split; [done|]. intros k v Hk. destruct (Hrows k v Hk) as [Hold Hnew].
      destruct (decide (pre ≠ eff ∧ (pre, eff) = k)) as [[_ <-]|Hk0].
      * rewrite Hm. split; [|congruence].
        intros v0 Hv0. destruct (Hold v0 Hv0) as [<- ->].
        split; [done|]. rewrite Hv1 in Hv0. injection Hv0 as <-.
        rewrite list_lookup_alter_eq. by destruct (cs !! v1).
      * split.
        -- intros v0 Hv0. destruct (Hold v0 Hv0) as [<- ->].
           split; [done|]. rewrite list_lookup_alter_ne; [done|].
           intros <-. apply Hk0. split; [done|]. by eapply Hinj.
        -- intros Hnone. destruct (Hnew Hnone) as [Hle ->].
           by rewrite length_alter in Hle.
    + apply get_var_f_maps_to_Ok in Hm.
      assert (alter (con_insert m (-1)) (length cs)
                (cs ++ [con_insert (get_var_f_defined gen pre) 1
                          (new_constraint (Finite 0) (Finite 1))])
              = cs ++ [con_insert m (-1) (row3 gen (pre, eff))]) as Hcs1.
      { apply list_eq. intros j.
        destruct (decide (j = length cs)) as [->|Hj].
        - rewrite list_lookup_alter_eq, !lookup_app_r by done.
          by rewrite Nat.sub_diag.
        - rewrite list_lookup_alter_ne by done.
          destruct (decide (j < length cs)).
          + by rewrite !lookup_app_l by done.
          + rewrite !lookup_app_r by lia.
            by destruct (j - length cs) as [|[|?]] eqn:E; [lia|..]. }
      rewrite Hcs1 in Hfold.
      destruct (IH _ _ _ _ Hfold) as [Hinj' Hrows].
      { intros k v. rewrite length_app. simpl.
        destruct (decide (k = (pre, eff))) as [->|Hk].
        - rewrite lookup_insert_eq. intros [= <-]. lia.
        - rewrite lookup_insert_ne by done. intros Hk'%Hlt. lia. }
      { intros k1 k2 v.
        destruct (decide (k1 = (pre, eff))) as [->|Hk1],
                 (decide (k2 = (pre, eff))) as [->|Hk2]; [done|..].
        - rewrite lookup_insert_eq, lookup_insert_ne by done.
          intros [= <-] Hk'%Hlt. lia.
        - rewrite lookup_insert_eq, lookup_insert_ne by done.
          intros Hk'%Hlt [= <-]. lia.
        - rewrite !lookup_insert_ne by done. apply Hinj. }
      split; [done|]. intros k v Hk. destruct (Hrows k v Hk) as [Hold Hnew].
      destruct (decide (pre ≠ eff ∧ (pre, eff) = k)) as [[_ <-]|Hk0].
      * rewrite Hm. split; [congruence|]. intros _.
        destruct (Hold (length cs)) as [<- ->];
          [by rewrite lookup_insert_eq|].
        split; [done|]. rewrite lookup_app_r by done.
        by rewrite Nat.sub_diag.
      * assert (k ≠ (pre, eff)) as Hk1 by (intros ->; by apply Hk0).
        rewrite lookup_insert_ne in Hold, Hnew by done. split.
        -- intros v0 Hv0. destruct (Hold v0 Hv0) as [<- ->].
           split; [done|]. rewrite lookup_app_l; [done|]. by eapply Hlt.
        -- intros Hnone. destruct (Hnew Hnone) as [Hle ->].
           rewrite length_app in Hle. simpl in Hle. split; [lia|done].
Qed.

(** ** The update, call after call *)

Lemma update_constraints_tracked task gen lp_solver state :
  (∀ f1 f2, f1 ∈ all_facts task → f2 ∈ all_facts task →
            get_constraint_id gen f1 = get_constraint_id gen f2 → f1 = f2) →
  tracked task (gen, lp_solver) → state_in_range task state →
  tracked task ((update_constraints gen state lp_solver).1.2,
                (update_constraints gen state lp_solver).2).
Proof.
  intros Hinj [Hlast Hrows] Hstate. simpl in Hlast, Hrows.
  destruct (update_constraints_spec gen state lp_solver)
    as (lp_solver' & -> & _ & Hrows').
  unfold state_in_range in Hstate. unfold tracked. simpl.
  split; [done|]. intros f Hf.
  change (get_constraint_id (with_last_state gen (state_facts state)) f)
    with (get_constraint_id gen f).
  destruct (Hrows f Hf) as (c & Hc & Hlo & Hup).
  rewrite Hrows', Hc. simpl.
  assert (∀ fs, Forall (λ f, f ∈ all_facts task) fs →
                get_constraint_id gen f ∈ rows_of gen fs ↔ f ∈ fs) as Hmem.
  { intros fs Hfs. unfold rows_of. rewrite list_elem_of_fmap. split.
    - intros (f' & Heq & Hf'). rewrite Forall_forall in Hfs.
      by rewrite (Hinj f f' Hf (Hfs _ Hf') Heq).
    - intros Hin. by exists f. }
  eexists. split; [done|].
  destruct (decide (f ∈ state_facts state)) as [Hin|Hout].
  - rewrite decide_True by (by apply Hmem). done.
  - rewrite decide_False by (by rewrite Hmem).
    destruct (decide (f ∈ last_state gen)) as [Hin'|Hout'].
    + rewrite decide_True by (by apply Hmem). done.
    + rewrite decide_False by (by rewrite Hmem). simpl.
      by rewrite Hup, Hlo.
Qed.

Lemma update_all_tracked task states :
  ∀ acc,
    (∀ f1 f2, f1 ∈ all_facts task → f2 ∈ all_facts task →
              get_constraint_id acc.1 f1 = get_constraint_id acc.1 f2 →
              f1 = f2) →
    tracked task acc → Forall (state_in_range task) states →
    tracked task (update_all acc states) ∧
    lp_con_id_f_defined (update_all acc states).1 = lp_con_id_f_defined acc.1 ∧
    last_state (update_all acc states).1
    = from_option state_facts (last_state acc.1) (last states).
Proof.
  induction states as [|state states IH]; intros [gen lp_solver] Hinj Ht Hs;
    [done|].
  apply Forall_cons in Hs as [Hs1 Hs].
  unfold update_all. cbn [foldl fst snd].
  pose proof (update_constraints_tracked task gen lp_solver state Hinj Ht Hs1)
    as Ht1.
  destruct (update_constraints_spec gen state lp_solver)
    as (lp_solver' & Hupd & _).
  rewrite Hupd in Ht1 |- *. simpl in Ht1 |- *.
  destruct (IH (with_last_state gen (state_facts state), lp_solver'))
    as (H1 & H2 & H3); [done|done|done|].
  split; [exact H1|]. split; [exact H2|].
  etrans; [exact H3|]. rewrite last_cons. by destruct (last states).
Qed.

End model_more.

(** ** The model: theorems *)

Section model_theorems.
Context {Q : Type} `{!PriorityQueue Q}.
Implicit Types gen : DeleteRelaxationConstraintsRR.

Lemma edge_columns_cover gen (g : VEGraph.t Q) base :
  (∀ e id, lp_var_id_edge gen !! e = Some id ↔
           ∃ i, elements (VEGraph.edges g) !! i = Some e ∧ id = base + i) →
  (∀ e, e ∈ VEGraph.edges g ↔ is_Some (lp_var_id_edge gen !! e)) ∧
  (∀ e id, lp_var_id_edge gen !! e = Some id →
           base ≤ id ∧ id < base + size (VEGraph.edges g)).
Proof.
  intros Hem. split.
  - intros e. rewrite <-elem_of_elements, list_elem_of_lookup. split.
    + intros [i Hi]. exists (base + i). apply Hem. by exists i.
    + intros [id Hid]. apply Hem in Hid as (i & Hi & _). by exists i.
  - intros e id (i & Hi%lookup_lt_Some & ->)%Hem.
    unfold size, set_size. simpl. lia.
Qed.

(** X15: the size of the model that [initialize_constraints] builds. It adds
    one column per fact, one per pair of an operator and one of its
    effects, and one per edge of the graph; and one row per fact, one per
    edge of the task graph (constraint 3), one per pair of an operator and
    one of its effects (constraint 5), one per triple of an operator, one
    of its preconditions and one of its effects (constraint 6), one per
    edge whose reverse is an edge (constraint 7) and one per triple of
    delta (constraint 8). *)
Theorem built_model_size (fuel : nat) (opts : Options) (task : TaskProxy)
    (lp : LinearProgram) (g : VEGraph.t Q)
    (gen' : DeleteRelaxationConstraintsRR) (lp' : LinearProgram) :
  VEGraph.make fuel task = Some g →
  initialize_constraints (Q := Q) fuel
    (new_DeleteRelaxationConstraintsRR opts) task lp = Some (Ok (gen', lp')) →
  length (variables lp')
  = length (variables lp) + length (all_facts task)
    + length (op_effects task) + size (VEGraph.edges g) ∧
  length (constraints lp')
  = length (constraints lp) + length (all_facts task)
    + size (VEGraph.edges
              (VEGraph.construct_task_graph (Q := Q) task VEGraph.new))
    + length (op_effects task) + length (op_pre_eff task)
    + length (filter (λ e, (e.2, e.1) ∈ VEGraph.edges g)
                     (elements (VEGraph.edges g)))
    + length (VEGraph.delta g).
Proof.
  intros Hmake Hinit.
  destruct (initialize_constraints_inv _ _ _ _ _ _ Hinit)
    as (g' & cs2 & cs3 & rows5 & rows6 & rows7 & rows8 & Hmake' & _ & _ & _ &
        Hem & _ & H2 & H3 & H5 & H6 & H7 & H8 & ->).
  rewrite Hmake in Hmake'. injection Hmake' as <-. simpl. split.
  - rewrite (length_pointwise _ _ _ (constraint4_spec gen' task _)).
    rewrite length_app, length_replicate. lia.
  - destruct (constraint2_terms_facts _ _ _ _ _ 0 0 H2) as (L2 & _).
    destruct (constraint3_facts _ _ _ _ 0 0 H3 (Nat.le_0_l _)) as (L3 & _).
    destruct (constraint5_facts _ _ _ 0 H5) as (L5 & _).
    destruct (constraint6_facts _ _ _ 0 H6) as (L6 & _).
    destruct (edge_columns_cover _ _ _ Hem) as [Hcover _].
    destruct (constraint7_facts _ _ _ 0 Hcover H7) as (-> & _).
    destruct (constraint8_facts _ _ _ 0 H8) as (L8 & _).
    rewrite !length_app, length_fmap, L3, L2, L5, L6, L8.
    rewrite length_app, length_fmap, constraint3_keys_are_task_edges. lia.
Qed.

Lemma columns_in_range_mono N N' c :
  N ≤ N' → columns_in_range N c → columns_in_range N' c.
Proof.
  intros HN Hc. unfold columns_in_range.
  eapply Forall_impl; [exact Hc|]. intros v ?. simpl in *. lia.
Qed.

Lemma operators_in_range_elem task op f :
  operators_in_range task → op ∈ get_operators task →
  f ∈ get_preconditions op ∨ f ∈ get_effects op → f ∈ all_facts task.
Proof.
  intros Hwf Hop Hf. unfold operators_in_range in Hwf.
  rewrite Forall_forall in Hwf. specialize (Hwf op Hop).
  rewrite Forall_forall in Hwf. apply Hwf. by apply elem_of_app.
Qed.

(** X16: a model whose rows only mention columns that exist stays so: when the
    operators only mention facts of the task and every operator has its
    operator-counting column, every row of the model that
    [initialize_constraints] builds mentions columns of that model only. *)
Theorem built_rows_mention_existing_columns (fuel : nat) (opts : Options)
    (task : TaskProxy) (lp : LinearProgram)
    (gen' : DeleteRelaxationConstraintsRR) (lp' : LinearProgram) :
  operators_in_range task →
  length (get_operators task) ≤ length (variables lp) →
  Forall (columns_in_range (length (variables lp))) (constraints lp) →
  initialize_constraints (Q := Q) fuel
    (new_DeleteRelaxationConstraintsRR opts) task lp = Some (Ok (gen', lp')) →
  Forall (columns_in_range (length (variables lp'))) (constraints lp').
Proof.
  intros Hwf Hops Hold Hinit.
  destruct (initialize_constraints_inv _ _ _ _ _ _ Hinit)
    as (g & cs2 & cs3 & rows5 & rows6 & rows7 & rows8 & Hmake & Hfd & _ & Hfm &
        Hem & _ & H2 & H3 & H5 & H6 & H7 & H8 & ->).
  simpl. rewrite (length_pointwise _ _ _ (constraint4_spec gen' task _)).
  rewrite length_app, length_replicate.
  set (N := length (variables lp) + _).
  destruct (edge_columns_cover _ _ _ Hem) as [Hcover Hrange].
  assert (∀ k id, lp_var_id_f_maps_to gen' !! k = Some id → id < N) as Hfm'.
  { intros k id (i & Hi%lookup_lt_Some & ->)%Hfm.
    unfold f_maps_to_keys in Hi. rewrite length_fmap in Hi. unfold N. lia. }
  assert (∀ e id, lp_var_id_edge gen' !! e = Some id → id < N) as Hem'.
  { intros e id Hid%Hrange. unfold N. lia. }
  assert (∀ f, f ∈ all_facts task → get_var_f_defined gen' f < N) as Hfd'.
  { intros f [i Hi]%list_elem_of_lookup. rewrite (Hfd _ _ Hi).
    apply lookup_lt_Some in Hi. unfold N. lia. }
  assert (Forall (columns_in_range N)
                 (constraints lp ++ (row2 gen' <$> all_facts task))) as H0.
  { apply Forall_app. split.
    - eapply Forall_impl; [exact Hold|]. intros c.
      apply columns_in_range_mono. unfold N. lia.
    - apply Forall_fmap, Forall_forall. intros f Hf. unfold compose, row2.
      apply columns_in_range_insert; [by apply Hfd'|].
      apply columns_in_range_new. }
  destruct (constraint2_terms_facts _ _ _ _ _ 0 N H2) as (_ & _ & C2).
  destruct (constraint3_facts _ _ _ _ 0 N H3 (Nat.le_0_l _)) as (_ & _ & C3).
  destruct (constraint5_facts _ _ _ N H5) as (_ & C5).
  destruct (constraint6_facts _ _ _ N H6) as (_ & C6).
  destruct (constraint7_facts _ _ _ N Hcover H7) as (_ & C7).
  destruct (constraint8_facts _ _ _ N H8) as (_ & C8).
  repeat (apply Forall_app; split).
  - apply C3; [done| |by apply C2].
    intros [[id eff] pre] (op & Hop & Hp & _)%elem_of_op_eff_pre_iff.
    apply Hfd'. apply (operators_in_range_elem task op); [done| |by left].
    by eapply list_elem_of_lookup_2.
  - apply C5; [done|]. unfold N. lia.
  - by apply C6.
  - by apply C7.
  - by apply C8.
Qed.

Lemma constraint4_take gen task vars n :
  (∀ goal, goal ∈ get_goals task → n ≤ get_var_f_defined gen goal) →
  take n (constraint4 gen task vars) = take n vars.
Proof.
  intros Hgoals. unfold constraint4.
  apply (foldl_invariant (λ vars', take n vars' = take n vars)
                         (λ goal, n ≤ get_var_f_defined gen goal)).
  - done.
  - by apply Forall_forall.
  - intros vars' goal Hv Hgoal. by rewrite take_alter_ge.
Qed.

(** X17: [initialize_constraints] only adds to the model: when the operators
    and the goal only mention facts of the task, the columns and the rows
    that the model had are still there, in place and unchanged, before the
    new ones. *)
Theorem construction_keeps_existing_model (fuel : nat) (opts : Options)
    (task : TaskProxy) (lp : LinearProgram)
    (gen' : DeleteRelaxationConstraintsRR) (lp' : LinearProgram) :
  operators_in_range task →
  goals_in_range task →
  initialize_constraints (Q := Q) fuel
    (new_DeleteRelaxationConstraintsRR opts) task lp = Some (Ok (gen', lp')) →
  variables lp `prefix_of` variables lp' ∧
  constraints lp `prefix_of` constraints lp'.
Proof.
  intros Hwf Hgoals Hinit.
  destruct (initialize_constraints_inv _ _ _ _ _ _ Hinit)
    as (g & cs2 & cs3 & rows5 & rows6 & rows7 & rows8 & Hmake & Hfd & _ & _ &
        _ & Hcon & H2 & H3 & _ & _ & _ & _ & ->).
  simpl. split.
  - rewrite <-(take_app_length (variables lp) (replicate
                 (length (all_facts task) + length (op_effects task)
                  + size (VEGraph.edges g))
                 (mkLPVariable (Finite 0) (Finite 1) 0
                               (opt_use_integer_vars opts)))) at 1.
    rewrite <-(constraint4_take gen' task).
    + apply prefix_take.
    + intros goal Hgoal. unfold goals_in_range in Hgoals.
      rewrite Forall_forall in Hgoals.
      destruct (list_elem_of_lookup_1 _ _ (Hgoals _ Hgoal)) as [i Hi].
      rewrite (Hfd _ _ Hi). lia.
  - set (n := length (constraints lp)).
    destruct (constraint2_terms_facts _ _ _ _ _ n 0 H2) as (L2 & T2 & _).
    rewrite length_app in L2.
    destruct (constraint3_facts _ _ _ _ n 0 H3) as (L3 & T3 & _);
      [unfold n; lia|].
    rewrite <-(take_app_length (constraints lp)
                 (row2 gen' <$> all_facts task)) at 1.
    fold n. rewrite <-T2, <-T3.
    + rewrite <-(take_app_le cs3 (rows5 ++ rows6 ++ rows7 ++ rows8) n)
        by (unfold n; lia).
      apply prefix_take.
    + intros id eff (op & Hop & He)%elem_of_op_effects.
      assert (eff ∈ all_facts task) as [i Hi]%list_elem_of_lookup.
      { apply (operators_in_range_elem task op); [done| |by right].
        by eapply list_elem_of_lookup_2. }
      change (lookup2 (lp_con_id_f_defined gen') eff)
        with (get_constraint_id gen' eff).
      rewrite (Hcon _ _ Hi). unfold n. lia.
Qed.

(** X10: [create_auxiliary_variables] appends its columns after those of the
    model and keeps the three kinds apart: first one column per fact, in
    the order of the facts, then the columns of the pairs of an operator
    and an effect, then the columns of the edges; each new column is a
    variable between 0 and 1 with objective coefficient 0, an integer
    variable exactly when [use_integer_vars] is set; no two facts share a
    column and no two keys of a table do. *)
Theorem auxiliary_columns_are_allocated_apart (opts : Options)
    (task : TaskProxy) (vars : list LPVariable) (g : VEGraph.t Q) :
  let r := create_auxiliary_variables
             (new_DeleteRelaxationConstraintsRR opts) task vars g in
  let n := length vars in
  let nf := length (all_facts task) in
  let na := length (op_effects task) in
  r.2 = vars ++ replicate (nf + na + size (VEGraph.edges g))
                          (mkLPVariable (Finite 0) (Finite 1) 0
                                        (opt_use_integer_vars opts)) ∧
  (∀ i f, all_facts task !! i = Some f → get_var_f_defined r.1 f = n + i) ∧
  (∀ f1 f2, f1 ∈ all_facts task → f2 ∈ all_facts task →
            get_var_f_defined r.1 f1 = get_var_f_defined r.1 f2 → f1 = f2) ∧
  (∀ op_id eff, (op_id, eff) ∈ op_effects task →
                ∃ id, get_var_f_maps_to r.1 eff op_id = Ok id) ∧
  (∀ k id, lp_var_id_f_maps_to r.1 !! k = Some id →
           n + nf ≤ id ∧ id < n + nf + na) ∧
  (∀ k1 k2 id, lp_var_id_f_maps_to r.1 !! k1 = Some id →
               lp_var_id_f_maps_to r.1 !! k2 = Some id → k1 = k2) ∧
  (∀ e id, lp_var_id_edge r.1 !! e = Some id →
           n + nf + na ≤ id ∧ id < length r.2).
Proof.
  intros r n nf na. unfold r.
  destruct (create_auxiliary_variables_columns opts task vars g)
    as (table & fm & em & -> & Htable & Hfm1 & Hfm2 & Hem).
  simpl. split; [done|]. split; [exact Htable|]. split; [|split; [|split]].
  - intros f1 f2 [i1 H1]%list_elem_of_lookup [i2 H2]%list_elem_of_lookup.
    unfold get_var_f_defined. simpl.
    rewrite (Htable _ _ H1), (Htable _ _ H2). intros Heq.
    assert (i1 = i2) as -> by lia. congruence.
  - intros op_id eff Hin. destruct (Hfm1 (var eff, value eff, op_id)) as [id Hid].
    { unfold f_maps_to_keys. apply list_elem_of_fmap. by exists (op_id, eff). }
    exists id. by apply get_var_f_maps_to_Ok.
  - intros k id (i & Hi%lookup_lt_Some & ->)%Hfm2.
    unfold f_maps_to_keys in Hi. rewrite length_fmap in Hi.
    unfold n, nf, na. lia.
  - split.
    + intros k1 k2 id (i1 & H1 & ->)%Hfm2 (i2 & H2 & Heq)%Hfm2.
      assert (i1 = i2) as -> by lia. congruence.
    + intros e id Hid.
      destruct (edge_columns_cover
                  (mkRR (opt_use_time_vars opts) (opt_use_integer_vars opts)
                        table [] fm em []) g _ Hem) as [_ Hrange].
      apply Hrange in Hid. rewrite length_app, length_replicate.
      unfold n, nf, na. lia.
Qed.

Lemma collectM_Ok_inv {A B} (f : A → Res (list B)) (l : list A) rows :
  collectM f l = Ok rows → ∀ a, a ∈ l → ∃ bs, f a = Ok bs.
Proof.
  revert rows. induction l as [|a l IH]; intros rows; simpl.
  - by intros _ a ?%elem_of_nil.
  - destruct (f a) as [bs|] eqn:Ha; [simpl|done].
    destruct (collectM f l) as [bs'|] eqn:Hl; [simpl|done].
    intros _ a0 [->|Ha0]%elem_of_cons; [by exists bs|by eapply IH].
Qed.

(** The outcome of [create_constraints] once the tables are filled: the
    only lookup that can fail is that of the edge of constraint (6). *)
Lemma create_constraints_outcome gen task lp (g : VEGraph.t Q) :
  (∀ k, k ∈ f_maps_to_keys task → is_Some (lp_var_id_f_maps_to gen !! k)) →
  (∀ e, e ∈ VEGraph.edges g ↔ is_Some (lp_var_id_edge gen !! e)) →
  (∀ i j k, (i, j, k) ∈ VEGraph.delta g →
            (i, j) ∈ VEGraph.edges g ∧ (j, k) ∈ VEGraph.edges g ∧
            (i, k) ∈ VEGraph.edges g) →
  match create_constraints gen task lp g with
  | Ok _ => ∀ x, x ∈ op_pre_eff task → (x.1.2, x.2) ∈ VEGraph.edges g
  | Throw e => ∃ x, x ∈ op_pre_eff task ∧ ((x.1.2, x.2) ∉ VEGraph.edges g) ∧
                    e = no_edge (x.1.2, x.2)
  end.
Proof.
  intros Hfm Hcover Hdelta. unfold create_constraints.
  destruct (constraint2_rows gen task (constraints lp)) as [table cs].
  set (gen2 := with_con_ids gen table).
  assert (∀ id eff, (id, eff) ∈ op_effects task →
                    ∃ n, get_var_f_maps_to gen2 eff id = Ok n) as Hfm2.
  { intros id eff Hin. destruct (Hfm (var eff, value eff, id)) as [n Hn].
    - unfold f_maps_to_keys. apply list_elem_of_fmap. by exists (id, eff).
    - exists n. by apply get_var_f_maps_to_Ok. }
  assert (∀ e, e ∈ VEGraph.edges g → ∃ n, edge_at gen2 e = Ok n) as Hedge2.
  { intros e [n Hn]%Hcover. exists n. by apply edge_at_Ok. }
  destruct (foldlM_Ok (constraint2_term gen2 table) (op_effects task))
    with (a := cs) as [cs2 Hcs2].
  { intros a [id eff] Hin. unfold constraint2_term.
    destruct (Hfm2 id eff Hin) as [n ->]. by eexists. }
  unfold constraint2_terms. rewrite Hcs2. cbn [mbind Res_bind].
  destruct (foldlM_Ok (constraint3_step gen2) (op_eff_pre task))
    with (a := ((∅ : gmap (FactPair * FactPair) nat), cs2)) as [[ids cs3] Hcs3].
  { intros [ids0 cs0] [[id eff] pre] [Hin _]%elem_of_op_eff_pre.
    unfold constraint3_step. case_decide; [by eexists|].
    destruct (Hfm2 id eff Hin) as [m ->].
    destruct (ids0 !! (pre, eff)); by eexists. }
  unfold constraint3. rewrite Hcs3. cbn [mbind Res_bind fmap Res_fmap snd].
  destruct (collectM_is_Ok (constraint5_row gen2) (op_effects task))
    as [rows5 Hrows5].
  { intros [id eff] Hin. unfold constraint5_row.
    destruct (Hfm2 id eff Hin) as [n ->]. by eexists. }
  unfold constraint5. rewrite Hrows5. cbn [mbind Res_bind].
  unfold constraint6.
  destruct (collectM (constraint6_row gen2) (op_pre_eff task))
    as [rows6|e] eqn:Hrows6; cbn [mbind Res_bind].
  - unfold constraint7, VEGraph.get_edges. rewrite constraint7_rows.
    2:{ intros e He%elem_of_elements. by apply Hcover. }
    cbn [mbind Res_bind].
    destruct (collectM_is_Ok (constraint8_row gen2) (VEGraph.get_delta g))
      as [rows8 Hrows8].
    { intros [[i j] k] Hin. destruct (Hdelta i j k Hin) as (H1 & H2 & H3).
      unfold constraint8_row.
      destruct (Hedge2 _ H1) as [n1 ->], (Hedge2 _ H2) as [n2 ->],
               (Hedge2 _ H3) as [n3 ->].
      by eexists. }
    unfold constraint8. rewrite Hrows8. cbn [mbind Res_bind].
    intros [[id pre] eff] Hin. simpl.
    destruct (collectM_Ok_inv _ _ _ Hrows6 _ Hin) as [bs Hbs].
    unfold constraint6_row in Hbs.
    destruct (edge_at gen2 (pre, eff)) as [n|] eqn:Hn; [|done].
    apply edge_at_Ok in Hn. apply Hcover. by exists n.
  - apply collectM_Throw in Hrows6 as ([[id pre] eff] & Hin & Hrow).
    exists (id, pre, eff). split; [done|]. simpl.
    unfold constraint6_row in Hrow.
    destruct (edge_at gen2 (pre, eff)) as [n|e'] eqn:Hn.
    + cbn [mbind Res_bind] in Hrow.
      apply elem_of_op_pre_eff in Hin as [Hin _].
      destruct (Hfm2 id eff Hin) as [m Hm]. by rewrite Hm in Hrow.
    + cbn [mbind Res_bind] in Hrow. injection Hrow as <-.
      unfold edge_at in Hn.
      destruct (lp_var_id_edge gen2 !! (pre, eff)) eqn:Hl; [done|].
      injection Hn as <-. split; [|done].
      intros [n Hn']%Hcover. simpl in Hl. congruence.
Qed.

(** X18: [initialize_constraints] returns normally exactly when, for every
    operator, every fact that is both a precondition and an effect of the
    operator has an edge to itself in the graph. Otherwise it raises the
    exception of the lookup of such an edge in constraint (6), and it
    raises no other exception. *)
Theorem construction_throws_only_for_a_missing_self_edge (fuel : nat)
    (opts : Options) (task : TaskProxy) (lp : LinearProgram)
    (g : VEGraph.t Q) :
  VEGraph.make fuel task = Some g →
  match initialize_constraints (Q := Q) fuel
          (new_DeleteRelaxationConstraintsRR opts) task lp with
  | Some (Ok _) =>
      ∀ op f, op ∈ get_operators task → f ∈ get_preconditions op →
              f ∈ get_effects op → (f, f) ∈ VEGraph.edges g
  | Some (Throw e) =>
      ∃ op f, op ∈ get_operators task ∧ f ∈ get_preconditions op ∧
              f ∈ get_effects op ∧ ((f, f) ∉ VEGraph.edges g) ∧
              e = no_edge (f, f)
  | None => False
  end.
Proof.
  intros Hmake. unfold initialize_constraints. rewrite Hmake. simpl.
  destruct (create_auxiliary_variables_columns opts task (variables lp) g)
    as (table & fm & em & -> & _ & Hfm & _ & Hem).
  set (gen := mkRR _ _ table [] fm em []). set (lp1 := mkLP _ _).
  destruct (edge_columns_cover gen g _ Hem) as [Hcover _].
  destruct (make_ok task fuel g Hmake) as (_ & [Hdelta _] & _).
  pose proof (create_constraints_outcome gen task lp1 g Hfm Hcover) as Hout.
  destruct (create_constraints gen task lp1 g) as [r|e].
  - intros op f Hop Hp He.
    apply list_elem_of_lookup in Hop as [id Hid].
    apply (Hout ltac:(intros i j k Hin;
                      by destruct (Hdelta i j k Hin) as (? & ? & ? & _))
                (id, f, f)).
    apply elem_of_op_pre_eff_iff. by exists op.
  - destruct Hout as ([[id pre] eff] & Hin & Hout & ->).
    { intros i j k Hin. by destruct (Hdelta i j k Hin) as (? & ? & ? & _). }
    simpl in *. apply elem_of_op_pre_eff_iff in Hin as (op & Hop & Hp & He).
    apply list_elem_of_lookup_2 in Hop.
    destruct (decide (pre = eff)) as [->|Hne]; [by exists op, eff|].
    destruct Hout. eapply make_task_edges; [done|]. by exists op.
Qed.

(** X19: the rows of constraint (2) follow the state: after
    [initialize_constraints] and any number of calls of
    [update_constraints], each on a state made of facts of the task, the
    row of a fact of the task has both bounds at 1 when the fact holds in
    the state of the last call, and both at 0 otherwise (also when no call
    was made). *)
Theorem rows_follow_the_state (fuel : nat) (opts : Options)
    (task : TaskProxy) (lp : LinearProgram)
    (gen0 : DeleteRelaxationConstraintsRR) (lp0 : LinearProgram)
    (states : list State) :
  initialize_constraints (Q := Q) fuel
    (new_DeleteRelaxationConstraintsRR opts) task lp = Some (Ok (gen0, lp0)) →
  Forall (state_in_range task) states →
  let r := update_all (gen0, mkSolver lp0) states in
  last_state r.1 = from_option state_facts [] (last states) ∧
  ∀ f, f ∈ all_facts task →
       get_constraint_id r.1 f = get_constraint_id gen0 f ∧
       ∃ c, constraints (loaded r.2) !! get_constraint_id gen0 f = Some c ∧
            con_lower_bound c
            = Finite (if decide (f ∈ last_state r.1) then 1 else 0) ∧
            con_upper_bound c = con_lower_bound c.
Proof.
  intros Hinit Hstates r.
  destruct (initialize_constraints_rows _ _ _ _ _ _ Hinit)
    as (Hlast & _ & Hrows).
  destruct (initialize_constraints_synced _ _ _ _ _ _ Hinit) as [_ Hinj].
  destruct (update_all_tracked task states (gen0, mkSolver lp0))
    as ((_ & Ht) & Htable & Hl); [done| |done|].
  { split; simpl; [by rewrite Hlast|]. intros f [i Hi]%list_elem_of_lookup.
    destruct (Hrows _ _ Hi) as (-> & c & Hc & Hlo & Hup & _).
    exists c. rewrite Hlast. split; [done|].
    rewrite decide_False by apply not_elem_of_nil.
    by rewrite Hup, Hlo. }
  fold r in Ht, Htable, Hl. simpl in Htable, Hl. rewrite Hlast in Hl.
  split; [done|]. intros f Hf.
  assert (get_constraint_id r.1 f = get_constraint_id gen0 f) as Heq
    by (unfold get_constraint_id; by rewrite Htable).
  split; [done|]. rewrite <-Heq. by apply Ht.
Qed.

(** X9: [add_lp_variables] appends [count] copies of the variable it is given
    the attributes of, and appends their positions, which are consecutive
    and start at the previous number of variables: the index it records
    for the [i]-th new variable is where that variable is. *)
Theorem add_lp_variables_appends (count : nat) (vars : list LPVariable)
    (indices : list nat) (lower upper : bound) (objective : Z)
    (is_int : bool) :
  let r := add_lp_variables count vars indices lower upper objective is_int in
  r.1 = vars ++ replicate count (mkLPVariable lower upper objective is_int) ∧
  r.2 = indices ++ seq (length vars) count ∧
  ∀ i, i < count →
       r.2 !! (length indices + i) = Some (length vars + i) ∧
       r.1 !! (length vars + i)
       = Some (mkLPVariable lower upper objective is_int).
Proof.
  intros r. unfold r. rewrite add_lp_variables_spec. simpl.
  split; [done|]. split; [done|]. intros i Hi. split.
  - rewrite lookup_app_r by lia.
    replace (length indices + i - length indices) with i by lia.
    by apply lookup_seq.
  - rewrite lookup_app_r by lia.
    replace (length vars + i - length vars) with i by lia.
    by apply lookup_replicate.
Qed.


(** X12: constraint (2) as built: when the operators only mention facts of the
    task, the row of a fact [p] comes at the position of [p] among the facts,
    after the rows that the model had; its bounds are 0 and 0 and it reads
    [f_p - sum f_{p,a}], with one term for every time that [p] is listed
    among the effects of an operator [a], in the order of the operators. *)
Theorem row_of_a_fact_sums_its_achievers (fuel : nat) (opts : Options)
    (task : TaskProxy) (lp : LinearProgram)
    (gen' : DeleteRelaxationConstraintsRR) (lp' : LinearProgram) :
  operators_in_range task →
  initialize_constraints (Q := Q) fuel
    (new_DeleteRelaxationConstraintsRR opts) task lp = Some (Ok (gen', lp')) →
  ∀ i p, all_facts task !! i = Some p →
    get_constraint_id gen' p = length (constraints lp) + i ∧
    (∀ id, id ∈ achiever_columns gen' task p ↔
           ∃ op_id, (op_id, p) ∈ op_effects task ∧
                    get_var_f_maps_to gen' p op_id = Ok id) ∧
    ∃ c, constraints lp' !! get_constraint_id gen' p = Some c ∧
         con_lower_bound c = Finite 0 ∧ con_upper_bound c = Finite 0 ∧
         con_variables c
         = get_var_f_defined gen' p :: achiever_columns gen' task p ∧
         con_coefficients c
         = 1%Z :: replicate (length (achiever_columns gen' task p)) (-1)%Z.
Proof.
  intros Hwf Hinit i p Hi.
  destruct (initialize_constraints_inv _ _ _ _ _ _ Hinit)
    as (g & cs2 & cs3 & rows5 & rows6 & rows7 & rows8 & Hmake & _ & _ & _ &
        _ & Hcon & H2 & H3 & _ & _ & _ & _ & ->).
  simpl. split; [by apply Hcon|]. split.
  { intros id. unfold achiever_columns. rewrite list_elem_of_omap. split.
    - intros ([op_id eff] & Hin & Hid). simpl in Hid.
      case_decide as Hp; [subst eff|done].
      exists op_id. split; [done|]. by apply get_var_f_maps_to_Ok.
    - intros (op_id & Hin & Hid). exists (op_id, p). split; [done|]. simpl.
      rewrite decide_True by done. by apply get_var_f_maps_to_Ok. }
  set (n := length (constraints lp)) in *.
  set (cs0 := constraints lp ++ (row2 gen' <$> all_facts task)) in *.
  assert (length cs0 = n + length (all_facts task)) as L0
    by (unfold cs0; by rewrite length_app, length_fmap).
  destruct (constraint2_terms_facts _ _ _ _ _ 0 0 H2) as (L2 & _).
  destruct (constraint3_facts _ _ _ _ (length cs2) 0 H3 (le_n _))
    as (_ & T3 & _).
  pose proof (lookup_lt_Some _ _ _ Hi) as Hlt.
  rewrite (Hcon _ _ Hi). fold n.
  rewrite lookup_app_l.
  2:{ apply (f_equal length) in T3. rewrite !length_take in T3. lia. }
  rewrite <-(lookup_take_lt cs3 (length cs2)) by lia.
  rewrite T3, lookup_take_lt by lia.
  unfold constraint2_terms in H2.
  rewrite (constraint2_terms_row _ _ _ _ _ (n + i) H2).
  unfold cs0. rewrite lookup_app_r by (unfold n; lia).
  replace (n + i - length (constraints lp)) with i by (unfold n; lia).
  rewrite list_lookup_fmap, Hi. simpl.
  rewrite (list_omap_ext_elem _
             (λ x : nat * FactPair,
                if decide (x.2 = p)
                then lp_var_id_f_maps_to gen' !! (var x.2, value x.2, x.1)
                else None)).
  2:{ intros [op_id eff] (op & Hop & He)%elem_of_op_effects. simpl.
      assert (eff ∈ all_facts task) as [j Hj]%list_elem_of_lookup.
      { apply (operators_in_range_elem task op); [done| |by right].
        by eapply list_elem_of_lookup_2. }
      change (lookup2 (lp_con_id_f_defined gen') eff)
        with (get_constraint_id gen' eff).
      rewrite (Hcon _ _ Hj). fold n.
      destruct (decide (eff = p)) as [->|Hne].
      - rewrite decide_True; [done|]. f_equal.
        eapply NoDup_lookup; [apply NoDup_facts_of|exact Hj|exact Hi].
      - rewrite decide_False; [done|]. intros Heq. apply Hne.
        assert (j = i) as -> by lia. unfold all_facts in *. congruence. }
  fold (achiever_columns gen' task p).
  eexists. split; [done|].
  destruct (with_achievers_spec (achiever_columns gen' task p) (row2 gen' p))
    as (-> & -> & -> & ->).
  done.
Qed.


(** X11: the columns that [initialize_constraints] adds, as they are in the
    built model: each is a variable with upper bound 1 and objective
    coefficient 0, an integer variable exactly when [use_integer_vars] is
    set; its lower bound is 1 when it is the column of a goal fact and 0
    otherwise. *)
Theorem added_columns_of_the_built_model (fuel : nat) (opts : Options)
    (task : TaskProxy) (lp : LinearProgram)
    (gen' : DeleteRelaxationConstraintsRR) (lp' : LinearProgram) :
  initialize_constraints (Q := Q) fuel
    (new_DeleteRelaxationConstraintsRR opts) task lp = Some (Ok (gen', lp')) →
  ∀ i, length (variables lp) ≤ i → i < length (variables lp') →
       variables lp' !! i
       = Some (mkLPVariable
                 (Finite (if decide (i ∈ get_var_f_defined gen'
                                           <$> get_goals task)
                          then 1 else 0))
                 (Finite 1) 0 (opt_use_integer_vars opts)).
Proof.
  intros Hinit i Hlo Hhi.
  destruct (initialize_constraints_inv _ _ _ _ _ _ Hinit)
    as (g & cs2 & cs3 & rows5 & rows6 & rows7 & rows8 & _ & _ & _ & _ &
        _ & _ & _ & _ & _ & _ & _ & _ & ->).
  simpl in *. rewrite (length_pointwise _ _ _ (constraint4_spec gen' task _))
    in Hhi.
  rewrite constraint4_spec. rewrite length_app, length_replicate in Hhi.
  rewrite lookup_app_r by done. rewrite lookup_replicate_2 by lia.
  simpl. by case_decide.
Qed.


(** X13: constraint (3) as built: the model holds one row per edge of the task
    graph, after the rows of constraint (2). The row of the edge from [q]
    to [p] has the bounds 0 and 1 and reads [f_q - sum f_{p,a}], the sum
    ranging over the triples of an operator [a], its effect [p] and its
    precondition [q]; different edges have different rows. *)
Theorem rows_of_constraint_3 (fuel : nat) (opts : Options)
    (task : TaskProxy) (lp : LinearProgram)
    (gen' : DeleteRelaxationConstraintsRR) (lp' : LinearProgram) :
  initialize_constraints (Q := Q) fuel
    (new_DeleteRelaxationConstraintsRR opts) task lp = Some (Ok (gen', lp')) →
  let E0 := VEGraph.edges
              (VEGraph.construct_task_graph (Q := Q) task VEGraph.new) in
  let first := length (constraints lp) + length (all_facts task) in
  ∃ constraint3_ids : gmap (FactPair * FactPair) nat,
    dom constraint3_ids = E0 ∧
    (∀ k1 k2 r, constraint3_ids !! k1 = Some r →
                constraint3_ids !! k2 = Some r → k1 = k2) ∧
    ∀ k r, constraint3_ids !! k = Some r →
      first ≤ r ∧ r < first + size E0 ∧
      ∃ c, constraints lp' !! r = Some c ∧
           con_lower_bound c = Finite 0 ∧ con_upper_bound c = Finite 1 ∧
           con_variables c
           = get_var_f_defined gen' k.1
             :: achiever_columns_under gen' (op_eff_pre task) k ∧
           con_coefficients c
           = 1%Z :: replicate
                      (length (achiever_columns_under gen' (op_eff_pre task) k))
                      (-1)%Z.
Proof.
  intros Hinit E0 first.
  destruct (initialize_constraints_inv _ _ _ _ _ _ Hinit)
    as (g & cs2 & cs3 & rows5 & rows6 & rows7 & rows8 & _ & _ & _ & _ &
        _ & _ & H2 & H3 & _ & _ & _ & _ & ->).
  simpl. unfold constraint3 in H3.
  destruct (foldlM (constraint3_step gen') (∅, cs2) (op_eff_pre task))
    as [[ids cs3']|] eqn:Hfold; [simpl in H3|done].
  injection H3 as ->.
  destruct (constraint2_terms_facts _ _ _ _ _ 0 0 H2) as (L2 & _).
  rewrite length_app, length_fmap in L2.
  destruct (constraint3_fold_facts _ _ _ _ _ 0 0 Hfold (Nat.le_0_l _))
    as (L3 & _ & Hdom & _).
  destruct (constraint3_rows _ _ _ _ _ _ Hfold) as [Hinj Hrows].
  { intros k v Hk. by rewrite lookup_empty in Hk. }
  { intros k1 k2 v Hk. by rewrite lookup_empty in Hk. }
  assert (size ids = size E0) as Hsize.
  { unfold E0. by rewrite <-constraint3_keys_are_task_edges, <-Hdom, size_dom. }
  exists ids. split; [|split; [done|]].
  { unfold E0. by rewrite <-constraint3_keys_are_task_edges. }
  intros k r Hk. destruct (Hrows k r Hk) as [_ Hnew].
  destruct (Hnew (lookup_empty _)) as [Hle Hrow].
  pose proof (lookup_lt_Some _ _ _ Hrow) as Hlt.
  unfold first. split; [lia|]. split; [lia|].
  rewrite lookup_app_l by done. eexists. split; [exact Hrow|].
  destruct (with_achievers_spec
              (achiever_columns_under gen' (op_eff_pre task) k) (row3 gen' k))
    as (-> & -> & -> & ->).
  done.
Qed.


(** X14: constraints (5) to (8) as built: after the rows of constraints (2) and
    (3), the model holds, in this order, one row [count_a - f_{p,a} >= 0]
    per pair of an operator [a] and an effect [p]; one row
    [e_{q,p} - f_{p,a} >= 0] per triple of an operator, a precondition [q]
    and an effect [p]; one row [e_{i,j} + e_{j,i} <= 1] per edge whose
    reverse is an edge; and one row [e_{i,j} + e_{j,k} - e_{i,k} <= 1] per
    triple of delta. Every column that these rows mention was looked up
    successfully. *)
Theorem rows_of_constraints_5_to_8 (fuel : nat) (opts : Options)
    (task : TaskProxy) (lp : LinearProgram) (g : VEGraph.t Q)
    (gen' : DeleteRelaxationConstraintsRR) (lp' : LinearProgram) :
  VEGraph.make fuel task = Some g →
  initialize_constraints (Q := Q) fuel
    (new_DeleteRelaxationConstraintsRR opts) task lp = Some (Ok (gen', lp')) →
  drop (length (constraints lp) + length (all_facts task)
        + size (VEGraph.edges
                  (VEGraph.construct_task_graph (Q := Q) task VEGraph.new)))
       (constraints lp')
  = (row5 gen' <$> op_effects task)
    ++ (row6 gen' <$> op_pre_eff task)
    ++ (row7 gen' <$> filter (λ e, (e.2, e.1) ∈ VEGraph.edges g)
                             (elements (VEGraph.edges g)))
    ++ (row8 gen' <$> VEGraph.delta g) ∧
  (∀ x, x ∈ op_effects task →
        is_Some (lp_var_id_f_maps_to gen' !! (var x.2, value x.2, x.1))) ∧
  (∀ x, x ∈ op_pre_eff task → is_Some (lp_var_id_edge gen' !! (x.1.2, x.2))) ∧
  (∀ e, e ∈ VEGraph.edges g → is_Some (lp_var_id_edge gen' !! e)) ∧
  (∀ x, x ∈ VEGraph.delta g →
        is_Some (lp_var_id_edge gen' !! (x.1.1, x.1.2)) ∧
        is_Some (lp_var_id_edge gen' !! (x.1.2, x.2)) ∧
        is_Some (lp_var_id_edge gen' !! (x.1.1, x.2))).
Proof.
  intros Hmake Hinit.
  destruct (initialize_constraints_inv _ _ _ _ _ _ Hinit)
    as (g' & cs2 & cs3 & rows5 & rows6 & rows7 & rows8 & Hmake' & _ & Hfm & _ &
        Hem & _ & H2 & H3 & H5 & H6 & H7 & H8 & ->).
  rewrite Hmake in Hmake'. injection Hmake' as <-. simpl.
  destruct (constraint2_terms_facts _ _ _ _ _ 0 0 H2) as (L2 & _).
  rewrite length_app, length_fmap in L2.
  destruct (constraint3_facts _ _ _ _ 0 0 H3 (Nat.le_0_l _)) as (L3 & _).
  rewrite constraint3_keys_are_task_edges, L2 in L3.
  destruct (edge_columns_cover _ _ _ Hem) as [Hcover _].
  destruct (constraint7_facts _ _ _ 0 Hcover H7) as (-> & _).
  assert (∀ x, x ∈ op_effects task →
               is_Some (lp_var_id_f_maps_to gen' !! (var x.2, value x.2, x.1)))
    as Hfm'.
  { intros [id eff] Hin. apply Hfm. unfold f_maps_to_keys.
    apply list_elem_of_fmap. by exists (id, eff). }
  assert (∀ x, x ∈ op_pre_eff task →
               is_Some (lp_var_id_edge gen' !! (x.1.2, x.2))) as Hpe.
  { intros [[id pre] eff] Hin. simpl.
    destruct (collectM_Ok_inv _ _ _ H6 _ Hin) as [bs Hbs].
    unfold constraint6_row in Hbs.
    destruct (edge_at gen' (pre, eff)) as [n|] eqn:Hn; [|done].
    apply edge_at_Ok in Hn. by exists n. }
  assert (∀ x, x ∈ VEGraph.delta g →
               is_Some (lp_var_id_edge gen' !! (x.1.1, x.1.2)) ∧
               is_Some (lp_var_id_edge gen' !! (x.1.2, x.2)) ∧
               is_Some (lp_var_id_edge gen' !! (x.1.1, x.2))) as Hd.
  { intros [[i j] k] Hin. simpl.
    destruct (collectM_Ok_inv _ _ _ H8 _ Hin) as [bs Hbs].
    unfold constraint8_row in Hbs.
    destruct (edge_at gen' (i, j)) as [n1|] eqn:H1; [|done].
    destruct (edge_at gen' (j, k)) as [n2|] eqn:H2'; [|done].
    destruct (edge_at gen' (i, k)) as [n3|] eqn:H3'; [|done].
    apply edge_at_Ok in H1, H2', H3'. eauto. }
  split; [|split; [done|split; [done|split; [|done]]]].
  2:{ intros e He. by apply Hcover. }
  rewrite <-L3, drop_app_length. f_equal; [|f_equal; [|f_equal]].
  - revert H5. unfold constraint5. apply collectM_fmap.
    intros [id eff] bs Hin. unfold constraint5_row, row5, f_maps_to_id.
    destruct (get_var_f_maps_to gen' eff id) as [m|] eqn:Hm; [simpl|done].
    apply get_var_f_maps_to_Ok in Hm. rewrite Hm. by intros [= <-].
  - revert H6. unfold constraint6. apply collectM_fmap.
    intros [[id pre] eff] bs Hin. unfold constraint6_row, row6, f_maps_to_id.
    unfold edge_id.
    destruct (edge_at gen' (pre, eff)) as [n|] eqn:Hn; [simpl|done].
    destruct (get_var_f_maps_to gen' eff id) as [m|] eqn:Hm; [simpl|done].
    apply get_var_f_maps_to_Ok in Hm. apply edge_at_Ok in Hn.
    rewrite Hm, Hn. by intros [= <-].
  - revert H8. unfold constraint8, VEGraph.get_delta. apply collectM_fmap.
    intros [[i j] k] bs Hin. unfold constraint8_row, row8, edge_id.
    destruct (edge_at gen' (i, j)) as [n1|] eqn:H1; [simpl|done].
    destruct (edge_at gen' (j, k)) as [n2|] eqn:H2'; [simpl|done].
    destruct (edge_at gen' (i, k)) as [n3|] eqn:H3'; [simpl|done].
    apply edge_at_Ok in H1, H2', H3'. rewrite H1, H2', H3'.
    by intros [= <-].
Qed.

End model_theorems.

(** ** The further properties on the test tasks *)

(** On the two facts that achieve each other: the graph that the
    constructor returns has one row per variable. *)
Lemma adjacency_lists_mirror_edge_set_witness :
  operators_in_range two_cycle_task ∧
  ∃ g, VEGraph.make (Q := ListQueue.t) 10 two_cycle_task = Some g ∧
       shape g = get_variables two_cycle_task.
Proof.
  split; [apply (bool_decide_unpack _); vm_compute; exact I|].
  eexists. split; [vm_compute; reflexivity|].
  eapply (adjacency_lists_mirror_edge_set two_cycle_task 10);
    [apply (bool_decide_unpack _); vm_compute; exact I|vm_compute; reflexivity|by left].
Defined.


(** On the two facts that achieve each other: the edges are those of the
    task graph and one per triple of delta. *)
Lemma edges_are_task_edges_plus_delta_witness :
  operators_in_range two_cycle_task ∧
  ∃ g, VEGraph.make (Q := ListQueue.t) 10 two_cycle_task = Some g ∧
       size (VEGraph.edges g)
       = size (VEGraph.edges
                 (VEGraph.construct_task_graph (Q := ListQueue.t)
                    two_cycle_task VEGraph.new))
         + length (VEGraph.delta g).
Proof.
  split; [apply (bool_decide_unpack _); vm_compute; exact I|].
  eexists. split; [vm_compute; reflexivity|].
  eapply (edges_are_task_edges_plus_delta two_cycle_task 10);
    [apply (bool_decide_unpack _); vm_compute; exact I|vm_compute; reflexivity].
Defined.

(** On the two facts that achieve each other: the third call of
    [eliminate] is on a fact that is eliminated already and computes no
    shortcut. *)
Lemma repeated_elimination_changes_no_node_witness :
  operators_in_range two_cycle_task ∧
  ∃ g f g1,
    VEGraph.make (Q := ListQueue.t) 10 two_cycle_task = Some g ∧
    (f, g1) ∈ VEGraph.elimination_trace 10 (VEGraph.prepare two_cycle_task) ∧
    is_eliminated (VEGraph.get_node g1 f) = true ∧
    VEGraph.new_shortcuts g1 f = [].
Proof.
  split; [apply (bool_decide_unpack _); vm_compute; exact I|].
  eexists _, (Fact 0 0), _.
  split; [vm_compute; reflexivity|].
  split; [apply (list_elem_of_lookup_2 _ 2); vm_compute; reflexivity|].
  split; [vm_compute; reflexivity|].
  eapply (repeated_elimination_changes_no_node two_cycle_task 10);
    [apply (bool_decide_unpack _); vm_compute; exact I|vm_compute; reflexivity
    |apply (list_elem_of_lookup_2 _ 2); vm_compute; reflexivity
    |vm_compute; reflexivity].
Defined.

(** On the task with one operator: the first fact that the loop
    eliminates carries its number of predecessors as key. *)
Lemma elimination_follows_least_in_degree_witness :
  operators_in_range one_edge_task ∧
  ∃ g f g1,
    VEGraph.make (Q := ListQueue.t) 10 one_edge_task = Some g ∧
    (f, g1) ∈ VEGraph.elimination_trace 10 (VEGraph.prepare one_edge_task) ∧
    is_eliminated (VEGraph.get_node g1 f) = false ∧
    in_degree (VEGraph.get_node g1 f)
    = VEGraph.count_in_degree g1 (VEGraph.get_node g1 f).
Proof.
  split; [apply (bool_decide_unpack _); vm_compute; exact I|].
  eexists _, (Fact 1 0), _.
  split; [vm_compute; reflexivity|].
  split; [apply (list_elem_of_lookup_2 _ 0); vm_compute; reflexivity|].
  split; [vm_compute; reflexivity|].
  eapply (elimination_follows_least_in_degree one_edge_task 10);
    [apply (bool_decide_unpack _); vm_compute; exact I|vm_compute; reflexivity
    |apply (list_elem_of_lookup_2 _ 0); vm_compute; reflexivity
    |vm_compute; reflexivity].
Defined.

(** On the task with one operator: the keys are right before and after
    the first call of [eliminate]. *)
Lemma keys_count_live_predecessors_witness :
  operators_in_range one_edge_task ∧
  ∃ g f g1,
    VEGraph.make (Q := ListQueue.t) 10 one_edge_task = Some g ∧
    (f, g1) ∈ VEGraph.elimination_trace 10 (VEGraph.prepare one_edge_task) ∧
    key_ok g1 ∧ key_ok (VEGraph.eliminate f g1).
Proof.
  split; [apply (bool_decide_unpack _); vm_compute; exact I|].
  eexists _, (Fact 1 0), _.
  split; [vm_compute; reflexivity|].
  split; [apply (list_elem_of_lookup_2 _ 0); vm_compute; reflexivity|].
  edestruct (keys_count_live_predecessors (Q := ListQueue.t) one_edge_task 10)
    as (H1 & H2 & _);
    [apply (bool_decide_unpack _); vm_compute; exact I|vm_compute; reflexivity
    |apply (list_elem_of_lookup_2 _ 0); vm_compute; reflexivity|].
  split; [exact H1|exact H2].
Defined.

(** On the task with one operator: the number of columns of the model. *)
Lemma built_model_size_witness :
  ∃ g gen' lp',
    VEGraph.make (Q := ListQueue.t) 10 one_edge_task = Some g ∧
    initialize_constraints (Q := ListQueue.t) 10
      (new_DeleteRelaxationConstraintsRR default_options)
      one_edge_task one_operator_lp
    = Some (Ok (gen', lp')) ∧
    length (variables lp')
    = length (variables one_operator_lp) + length (all_facts one_edge_task)
      + length (op_effects one_edge_task) + size (VEGraph.edges g).
Proof.
  eexists _, _, _.
  split; [vm_compute; reflexivity|].
  split; [vm_compute; reflexivity|].
  refine (proj1 (built_model_size (Q := ListQueue.t) 10 default_options
                   one_edge_task one_operator_lp _ _ _ _ _));
    vm_compute; reflexivity.
Defined.

(** On the task with one operator and the model with its one
    operator-counting column: every row mentions columns of the model. *)
Lemma built_rows_mention_existing_columns_witness :
  operators_in_range one_edge_task ∧
  length (get_operators one_edge_task) ≤ length (variables one_operator_lp) ∧
  Forall (columns_in_range (length (variables one_operator_lp)))
         (constraints one_operator_lp) ∧
  ∃ gen' lp',
    initialize_constraints (Q := ListQueue.t) 10
      (new_DeleteRelaxationConstraintsRR default_options)
      one_edge_task one_operator_lp
    = Some (Ok (gen', lp')) ∧
    Forall (columns_in_range (length (variables lp'))) (constraints lp').
Proof.
  split; [apply (bool_decide_unpack _); vm_compute; exact I|].
  split; [simpl; lia|]. split; [constructor|].
  assert (∃ x, initialize_constraints (Q := ListQueue.t) 10
                 (new_DeleteRelaxationConstraintsRR default_options)
                 one_edge_task one_operator_lp = Some (Ok x))
    as [[gen' lp'] Hinit] by (eexists; vm_compute; reflexivity).
  exists gen', lp'. split; [exact Hinit|].
  apply (built_rows_mention_existing_columns (Q := ListQueue.t) 10
           default_options one_edge_task one_operator_lp gen' lp');
    [apply (bool_decide_unpack _); vm_compute; exact I|simpl; lia|constructor
    |exact Hinit].
Defined.

(** On the task with one operator: the operator-counting column is kept. *)
Lemma construction_keeps_existing_model_witness :
  operators_in_range one_edge_task ∧ goals_in_range one_edge_task ∧
  ∃ gen' lp',
    initialize_constraints (Q := ListQueue.t) 10
      (new_DeleteRelaxationConstraintsRR default_options)
      one_edge_task one_operator_lp
    = Some (Ok (gen', lp')) ∧
    variables one_operator_lp `prefix_of` variables lp' ∧
    constraints one_operator_lp `prefix_of` constraints lp'.
Proof.
  split; [apply (bool_decide_unpack _); vm_compute; exact I|].
  split; [apply (bool_decide_unpack _); vm_compute; exact I|].
  assert (∃ x, initialize_constraints (Q := ListQueue.t) 10
                 (new_DeleteRelaxationConstraintsRR default_options)
                 one_edge_task one_operator_lp = Some (Ok x))
    as [[gen' lp'] Hinit] by (eexists; vm_compute; reflexivity).
  exists gen', lp'. split; [exact Hinit|].
  apply (construction_keeps_existing_model (Q := ListQueue.t) 10
           default_options one_edge_task one_operator_lp gen' lp');
    [apply (bool_decide_unpack _); vm_compute; exact I
    |apply (bool_decide_unpack _); vm_compute; exact I
    |exact Hinit].
Defined.

(** On the operator that achieves its own precondition: the fact has no
    edge to itself and the lookup throws. *)
Lemma construction_throws_only_for_a_missing_self_edge_witness :
  ∃ g, VEGraph.make (Q := ListQueue.t) 10 self_achiever_task = Some g ∧
       ∃ op f, op ∈ get_operators self_achiever_task ∧
               f ∈ get_preconditions op ∧ f ∈ get_effects op ∧
               ((f, f) ∉ VEGraph.edges g) ∧
               no_edge (Fact 0 1, Fact 0 1) = no_edge (f, f).
Proof.
  assert (∃ g, VEGraph.make (Q := ListQueue.t) 10 self_achiever_task = Some g)
    as [g Hmake] by (eexists; vm_compute; reflexivity).
  exists g. split; [exact Hmake|].
  apply (construction_throws_only_for_a_missing_self_edge
           (Q := ListQueue.t) 10 default_options self_achiever_task
           one_operator_lp g Hmake).
Defined.

(** On the task with one operator, after two states: the facts of the
    second state are the ones registered. *)
Lemma rows_follow_the_state_witness :
  ∃ gen0 lp0,
    initialize_constraints (Q := ListQueue.t) 10
      (new_DeleteRelaxationConstraintsRR default_options)
      one_edge_task one_operator_lp
    = Some (Ok (gen0, lp0)) ∧
    Forall (state_in_range one_edge_task) [[0; 1]; [1; 1]] ∧
    last_state (update_all (gen0, mkSolver lp0) [[0; 1]; [1; 1]]).1
    = state_facts [1; 1].
Proof.
  assert (∃ x, initialize_constraints (Q := ListQueue.t) 10
                 (new_DeleteRelaxationConstraintsRR default_options)
                 one_edge_task one_operator_lp = Some (Ok x))
    as [[gen0 lp0] Hinit] by (eexists; vm_compute; reflexivity).
  assert (Forall (state_in_range one_edge_task) [[0; 1]; [1; 1]]) as Hstates
    by (repeat constructor; apply (bool_decide_unpack _); vm_compute; exact I).
  exists gen0, lp0. split; [exact Hinit|]. split; [exact Hstates|].
  exact (proj1 (rows_follow_the_state (Q := ListQueue.t) 10 default_options
                  one_edge_task one_operator_lp gen0 lp0 [[0; 1]; [1; 1]]
                  Hinit Hstates)).
Defined.

(** On the task with one operator: the row of the fact [B=1] is the
    fourth row. *)
Lemma row_of_a_fact_sums_its_achievers_witness :
  operators_in_range one_edge_task ∧
  ∃ gen' lp',
    initialize_constraints (Q := ListQueue.t) 10
      (new_DeleteRelaxationConstraintsRR default_options)
      one_edge_task one_operator_lp
    = Some (Ok (gen', lp')) ∧
    get_constraint_id gen' (Fact 1 1)
    = length (constraints one_operator_lp) + 3.
Proof.
  split; [apply (bool_decide_unpack _); vm_compute; exact I|].
  assert (∃ x, initialize_constraints (Q := ListQueue.t) 10
                 (new_DeleteRelaxationConstraintsRR default_options)
                 one_edge_task one_operator_lp = Some (Ok x))
    as [[gen' lp'] Hinit] by (eexists; vm_compute; reflexivity).
  exists gen', lp'. split; [exact Hinit|].
  apply (row_of_a_fact_sums_its_achievers (Q := ListQueue.t) 10
           default_options one_edge_task one_operator_lp gen' lp');
    [apply (bool_decide_unpack _); vm_compute; exact I|exact Hinit
    |vm_compute; reflexivity].
Defined.

(** On the task with one operator: the column 4, of the goal fact. *)
Lemma added_columns_of_the_built_model_witness :
  ∃ gen' lp',
    initialize_constraints (Q := ListQueue.t) 10
      (new_DeleteRelaxationConstraintsRR default_options)
      one_edge_task one_operator_lp
    = Some (Ok (gen', lp')) ∧
    length (variables one_operator_lp) ≤ 4 ∧
    4 < length (variables lp') ∧
    variables lp' !! 4
    = Some (mkLPVariable
              (Finite (if decide (4 ∈ get_var_f_defined gen'
                                        <$> get_goals one_edge_task)
                       then 1 else 0))
              (Finite 1) 0 (opt_use_integer_vars default_options)).
Proof.
  eexists _, _.
  split; [vm_compute; reflexivity|].
  split; [simpl; lia|].
  split; [vm_compute; lia|].
  apply (added_columns_of_the_built_model (Q := ListQueue.t) 10
           default_options one_edge_task one_operator_lp);
    [vm_compute; reflexivity|simpl; lia|vm_compute; lia].
Defined.

(** On the task with one operator: the rows of constraint (3) are those
    of the edges of the task graph. *)
Lemma rows_of_constraint_3_witness :
  ∃ gen' lp' (constraint3_ids : gmap (FactPair * FactPair) nat),
    initialize_constraints (Q := ListQueue.t) 10
      (new_DeleteRelaxationConstraintsRR default_options)
      one_edge_task one_operator_lp
    = Some (Ok (gen', lp')) ∧
    dom constraint3_ids
    = VEGraph.edges
        (VEGraph.construct_task_graph (Q := ListQueue.t) one_edge_task
                                      VEGraph.new).
Proof.
  assert (∃ x, initialize_constraints (Q := ListQueue.t) 10
                 (new_DeleteRelaxationConstraintsRR default_options)
                 one_edge_task one_operator_lp = Some (Ok x))
    as [[gen' lp'] Hinit] by (eexists; vm_compute; reflexivity).
  destruct (rows_of_constraint_3 (Q := ListQueue.t) 10 default_options
              one_edge_task one_operator_lp gen' lp' Hinit)
    as (ids & Hdom & _).
  exists gen', lp', ids. split; [exact Hinit|exact Hdom].
Defined.

(** On the two facts that achieve each other: the facts of the triples of
    delta are facts of the task. *)
Lemma elimination_stays_within_the_task_witness :
  operators_in_range two_cycle_task ∧
  ∃ g, VEGraph.make (Q := ListQueue.t) 10 two_cycle_task = Some g ∧
       ∀ i j k, (i, j, k) ∈ VEGraph.delta g →
                i ∈ all_facts two_cycle_task ∧ j ∈ all_facts two_cycle_task ∧
                k ∈ all_facts two_cycle_task.
Proof.
  split; [apply (bool_decide_unpack _); vm_compute; exact I|].
  assert (∃ g, VEGraph.make (Q := ListQueue.t) 10 two_cycle_task = Some g)
    as [g Hmake] by (eexists; vm_compute; reflexivity).
  exists g. split; [exact Hmake|].
  apply (elimination_stays_within_the_task (Q := ListQueue.t)
           two_cycle_task 10 g);
    [apply (bool_decide_unpack _); vm_compute; exact I|exact Hmake].
Defined.

(** On the task with one operator: every edge has a column. *)
Lemma rows_of_constraints_5_to_8_witness :
  ∃ g gen' lp',
    VEGraph.make (Q := ListQueue.t) 10 one_edge_task = Some g ∧
    initialize_constraints (Q := ListQueue.t) 10
      (new_DeleteRelaxationConstraintsRR default_options)
      one_edge_task one_operator_lp
    = Some (Ok (gen', lp')) ∧
    ∀ e, e ∈ VEGraph.edges g → is_Some (lp_var_id_edge gen' !! e).
Proof.
  assert (∃ g, VEGraph.make (Q := ListQueue.t) 10 one_edge_task = Some g)
    as [g Hmake] by (eexists; vm_compute; reflexivity).
  assert (∃ x, initialize_constraints (Q := ListQueue.t) 10
                 (new_DeleteRelaxationConstraintsRR default_options)
                 one_edge_task one_operator_lp = Some (Ok x))
    as [[gen' lp'] Hinit] by (eexists; vm_compute; reflexivity).
  exists g, gen', lp'. split; [exact Hmake|]. split; [exact Hinit|].
  apply (rows_of_constraints_5_to_8 (Q := ListQueue.t) 10 default_options
           one_edge_task one_operator_lp g gen' lp' Hmake Hinit).
Defined.
